(** * Chromosome.py: gene decoding, linking, evaluation and fitness scoring

    A shallow embedding of the [Chromosome] class of the Gene Expression
    Programming library, and the properties of it that the specification
    states.  Python strings are [string]s (sliced as lists of characters),
    dictionaries with string keys are [gmap]s, exceptions are the [Raise]
    outcomes of a small error monad. *)

From Stdlib Require Import QArith Qabs Qpower Lqa Ascii String.
From stdpp Require Import gmap strings list sorting.

Local Open Scope string_scope.
Local Open Scope list_scope.
Local Open Scope nat_scope.

(** ** Outcomes: a value or a raised Python exception *)

Inductive exn :=
  | IndexError | KeyError | ValueError | TypeError
  | ZeroDivisionError | OverflowError | RecursionError | LoopError
  | AssertionError.

Global Instance exn_eq_dec : EqDecision exn.
Proof. solve_decision. Defined.

Inductive result (A : Type) :=
  | Ok (a : A)
  | Raise (e : exn).
Arguments Ok {A} a.
Arguments Raise {A} e.

Definition bind {A B} (r : result A) (k : A → result B) : result B :=
  match r with
  | Ok a => k a
  | Raise e => Raise e
  end.

Notation "x ← r ; k" := (bind r (λ x, k))
  (at level 20, r at level 100, k at level 200, only parsing, right associativity).
Notation "' p ← r ; k" := (bind r (λ p, k))
  (at level 20, p pattern, r at level 100, k at level 200, only parsing,
   right associativity).

Definition is_Ok {A} (r : result A) : Prop := ∃ a, r = Ok a.

(** ** Numbers

    What an expression evaluates to: a number (held as a rational, the value
    of the integer or of the floating point number that the interpreter
    has), one of the IEEE specials, a complex number, or [None] (what
    [inorder] falls through to on a symbol that is neither terminal nor
    function). *)

Inductive value :=
  | VReal (q : Q)
  | VInf
  | VNegInf
  | VNaN
  | VComplex
  | VNone.

(** ** The arithmetic of the interpreter

    The fitness scorers compute with Python's [+], [-], [abs], [**] and [/]
    and test what they score with numpy's [isnan], [isinf] and [isneginf].
    None of these is in the source file, and what they do depends on how
    the interpreter holds a number: integers are computed exactly, floating
    point numbers are rounded and overflow to an infinity or, with [**], to
    an [OverflowError], and numpy raises [TypeError] on a number that it
    has no type for, such as an integer beyond 64 bits.  The operations are
    therefore parameters of the scorers, together with what holds of them
    however the numbers are held. *)

(** A number that is not negative, or the positive infinity. *)
Definition not_negative (v : value) : Prop :=
  match v with
  | VReal q => (0 <= q)%Q
  | VInf => True
  | _ => False
  end.

(** A number or an infinity. *)
Definition real_or_infinite (v : value) : Prop :=
  match v with
  | VReal _ | VInf | VNegInf => True
  | _ => False
  end.

Record Arithmetic := {
  (** [a + b], [a - b], [abs(a)], [a ** 2] and [a / b] *)
  py_add : value → value → result value;
  py_sub : value → value → result value;
  py_abs : value → result value;
  py_square : value → result value;
  py_truediv : value → value → result value;
  (** Whether numpy's tests accept the number, as the interpreter holds it:
      they do not accept an integer beyond 64 bits. *)
  numpy_takes : Q → bool;
  (** Only a division divides by zero. *)
  py_add_raises : ∀ a b, py_add a b ≠ Raise ZeroDivisionError;
  py_sub_raises : ∀ a b, py_sub a b ≠ Raise ZeroDivisionError;
  py_abs_raises : ∀ a, py_abs a ≠ Raise ZeroDivisionError;
  py_square_raises : ∀ a, py_square a ≠ Raise ZeroDivisionError;
  (** Rounding keeps the sign: the difference of two numbers is a number or
      an infinity, a square is not negative, nor is a sum of what is not
      negative; and one more than that is at least one, so that its
      inverse is there and lies between 0 and 1. *)
  py_sub_real : ∀ a b d, py_sub (VReal a) (VReal b) = Ok d → real_or_infinite d;
  py_square_sign : ∀ d s, real_or_infinite d → py_square d = Ok s → not_negative s;
  py_add_sign : ∀ a b c,
    not_negative a → not_negative b → py_add a b = Ok c → not_negative c;
  py_inverse : ∀ s d,
    not_negative s → py_add (VReal 1) s = Ok d →
    py_truediv (VReal 1) d ≠ Raise ZeroDivisionError
    ∧ ∀ r, py_truediv (VReal 1) d = Ok r → ∃ q, r = VReal q ∧ (0 <= q)%Q ∧ (q <= 1)%Q;
  (** [1.0 / 1] is 1, [1 + inf] is [inf] and [1.0 / inf] is 0. *)
  py_truediv_1_1 : py_truediv (VReal 1) (VReal 1) = Ok (VReal 1);
  py_add_1_inf : py_add (VReal 1) VInf = Ok VInf;
  py_truediv_1_inf : py_truediv (VReal 1) VInf = Ok (VReal 0);
  (** Integers of at most 52 bits are added, subtracted and tested exactly,
      as integers and as floating point numbers. *)
  py_small : ∀ z w : Z,
    (Z.abs z <= 2 ^ 52)%Z → (Z.abs w <= 2 ^ 52)%Z →
    py_add (VReal (inject_Z z)) (VReal (inject_Z w)) = Ok (VReal (inject_Z (z + w)))
    ∧ py_sub (VReal (inject_Z z)) (VReal (inject_Z w)) = Ok (VReal (inject_Z (z - w)))
    ∧ py_abs (VReal (inject_Z z)) = Ok (VReal (inject_Z (Z.abs z)))
    ∧ numpy_takes (inject_Z z) = true;
}.

(** ** Expression trees *)

(** Modelled from the spec: [lib.anytree.node.Node] is vendored outside the
    source file.  A node has a symbol name and an ordered sequence of child
    nodes; [Node(name, parent=p)] appends the new node to the children of
    [p].  This is the value of a tree, read from its root downwards. *)
#[local] Unset Elimination Schemes.
Inductive Node :=
  | mkNode (name : string) (children : list Node).

#[local] Set Elimination Schemes.

Definition name (n : Node) : string := let 'mkNode s _ := n in s.
Definition children (n : Node) : list Node := let 'mkNode _ cs := n in cs.

(** A one-character string, as [s[i]] gives it. *)
Definition chr (c : ascii) : string := String c EmptyString.

(** [s[a:b]] for [0 <= a]: slices are clipped at the end, never fail. *)
Definition slice {A} (l : list A) (a b : nat) : list A := take (b - a) (drop a l).

(** ** The class-level configuration *)

Record FunctionEntry := {
  fn_args : nat;
  fn_f : list value → result value;
}.

Module Chromosome.

Record Class := {
  functions : gmap string FunctionEntry;
  terminals : list string;
  constants : gmap string value;
  ephemeral_random_constants_range : option (Q * Q);
  linking_function : option string;
  num_genes : nat;
  head_length : option nat;
  length : option nat;
  fitness_cases : list (gmap string Q * Q);
}.

Section Decoder.
Variable cls : Class.

(** [args(f)]: the arity of a function symbol, 0 for anything else. *)
Definition args (f : string) : nat :=
  match functions cls !! f with
  | Some e => fn_args e
  | None => 0
  end.

(** [sum([args(f) for f in level])] *)
Definition level_args (level : list ascii) : nat :=
  sum_list_with (λ c, args (chr c)) level.

(** The [while] loop of [build_tree].  Every turn adds at least one to
    [index], so [fuel] turns are enough once [fuel] exceeds the gene's
    length. *)
Fixpoint build_levels (fuel : nat) (gene : list ascii)
    (levels : list (list ascii)) (index : nat) : list (list ascii) :=
  match fuel with
  | 0 => levels
  | S fuel' =>
      let nargs := level_args (default [] (last levels)) in
      if bool_decide (index < List.length gene) && negb (nargs =? 0) then
        build_levels fuel' gene
          (levels ++ [slice gene (index + 1) (index + 1 + nargs)])
          (index + nargs)
      else levels
  end.

(** The [for i in range(nargs)] loop of [grab_children], [n] turns left,
    with [rec] the recursive call one level down. *)
Fixpoint grab_loop
    (rec : string → nat → list (list ascii) → result (list Node * list (list ascii)))
    (current_level n i : nat) (levels : list (list ascii))
    : result (list Node * list (list ascii)) :=
  match n with
  | 0 => Ok ([], levels)
  | S n' =>
      match levels !! current_level ≫= (.!! i) with
      | None => Raise IndexError
      | Some c =>
          '(kids, levels) ← rec (chr c) (S current_level) levels;
          let levels :=
            if current_level <? List.length levels - 1 then
              <[S current_level :=
                  drop (args (chr c)) (default [] (levels !! S current_level))]> levels
            else levels in
          '(rest, levels) ← grab_loop rec current_level n' (S i) levels;
          Ok (mkNode (chr c) kids :: rest, levels)
      end
  end.

(** [grab_children(parent, current_level)]: returns the children attached
    to [parent] and the trimmed [levels].  [fuel] bounds the depth of the
    recursion, which never exceeds the number of levels. *)
Fixpoint grab_children (fuel : nat) (parent : string) (current_level : nat)
    (levels : list (list ascii)) : result (list Node * list (list ascii)) :=
  if current_level <? List.length levels then
    match fuel with
    | 0 => Raise RecursionError
    | S fuel' =>
        grab_loop (grab_children fuel') current_level (args parent) 0 levels
    end
  else Ok ([], levels).

Definition build_tree (gene : string) : result Node :=
  let g := list_ascii_of_string gene in
  match g with
  | [] => Raise IndexError
  | g0 :: _ =>
      let levels := build_levels (S (List.length g)) g [[g0]] 0 in
      '(kids, _) ← grab_children (List.length levels) (chr g0) 1 levels;
      Ok (mkNode (chr g0) kids)
  end.


(** *** The level construction, as the specification words it *)

(** Steps 1 and 2 of the decoding algorithm: level 0 is the first
    character; level [k] is the next [S] characters after all those already
    consumed, [S] being the total arity of level [k - 1].  Returned with the
    number of characters consumed through level [k]. *)
Fixpoint gene_level (gene : list ascii) (k : nat) : list ascii * nat :=
  match k with
  | 0 => (take 1 gene, 1)
  | S k' =>
      let '(prev, used) := gene_level gene k' in
      (take (level_args prev) (drop used gene), used + level_args prev)
  end.

(** The nodes of a forest at depth [k], left to right. *)
Fixpoint level_nodes (k : nat) (ts : list Node) : list Node :=
  match k with
  | 0 => ts
  | S k' => level_nodes k' (concat (map children ts))
  end.

(** Step 4: the nodes named [names] take their children from [fs], each
    the next [arity] trees not yet given away. *)
Fixpoint assign (names : list ascii) (fs : list Node) : list Node :=
  match names with
  | [] => []
  | c :: names' =>
      mkNode (chr c) (take (args (chr c)) fs)
        :: assign names' (drop (args (chr c)) fs)
  end.

(** The trees rooted at [names], their descendants drawn from the levels
    [ls] below them. *)
Fixpoint forest (ls : list (list ascii)) (names : list ascii) : list Node :=
  match ls with
  | [] => map (λ c, mkNode (chr c) []) names
  | l :: ls' => assign names (forest ls' (take (level_args names) l))
  end.

(** What is left of the levels [ls] once the trees rooted at [names] have
    taken their descendants. *)
Fixpoint trim (names : list ascii) (ls : list (list ascii)) : list (list ascii) :=
  match ls with
  | [] => []
  | l :: ls' =>
      drop (level_args names) l :: trim (take (level_args names) l) ls'
  end.

(** The levels [ls] hold all the descendants that [names] ask for. *)
Fixpoint enough (names : list ascii) (ls : list (list ascii)) : bool :=
  match ls with
  | [] => true
  | l :: ls' =>
      bool_decide (level_args names ≤ List.length l)
        && enough (take (level_args names) l) ls'
  end.

End Decoder.


(** *** The decoder, level by level *)

Section DecoderLevels.
Variable cls : Class.
Local Abbreviation args := (args cls).
Local Abbreviation level_args := (level_args cls).
Local Abbreviation forest := (forest cls).
Local Abbreviation trim := (trim cls).
Local Abbreviation enough := (enough cls).

(** What the loop of [grab_children] comes to on the level [l], from its
    position [i] for [n] turns, and what the call itself comes to; [pre]
    holds the levels above. *)
Definition grab_spec (pre : list (list ascii)) (l : list ascii)
    (ls : list (list ascii)) (i n : nat) : result (list Node * list (list ascii)) :=
  if bool_decide (i + n ≤ List.length l) && enough (take n (drop i l)) ls
  then Ok (forest ls (take n (drop i l)), pre ++ l :: trim (take n (drop i l)) ls)
  else Raise IndexError.

Definition grab_children_spec (p : string) (pre ls : list (list ascii))
    : result (list Node * list (list ascii)) :=
  match ls with
  | [] => Ok ([], pre ++ ls)
  | l :: ls' => grab_spec pre l ls' 0 (args p)
  end.

(** Level [k] of a gene, and the characters consumed through it. *)
Definition nth_level (gene : list ascii) (k : nat) : list ascii := (gene_level cls gene k).1.
Definition used (gene : list ascii) (k : nat) : nat := (gene_level cls gene k).2.

(** The list [levels] after [m] turns of the loop of [build_tree]. *)
Definition levels_upto (gene : list ascii) (m : nat) : list (list ascii) :=
  map (nth_level gene) (seq 0 (S m)).

(** The test of the [while] loop after [m] turns. *)
Definition go_on (gene : list ascii) (m : nat) : bool :=
  bool_decide (used gene m - 1 < List.length gene)
    && negb (level_args (nth_level gene m) =? 0).

(** The symbols at depth [k] below [names]. *)
Fixpoint names_at (ls : list (list ascii)) (names : list ascii) (k : nat) {struct k} : list ascii :=
  match k with
  | 0 => names
  | S k' =>
      match ls with
      | [] => []
      | l :: ls' => names_at ls' (take (level_args names) l) k'
      end
  end.

(** Every level of the gene is filled: it holds as many symbols as the
    level above asks for. *)
Definition filled (g : list ascii) : Prop :=
  ∀ k, List.length (nth_level g (S k)) = level_args (nth_level g k).

End DecoderLevels.

(** ** The tree linker *)

Section Linker.
Variable cls : Class.

(** [link_recursive], with [symbol] the linking function and [nargs]
    its arity.  The recursion need not end; [depth] is the number of nested
    calls the interpreter's stack still allows, after which Python raises
    [RecursionError]. *)
Fixpoint link_recursive (depth : nat) (symbol : string) (nargs : nat)
    (args : list Node) : result Node :=
  match depth with
  | 0 => Raise RecursionError
  | S depth' =>
      if List.length args =? nargs then Ok (mkNode symbol args)
      else
        inner ← link_recursive depth' symbol nargs (take nargs args);
        link_recursive depth' symbol nargs (inner :: drop nargs args)
  end.

(** [Chromosome.link].  Every argument is a [Node] by its type, so
    the [isinstance] check cannot fail. *)
Definition link (depth : nat) (args : list Node) : result Node :=
  match linking_function cls with
  | None => Raise ValueError
  | Some symbol =>
      match functions cls !! symbol with
      | None => Raise ValueError
      | Some e => link_recursive depth symbol (fn_args e) args
      end
  end.

End Linker.

(** The tree after [n] rounds of linking: the first [nargs] trees are
    combined, the combined tree takes their place at the front, and so on. *)
Fixpoint chain (n : nat) (symbol : string) (nargs : nat) (args : list Node) : Node :=
  match n with
  | 0 => mkNode symbol args
  | S n' => chain n' symbol nargs (mkNode symbol (take nargs args) :: drop nargs args)
  end.

(** The numbers of trees that a linking function of arity [nargs] can link. *)
Definition linkable (nargs n : nat) : Prop :=
  ∃ j, n = nargs + j * (nargs - 1) ∧ (j = 0 ∨ 2 ≤ nargs).

(** ** Chromosomes and their evaluation *)

(** A binding fingerprint: [tuple(sorted(terminal_values.items()))]. *)
Definition fingerprint : Type := list (string * Q).

(** Tuples compare by their first components, then by their second. *)
Definition item_leb (a b : string * Q) : bool :=
  String.ltb a.1 b.1 || (String.eqb a.1 b.1 && Qle_bool a.2 b.2).

Definition sorted (items : list (string * Q)) : fingerprint :=
  merge_sort (λ a b, Is_true (item_leb a b)) items.

(** Keys of a dictionary are equal when their names are the same strings and
    their numbers are equal as numbers; with rational numbers this is not
    equality of representations, hence the cache is kept as a list of
    entries with its own lookup. *)
Definition item_eqb (a b : string * Q) : bool :=
  String.eqb a.1 b.1 && Qeq_bool a.2 b.2.

Fixpoint fingerprint_eqb (a b : fingerprint) : bool :=
  match a, b with
  | [], [] => true
  | x :: a', y :: b' => item_eqb x y && fingerprint_eqb a' b'
  | _, _ => false
  end.

(** [d[key]] on a present key, and [key in d]. *)
Fixpoint cache_get (key : fingerprint) (d : list (fingerprint * value)) : option value :=
  match d with
  | [] => None
  | (k, v) :: d' => if fingerprint_eqb k key then Some v else cache_get key d'
  end.

(** [d[key] = v] *)
Fixpoint cache_set (key : fingerprint) (v : value) (d : list (fingerprint * value))
    : list (fingerprint * value) :=
  match d with
  | [] => [(key, v)]
  | (k, v') :: d' =>
      if fingerprint_eqb k key then (k, v) :: d' else (k, v') :: cache_set key v d'
  end.

Record chromosome := {
  genes : list string;
  trees : list Node;
  _values_ : list (fingerprint * value);
  _fitness_ : option value;
  ephemeral_random_constants : list Q;
}.

(** What an observer of an evaluation can count: trees decoded, links made,
    registered callables applied. *)
Inductive event :=
  | Decoded (gene : string)
  | Linked (trees : list Node)
  | Applied (f : string) (args : list value).

(** [str.isdigit] and [int] on code points below 256: the superscripts
    two, three and one are digits for [isdigit], and [int] rejects them. *)
Definition digit_value (c : ascii) : option nat :=
  let n := nat_of_ascii c in
  if (48 <=? n) && (n <=? 57) then Some (n - 48) else None.

Definition isdigit_char (c : ascii) : bool :=
  let n := nat_of_ascii c in
  ((48 <=? n) && (n <=? 57)) || (n =? 178) || (n =? 179) || (n =? 185).

Definition isdigit (s : string) : bool :=
  let cs := list_ascii_of_string s in
  negb (List.length cs =? 0) && forallb isdigit_char cs.

Definition int (s : string) : result value :=
  match mapM digit_value (list_ascii_of_string s) with
  | Some (d :: ds) =>
      Ok (VReal (inject_Z (Z.of_nat (foldl (λ acc d, 10 * acc + d) 0 (d :: ds)))))
  | _ => Raise ValueError
  end.

Section Evaluator.
Variable cls : Class.
(** The depth of recursion the interpreter allows to [link]. *)
Variable recursion_limit : nat.

(** The state that [inorder] threads: the [nonlocal erc_index] and the log
    of callables applied so far. *)
Record walk := {
  erc_index : nat;
  applied : list event;
}.

Section Comprehension.
Variable inorder : Node → walk → result value * walk.

(** [[inorder(node) for node in nodes]]: left to right, stopping at the
    first exception. *)
Fixpoint inorder_each (nodes : list Node) (w : walk) : result (list value) * walk :=
  match nodes with
  | [] => (Ok [], w)
  | node :: nodes' =>
      match inorder node w with
      | (Ok v, w1) =>
          match inorder_each nodes' w1 with
          | (Ok vs, w2) => (Ok (v :: vs), w2)
          | (Raise e, w2) => (Raise e, w2)
          end
      | (Raise e, w1) => (Raise e, w1)
      end
  end.

End Comprehension.

Section Inorder.
Variable self : chromosome.
Variable terminal_values : gmap string Q.

(** The [inorder] closure of [evaluate]: a terminal resolves to the next
    ephemeral constant, a fixed constant, an integer literal or a bound
    value, in this order; a function is applied to its children's values,
    taken left to right. *)
Fixpoint inorder (start : Node) (w : walk) : result value * walk :=
  let 'mkNode nm kids := start in
  if bool_decide (nm ∈ terminals cls) then
    if String.eqb nm "?" then
      let w' := {| erc_index := erc_index w + 1; applied := applied w |} in
      match ephemeral_random_constants self !! (erc_index w' - 1) with
      | Some q => (Ok (VReal q), w')
      | None => (Raise IndexError, w')
      end
    else
      match constants cls !! nm with
      | Some v => (Ok v, w)
      | None =>
          if isdigit nm then (int nm, w)
          else
            match terminal_values !! nm with
            | Some q => (Ok (VReal q), w)
            | None => (Raise KeyError, w)
            end
      end
  else
    match functions cls !! nm with
    | Some e =>
        match inorder_each inorder kids w with
        | (Ok vs, w1) =>
            (fn_f e vs,
             {| erc_index := erc_index w1;
                applied := applied w1 ++ [Applied nm vs] |})
        | (Raise e, w1) => (Raise e, w1)
        end
    | None => (Ok VNone, w)
    end.

End Inorder.

(** [[Chromosome.build_tree(gene) for gene in self.genes]] *)
Fixpoint build_trees (genes : list string) : result (list Node) :=
  match genes with
  | [] => Ok []
  | gene :: genes' =>
      t ← build_tree cls gene;
      ts ← build_trees genes';
      Ok (t :: ts)
  end.

(** The genes that the comprehension gets to: all of them, or those up to
    the first one that fails to decode. *)
Fixpoint reached (genes : list string) : list string :=
  match genes with
  | [] => []
  | gene :: genes' =>
      match build_tree cls gene with
      | Ok _ => gene :: reached genes'
      | Raise _ => [gene]
      end
  end.

Definition set_trees (self : chromosome) (ts : list Node) : chromosome :=
  {| genes := genes self; trees := ts; _values_ := _values_ self;
     _fitness_ := _fitness_ self;
     ephemeral_random_constants := ephemeral_random_constants self |}.

Definition set_value (self : chromosome) (key : fingerprint) (v : value) : chromosome :=
  {| genes := genes self; trees := trees self;
     _values_ := cache_set key v (_values_ self);
     _fitness_ := _fitness_ self;
     ephemeral_random_constants := ephemeral_random_constants self |}.

Definition set_fitness (self : chromosome) (v : value) : chromosome :=
  {| genes := genes self; trees := trees self; _values_ := _values_ self;
     _fitness_ := Some v;
     ephemeral_random_constants := ephemeral_random_constants self |}.

(** The trees of the chromosome, decoded from its genes unless they are there
    already, with the decodings made. *)
Definition decoded (self : chromosome) : result (list Node) * list event :=
  if List.length (trees self) =? 0
  then (build_trees (genes self), Decoded <$> reached (genes self))
  else (Ok (trees self), []).

(** The tree that is evaluated: the trees linked if the chromosome has
    several genes, its first tree otherwise. *)
Definition expression_tree (ts : list Node) : result Node * list event :=
  if 1 <? num_genes cls
  then (link cls recursion_limit ts, [Linked ts])
  else (match ts with t :: _ => Ok t | [] => Raise IndexError end, []).

(** [self.evaluate(terminal_values)]: the outcome, the chromosome as the
    call leaves it, and what the call did. *)
Definition evaluate (self : chromosome) (terminal_values : gmap string Q)
    : result value * chromosome * list event :=
  let value_fingerprint := sorted (map_to_list terminal_values) in
  match cache_get value_fingerprint (_values_ self) with
  | Some v => (Ok v, self, [])
  | None =>
      match decoded self with
      | (Raise e, log) => (Raise e, self, log)
      | (Ok ts, log1) =>
          let self := set_trees self ts in
          match expression_tree ts with
          | (Raise e, log2) => (Raise e, self, log1 ++ log2)
          | (Ok expression_tree, log2) =>
              let erc_index := 0 in
              let '(r, w) :=
                inorder self terminal_values expression_tree
                  {| erc_index := erc_index; applied := [] |} in
              let log := log1 ++ log2 ++ applied w in
              match r with
              | Ok VComplex =>
                  (Ok VNaN,
                   set_value (set_value self value_fingerprint VComplex)
                     value_fingerprint VNaN,
                   log)
              | Ok v => (Ok v, set_value self value_fingerprint v, log)
              | Raise ZeroDivisionError | Raise TypeError =>
                  (Ok VNaN, set_value self value_fingerprint VNaN, log)
              | Raise e => (Raise e, self, log)
              end
          end
      end
  end.

End Evaluator.


Section EvaluatorSpec.
Variable cls : Class.
(** The number of ephemeral constants that [inorder] reads in a tree. *)
Fixpoint question_marks (t : Node) : nat :=
  let 'mkNode nm kids := t in
  if bool_decide (nm ∈ terminals cls) then
    if String.eqb nm "?" then 1 else 0
  else
    match functions cls !! nm with
    | Some _ => sum_list_with question_marks kids
    | None => 0
    end.

(** What the [try] of [evaluate] makes of the outcome of the traversal. *)
Definition guarded (r : result value) : result value :=
  match r with
  | Ok VComplex | Raise ZeroDivisionError | Raise TypeError => Ok VNaN
  | _ => r
  end.

(** *** Ephemeral constants by position, as the specification words it

    The ["?"] terminals of a tree are numbered in the order of the
    traversal: depth first, the children of a node from left to right.  No
    cursor is kept: the ["?"] that [i] others precede reads slot [i]. *)
Section Positions.
Variable value_at : Node → nat → result value.

(** The values of [nodes], of which the first begins at position [i] and
    each next one where the one to its left ends. *)
Fixpoint values_at (nodes : list Node) (i : nat) : result (list value) :=
  match nodes with
  | [] => Ok []
  | node :: nodes' =>
      v ← value_at node i;
      vs ← values_at nodes' (i + question_marks node);
      Ok (v :: vs)
  end.
End Positions.

Section ValueAt.
Variable self : chromosome.
Variable terminal_values : gmap string Q.

(** The value of the tree [start] whose first ["?"] has position [i]. *)
Fixpoint value_at (start : Node) (i : nat) : result value :=
  let 'mkNode nm kids := start in
  if bool_decide (nm ∈ terminals cls) then
    if String.eqb nm "?" then
      match ephemeral_random_constants self !! i with
      | Some q => Ok (VReal q)
      | None => Raise IndexError
      end
    else
      match constants cls !! nm with
      | Some v => Ok v
      | None =>
          if isdigit nm then int nm
          else
            match terminal_values !! nm with
            | Some q => Ok (VReal q)
            | None => Raise KeyError
            end
      end
  else
    match functions cls !! nm with
    | Some e => vs ← values_at value_at kids i; fn_f e vs
    | None => Ok VNone
    end.
End ValueAt.
End EvaluatorSpec.

(** ** Construction and fitness *)

Section Scorers.
Variable cls : Class.
Variable recursion_limit : nat.
(** The arithmetic that the scorers compute with. *)
Variable ar : Arithmetic.

(** [Chromosome(genes)].  [uniform low high size] stands for
    [np.random.uniform(low, high, size=size)], the sample it draws. *)
Definition __init__ (uniform : Q → Q → nat → list Q) (genes : list string)
    : result chromosome :=
  if bool_decide (functions cls = ∅) then Raise ValueError
  else if List.length (terminals cls) =? 0 then Raise ValueError
  else
    match length cls, head_length cls with
    | None, _ | _, None => Raise ValueError
    | Some len, Some _ =>
        if bool_decide (linking_function cls = None) && (1 <? List.length genes)
        then Raise ValueError
        else if negb (List.length genes =? num_genes cls) then Raise ValueError
        else
          match ephemeral_random_constants_range cls with
          | None =>
              if bool_decide ("?" ∈ terminals cls) then Raise ValueError
              else Raise TypeError
          | Some (low, high) =>
              Ok {| genes := genes; trees := []; _values_ := [];
                    _fitness_ := None;
                    ephemeral_random_constants := uniform low high len |}
          end
    end.

(** [self.fitness()]: the value and the warnings it emits. *)
Definition fitness (self : chromosome) : value * list string :=
  match _fitness_ self with
  | Some v => (v, [])
  | None =>
      (VReal 0%Q,
       ["Fitness of chromosome has not been properly calculated. Returning 0."])
  end.

(** The test [type(C_ij) == np.complex or np.isnan(C_ij) or np.isinf(C_ij)
    or np.isneginf(C_ij)] of the scorers: [None] for a value it catches, the
    number otherwise; numpy rejects Python's [None], and a number that it
    has no type for, with a [TypeError]. *)
Definition real_case (C_ij : value) : result (option Q) :=
  match C_ij with
  | VReal q => if numpy_takes ar q then Ok (Some q) else Raise TypeError
  | VInf | VNegInf | VNaN | VComplex => Ok None
  | VNone => Raise TypeError
  end.

(** [fitness + (M - abs(C_ij - T_j))] *)
Definition absolute_step (M : Q) (fitness : value) (C_ij T_j : Q) : result value :=
  error ← py_sub ar (VReal C_ij) (VReal T_j);
  distance ← py_abs ar error;
  term ← py_sub ar (VReal M) distance;
  py_add ar fitness term.

(** The loop over the fitness cases of [absolute_fitness], from the running
    sum [fitness]. *)
Fixpoint absolute_cases (M : Q) (cases : list (gmap string Q * Q))
    (self : chromosome) (fitness : value) : result value * chromosome :=
  match cases with
  | [] => (Ok fitness, self)
  | (bindings, T_j) :: cases' =>
      let '(r, self, _) := evaluate cls recursion_limit self bindings in
      match r with
      | Raise e => (Raise e, self)
      | Ok C_ij =>
          match real_case C_ij with
          | Raise e => (Raise e, self)
          | Ok None => (Ok (VReal 0), self)
          | Ok (Some c) =>
              match absolute_step M fitness c T_j with
              | Raise e => (Raise e, self)
              | Ok fitness => absolute_cases M cases' self fitness
              end
          end
      end
  end.

(** The body of [absolute_fitness] for one chromosome. *)
Definition absolute_fitness1 (M : Q) (self : chromosome) : result value * chromosome :=
  match _fitness_ self with
  | Some v => (Ok v, self)
  | None =>
      match absolute_cases M (fitness_cases cls) self (VReal 0) with
      | (Ok fitness, self) => (Ok fitness, set_fitness self fitness)
      | (Raise e, self) => (Raise e, self)
      end
  end.

(** [Chromosome.absolute_fitness(M, *args)] over distinct chromosomes: the
    list of fitnesses that [np.asarray] is given and the chromosomes as the
    call leaves them (those after a raising one untouched). *)
Fixpoint absolute_fitness (M : Q) (args : list chromosome)
    : result (list value) * list chromosome :=
  match args with
  | [] => (Ok [], [])
  | chromosome :: args' =>
      match absolute_fitness1 M chromosome with
      | (Raise e, chromosome) => (Raise e, chromosome :: args')
      | (Ok v, chromosome) =>
          match absolute_fitness M args' with
          | (Raise e, args') => (Raise e, chromosome :: args')
          | (Ok vs, args') => (Ok (v :: vs), chromosome :: args')
          end
      end
  end.

(** [fitness + (C_ij - T_j) ** 2] *)
Definition squared_step (fitness : value) (C_ij T_j : Q) : result value :=
  error ← py_sub ar (VReal C_ij) (VReal T_j);
  square ← py_square ar error;
  py_add ar fitness square.

(** The loop of [inv_squared_error]; the sum is forced to infinity by a
    value that the test catches. *)
Fixpoint squared_cases (cases : list (gmap string Q * Q))
    (self : chromosome) (fitness : value) : result value * chromosome :=
  match cases with
  | [] => (Ok fitness, self)
  | (bindings, T_j) :: cases' =>
      let '(r, self, _) := evaluate cls recursion_limit self bindings in
      match r with
      | Raise e => (Raise e, self)
      | Ok C_ij =>
          match real_case C_ij with
          | Raise e => (Raise e, self)
          | Ok None => (Ok VInf, self)
          | Ok (Some c) =>
              match squared_step fitness c T_j with
              | Raise e => (Raise e, self)
              | Ok fitness => squared_cases cases' self fitness
              end
          end
      end
  end.

(** [1.0 / (1 + fitness)] *)
Definition inverse_of_one_plus (fitness : value) : result value :=
  denominator ← py_add ar (VReal 1) fitness;
  py_truediv ar (VReal 1) denominator.

(** The body of [inv_squared_error] for one chromosome. *)
Definition inv_squared_error1 (self : chromosome) : result value * chromosome :=
  match _fitness_ self with
  | Some v => (Ok v, self)
  | None =>
      match squared_cases (fitness_cases cls) self (VReal 0) with
      | (Ok fitness, self) =>
          match inverse_of_one_plus fitness with
          | Ok v => (Ok v, set_fitness self v)
          | Raise e => (Raise e, self)
          end
      | (Raise e, self) => (Raise e, self)
      end
  end.

Fixpoint inv_squared_error (args : list chromosome)
    : result (list value) * list chromosome :=
  match args with
  | [] => (Ok [], [])
  | chromosome :: args' =>
      match inv_squared_error1 chromosome with
      | (Raise e, chromosome) => (Raise e, chromosome :: args')
      | (Ok v, chromosome) =>
          match inv_squared_error args' with
          | (Raise e, args') => (Raise e, chromosome :: args')
          | (Ok vs, args') => (Ok (v :: vs), chromosome :: args')
          end
      end
  end.

(** [self.evaluate] on each of [cases] in turn, up to the first exception. *)
Fixpoint evaluate_cases (cases : list (gmap string Q * Q)) (self : chromosome)
    : result (list value) * chromosome :=
  match cases with
  | [] => (Ok [], self)
  | (bindings, _) :: cases' =>
      let '(r, self, _) := evaluate cls recursion_limit self bindings in
      match r with
      | Raise e => (Raise e, self)
      | Ok v =>
          match evaluate_cases cases' self with
          | (Ok vs, self) => (Ok (v :: vs), self)
          | (Raise e, self) => (Raise e, self)
          end
      end
  end.

(** The sum of [M - |evaluated - target|] over the cases, added up in
    their order from [fitness] on, in the arithmetic of the interpreter. *)
Fixpoint absolute_sum (M : Q) (fitness : value) (evaluated targets : list Q)
    : result value :=
  match evaluated, targets with
  | c :: evaluated', T_j :: targets' =>
      error ← py_sub ar (VReal c) (VReal T_j);
      distance ← py_abs ar error;
      term ← py_sub ar (VReal M) distance;
      fitness ← py_add ar fitness term;
      absolute_sum M fitness evaluated' targets'
  | _, _ => Ok fitness
  end.

(** The sum of the squared errors over the cases, likewise. *)
Fixpoint squared_sum (fitness : value) (evaluated targets : list Q) : result value :=
  match evaluated, targets with
  | c :: evaluated', T_j :: targets' =>
      error ← py_sub ar (VReal c) (VReal T_j);
      square ← py_square ar error;
      fitness ← py_add ar fitness square;
      squared_sum fitness evaluated' targets'
  | _, _ => Ok fitness
  end.

(** The values that the scorers catch. *)
Definition anomalous (v : value) : Prop := v ∈ [VInf; VNegInf; VNaN; VComplex].

(** A number that numpy's tests accept. *)
Definition taken (q : Q) : Prop := numpy_takes ar q = true.

(** How [absolute_fitness] comes to give the chromosome [self] the fitness
    [v], leaving it as [self']: the chromosome has this fitness already; or
    all its fitness cases evaluate to numbers, of which [v] is the sum of
    [M - |evaluated - target|]; or one of them evaluates to a value that the
    scorer catches, the cases before it having been added up, and [v] is
    0. *)
Definition absolute_scored (M : Q) (self : chromosome) (v : value) (self' : chromosome)
    : Prop :=
  match _fitness_ self with
  | Some f => v = f ∧ self' = self
  | None =>
      (∃ qs self1,
         evaluate_cases (fitness_cases cls) self = (Ok (VReal <$> qs), self1)
         ∧ Forall taken qs
         ∧ absolute_sum M (VReal 0) qs (fitness_cases cls).*2 = Ok v
         ∧ self' = set_fitness self1 v)
      ∨ (∃ pre b T_j post qs self1 x self2 log,
           fitness_cases cls = pre ++ (b, T_j) :: post
           ∧ evaluate_cases pre self = (Ok (VReal <$> qs), self1)
           ∧ Forall taken qs
           ∧ is_Ok (absolute_sum M (VReal 0) qs pre.*2)
           ∧ evaluate cls recursion_limit self1 b = (Ok x, self2, log)
           ∧ anomalous x
           ∧ v = VReal 0 ∧ self' = set_fitness self2 (VReal 0))
  end.

(** The same for [inv_squared_error]: the fitness is there already; or it
    is [1.0 / (1 + s)] for the sum [s] of the squared errors; or it is 0. *)
Definition squared_scored (self : chromosome) (v : value) (self' : chromosome) : Prop :=
  match _fitness_ self with
  | Some f => v = f ∧ self' = self
  | None =>
      (∃ qs self1 s,
         evaluate_cases (fitness_cases cls) self = (Ok (VReal <$> qs), self1)
         ∧ Forall taken qs
         ∧ squared_sum (VReal 0) qs (fitness_cases cls).*2 = Ok s
         ∧ (∃ d, py_add ar (VReal 1) s = Ok d ∧ py_truediv ar (VReal 1) d = Ok v)
         ∧ self' = set_fitness self1 v)
      ∨ (∃ pre b T_j post qs self1 x self2 log,
           fitness_cases cls = pre ++ (b, T_j) :: post
           ∧ evaluate_cases pre self = (Ok (VReal <$> qs), self1)
           ∧ Forall taken qs
           ∧ is_Ok (squared_sum (VReal 0) qs pre.*2)
           ∧ evaluate cls recursion_limit self1 b = (Ok x, self2, log)
           ∧ anomalous x
           ∧ v = VReal 0 ∧ self' = set_fitness self2 (VReal 0))
  end.

End Scorers.

(** ** Shapes of trees *)

(** The number of nodes of a tree. *)
Fixpoint tree_size (t : Node) : nat :=
  let 'mkNode _ kids := t in S (sum_list_with tree_size kids).

Section WellFormed.
Variable cls : Class.

(** Every node of the tree has as many children as its symbol takes
    arguments. *)
Fixpoint arity_ok (t : Node) : bool :=
  let 'mkNode nm kids := t in
  (List.length kids =? args cls nm) && forallb arity_ok kids.

(** An application of a registered callable to as many arguments as it is
    registered with, if the event is an application. *)
Definition by_arity (ev : event) : Prop :=
  ∀ f vs, ev = Applied f vs →
    ∃ e, functions cls !! f = Some e ∧ List.length vs = fn_args e.

(** What [__init__] asks of the class and of the number of genes, the range
    of the ephemeral constants apart. *)
Definition ready (gs : list string) : Prop :=
  functions cls ≠ ∅ ∧ terminals cls ≠ []
  ∧ is_Some (length cls) ∧ is_Some (head_length cls)
  ∧ (linking_function cls = None → List.length gs ≤ 1)
  ∧ List.length gs = num_genes cls.

End WellFormed.

(** The value of trees linked by a function [f] of two arguments, from the
    values of the trees: [f] is applied to what has been combined so far and
    to the value of the next tree. *)
Fixpoint link_values (f : list value → result value) (acc : value) (vs : list value)
    : result value :=
  match vs with
  | [] => Ok acc
  | v :: vs' => acc' ← f [acc; v]; link_values f acc' vs'
  end.

(** ** Random genes and individuals *)

(** The generator behind [random.randint]: the draws it is going to make,
    one for each call. *)
Definition supply : Type := nat → nat.

(** [randint(a, b)]: an integer of [a..b], made from the next draw; an empty
    range is a [ValueError]. *)
Definition randint (a b : Z) (s : supply) : result Z * supply :=
  if (b <? a)%Z then (Raise ValueError, s)
  else (Ok (a + Z.of_nat (s 0%nat) mod (b - a + 1))%Z, λ i, s (S i)).

(** [xs[randint(0, len(xs) - 1)]] *)
Definition pick (xs : list string) (s : supply) : result string * supply :=
  match randint 0 (Z.of_nat (List.length xs) - 1) s with
  | (Ok i, s) =>
      (match xs !! Z.to_nat i with
       | Some x => Ok x
       | None => Raise IndexError
       end, s)
  | (Raise e, s) => (Raise e, s)
  end.

(** [[xs[randint(0, len(xs) - 1)] for _ in range(n)]] *)
Fixpoint picks (n : nat) (xs : list string) (s : supply) : result (list string) * supply :=
  match n with
  | 0 => (Ok [], s)
  | S n' =>
      match pick xs s with
      | (Ok x, s) =>
          match picks n' xs s with
          | (Ok l, s) => (Ok (x :: l), s)
          | (Raise e, s) => (Raise e, s)
          end
      | (Raise e, s) => (Raise e, s)
      end
  end.

(** [sep.join(parts)] for the empty separator. *)
Definition join (parts : list string) : string := foldr String.append EmptyString parts.

Section Generators.
Variable cls : Class.
(** [list(Chromosome.functions.keys())]: the names of the functions, in the
    order in which the dictionary holds them, which the map does not
    record. *)
Variable keys : list string.

(** [Chromosome.generate_random_gene()]: [range] of [None], and [None] minus
    a number, are [TypeError]s. *)
Definition generate_random_gene (s : supply) : result string * supply :=
  let possible_chars := keys ++ terminals cls in
  match head_length cls with
  | None => (Raise TypeError, s)
  | Some h =>
      match picks h possible_chars s with
      | (Raise e, s) => (Raise e, s)
      | (Ok head, s) =>
          match length cls with
          | None => (Raise TypeError, s)
          | Some len =>
              match picks (len - h) (terminals cls) s with
              | (Raise e, s) => (Raise e, s)
              | (Ok tail, s) => (Ok (join head ++ join tail)%string, s)
              end
          end
      end
  end.

(** [[Chromosome.generate_random_gene() for _ in range(n)]] *)
Fixpoint generate_random_genes (n : nat) (s : supply) : result (list string) * supply :=
  match n with
  | 0 => (Ok [], s)
  | S n' =>
      match generate_random_gene s with
      | (Ok gene, s) =>
          match generate_random_genes n' s with
          | (Ok genes, s) => (Ok (gene :: genes), s)
          | (Raise e, s) => (Raise e, s)
          end
      | (Raise e, s) => (Raise e, s)
      end
  end.

(** [Chromosome.generate_random_individual()] *)
Definition generate_random_individual (uniform : Q → Q → nat → list Q) (s : supply)
    : result chromosome * supply :=
  match generate_random_genes (num_genes cls) s with
  | (Ok genes, s) => (__init__ cls uniform genes, s)
  | (Raise e, s) => (Raise e, s)
  end.

(** The symbols are single characters, the terminals take no arguments and
    no function takes more than [n]. *)
Definition symbols_ok (n : nat) : Prop :=
  Forall (λ x, String.length x = 1) (keys ++ terminals cls)
  ∧ Forall (λ x, args cls x = 0) (terminals cls)
  ∧ map_Forall (λ _ e, fn_args e ≤ n) (functions cls).

End Generators.

End Chromosome.

(** ** Nodes as objects

    Modelled from the spec: [lib.anytree.node.Node] is vendored outside the
    source file.  Its trees are built from dynamic node objects with parent
    back-references: a node object has a name, a parent and an ordered
    sequence of children, and assigning [node.parent = p] takes the node
    out of the children of its old parent and appends it to those of [p],
    after checking that [p] is not the node itself nor one of its
    descendants.  Objects live in a store, addressed by their index. *)
Module Store.

Record cell := {
  cell_name : string;
  cell_parent : option nat;
  cell_children : list nat;
}.

Definition with_parent (p : option nat) (c : cell) : cell :=
  {| cell_name := cell_name c; cell_parent := p; cell_children := cell_children c |}.

Definition with_children (f : list nat → list nat) (c : cell) : cell :=
  {| cell_name := cell_name c; cell_parent := cell_parent c;
     cell_children := f (cell_children c) |}.

(** [Node(name)]: a fresh object, without parent or children. *)
Definition new_node (nm : string) (h : list cell) : nat * list cell :=
  (List.length h,
   h ++ [{| cell_name := nm; cell_parent := None; cell_children := [] |}]).

(** Whether [self] is [node] or lies on the path from [node] to its root;
    [fuel] bounds the walk. *)
Fixpoint on_path (fuel : nat) (h : list cell) (self node : nat) : bool :=
  (node =? self) ||
  match fuel with
  | 0 => false
  | S fuel' =>
      match h !! node ≫= cell_parent with
      | Some p => on_path fuel' h self p
      | None => false
      end
  end.

Definition detach (self : nat) (parent : option nat) (h : list cell) : result (list cell) :=
  match parent with
  | None => Ok h
  | Some p =>
      match h !! p with
      | None => Raise TypeError
      | Some pc =>
          if bool_decide (self ∈ cell_children pc) then
            Ok (alter (with_parent None) self
                  (alter (with_children (filter (λ child, child ≠ self))) p h))
          else Raise AssertionError
      end
  end.

Definition attach (self parent : nat) (h : list cell) : result (list cell) :=
  match h !! parent with
  | None => Raise TypeError
  | Some pc =>
      if bool_decide (self ∈ cell_children pc) then Raise AssertionError
      else
        Ok (alter (with_parent (Some parent)) self
              (alter (with_children (λ children, children ++ [self])) parent h))
  end.

(** [self.parent = value] *)
Definition set_parent (self value : nat) (h : list cell) : result (list cell) :=
  match h !! self with
  | None => Raise TypeError
  | Some sc =>
      if bool_decide (cell_parent sc = Some value) then Ok h
      else if on_path (List.length h) h self value then Raise LoopError
      else
        h ← detach self (cell_parent sc) h;
        attach self value h
  end.

(** [for tree in args: tree.parent = root] *)
Fixpoint set_parents (args : list nat) (root : nat) (h : list cell) : result (list cell) :=
  match args with
  | [] => Ok h
  | tree :: args' =>
      h ← set_parent tree root h;
      set_parents args' root h
  end.

(** [link_recursive] on node objects. *)
Fixpoint link_recursive (depth : nat) (symbol : string) (nargs : nat)
    (args : list nat) (h : list cell) : result (nat * list cell) :=
  match depth with
  | 0 => Raise RecursionError
  | S depth' =>
      let '(root, h) := new_node symbol h in
      if List.length args =? nargs then
        h ← set_parents args root h;
        Ok (root, h)
      else
        '(inner, h) ← link_recursive depth' symbol nargs (take nargs args) h;
        link_recursive depth' symbol nargs (inner :: drop nargs args) h
  end.

(** The tree below an object, as a value; [None] if it is deeper than
    [fuel] or refers to an object that is not there. *)
Fixpoint tree_of (fuel : nat) (h : list cell) (l : nat) : option Node :=
  match fuel with
  | 0 => None
  | S fuel' =>
      match h !! l with
      | None => None
      | Some c =>
          match mapM (tree_of fuel' h) (cell_children c) with
          | None => None
          | Some kids => Some (mkNode (cell_name c) kids)
          end
      end
  end.


(** The object at [a] is there and has no parent. *)
Definition parentless (h : list cell) (a : nat) : Prop :=
  ∃ c, h !! a = Some c ∧ cell_parent c = None.

Section Frame.
(** Objects below [n] are the ones that were there before linking began. *)
Variable n : nat.

(** A parent that linking created. *)
Definition fresh_parent (c : cell) : Prop := ∃ p, cell_parent c = Some p ∧ n ≤ p.
(** No parent, or one that linking created. *)
Definition loose (c : cell) : Prop := cell_parent c = None ∨ fresh_parent c.

(** From [h] to [h']: objects stay, with their names; those below [n] keep
    their children; those outside [S] keep their parent. *)
Definition steps (S : list nat) (h h' : list cell) : Prop :=
  List.length h ≤ List.length h' ∧
  ∀ l c, h !! l = Some c →
    ∃ c', h' !! l = Some c' ∧ cell_name c' = cell_name c ∧
      (l < n → cell_children c' = cell_children c) ∧
      (l ∉ S → cell_parent c' = cell_parent c) ∧
      (loose c → loose c') ∧ (fresh_parent c → fresh_parent c').

End Frame.

End Store.

(** ** A symbol table and chromosomes to run the code on *)
Module Examples.
Import Chromosome.

(** A callable of two real arguments; a call with another number of
    arguments is a [TypeError], and not-a-number stands for what the
    operation gives outside the reals. *)
Definition binary (f : Q → Q → result value) (args : list value) : result value :=
  match args with
  | [VReal a; VReal b] => f a b
  | [_; _] => Ok VNaN
  | _ => Raise TypeError
  end.

(** [operator.add], [operator.sub], [operator.mul], [operator.truediv] *)
Definition add : list value → result value := binary (λ a b, Ok (VReal (a + b)%Q)).
Definition sub : list value → result value := binary (λ a b, Ok (VReal (a - b)%Q)).
Definition mul : list value → result value := binary (λ a b, Ok (VReal (a * b)%Q)).
Definition truediv : list value → result value :=
  binary (λ a b, if Qeq_bool b 0 then Raise ZeroDivisionError
                 else Ok (VReal (a / b)%Q)).

(** The square root of a rational that is not negative, rounded down to six
    more decimal places than its denominator has. *)
Definition sqrt_down (a : Q) : Q :=
  Z.sqrt (Qnum a * Z.pos (Qden a) * 10 ^ 12) # (Qden a * 10 ^ 6).

(** [math.sqrt]: a negative argument is a [ValueError] (math domain error). *)
Definition math_sqrt (args : list value) : result value :=
  match args with
  | [VReal a] => if Qle_bool 0 a then Ok (VReal (sqrt_down a)) else Raise ValueError
  | [_] => Ok VNaN
  | _ => Raise TypeError
  end.

(** [lambda a: a ** 0.5]: complex on a negative argument. *)
Definition pow_half (args : list value) : result value :=
  match args with
  | [VReal a] => if Qle_bool 0 a then Ok (VReal (sqrt_down a)) else Ok VComplex
  | [_] => Ok VNaN
  | _ => Raise TypeError
  end.

Definition arithmetic : gmap string FunctionEntry :=
  {[ "+" := {| fn_args := 2; fn_f := add |};
     "-" := {| fn_args := 2; fn_f := sub |};
     "*" := {| fn_args := 2; fn_f := mul |};
     "/" := {| fn_args := 2; fn_f := truediv |};
     "Q" := {| fn_args := 1; fn_f := math_sqrt |};
     "R" := {| fn_args := 1; fn_f := pow_half |} ]}.

(** Chromosomes of [n] genes, each a head of [h] symbols and [len] symbols
    in all, linked by [link_by], with the one fitness case [({x: 2}, 4)]. *)
Definition table (n h len : nat) (link_by : string) : Class :=
  {| functions := arithmetic;
     terminals := ["x"; "y"; "?"; "1"; "2"];
     constants := ∅;
     ephemeral_random_constants_range := Some ((-1)%Q, 1%Q);
     linking_function := Some link_by;
     num_genes := n;
     head_length := Some h;
     length := Some len;
     fitness_cases := [({[ "x" := 2%Q ]}, 4%Q)] |}.

Definition single : Class := table 1 3 7 "+".
Definition triple : Class := table 3 1 3 "-".
Definition double : Class := table 2 1 3 "+".

(** A callable of three arguments, their sum, and six-gene chromosomes that
    it links. *)
Definition add3 (args : list value) : result value :=
  match args with
  | [VReal a; VReal b; VReal c] => Ok (VReal (a + b + c)%Q)
  | [_; _; _] => Ok VNaN
  | _ => Raise TypeError
  end.

Definition sixfold : Class :=
  {| functions := <[ "T" := {| fn_args := 3; fn_f := add3 |} ]> arithmetic;
     terminals := ["x"; "y"; "?"; "1"; "2"];
     constants := ∅;
     ephemeral_random_constants_range := Some ((-1)%Q, 1%Q);
     linking_function := Some "T";
     num_genes := 6;
     head_length := Some 1;
     length := Some 4;
     fitness_cases := [({[ "x" := 2%Q ]}, 4%Q)] |}.

(** *** An arithmetic to compute with

    Exact arithmetic on the rationals, with the infinities and not-a-number
    of floating point beside them: the arithmetic of Python's integers, and
    of its floating point numbers as long as nothing is rounded.  Numpy's
    tests accept the numbers from [-2 ** 63] up to [2 ** 64], the range of
    the integers that it has a type for. *)
Definition in_64_bits (q : Q) : bool :=
  Qle_bool (- 2 ^ 63) q && negb (Qle_bool (2 ^ 64) q).

Definition exact_add (a b : value) : result value :=
  match a, b with
  | VNone, _ | _, VNone => Raise TypeError
  | VComplex, _ | _, VComplex => Ok VComplex
  | VNaN, _ | _, VNaN => Ok VNaN
  | VReal x, VReal y => Ok (VReal (x + y)%Q)
  | VInf, VNegInf | VNegInf, VInf => Ok VNaN
  | VInf, _ | _, VInf => Ok VInf
  | VNegInf, _ | _, VNegInf => Ok VNegInf
  end.

Definition exact_sub (a b : value) : result value :=
  match a, b with
  | VNone, _ | _, VNone => Raise TypeError
  | VComplex, _ | _, VComplex => Ok VComplex
  | VNaN, _ | _, VNaN => Ok VNaN
  | VReal x, VReal y => Ok (VReal (x - y)%Q)
  | VInf, VInf | VNegInf, VNegInf => Ok VNaN
  | VInf, _ | _, VNegInf => Ok VInf
  | VNegInf, _ | _, VInf => Ok VNegInf
  end.

Definition exact_abs (a : value) : result value :=
  match a with
  | VNone => Raise TypeError
  | VReal x => Ok (VReal (Qabs x))
  | VInf | VNegInf => Ok VInf
  | VNaN | VComplex => Ok VNaN
  end.

Definition exact_square (a : value) : result value :=
  match a with
  | VNone => Raise TypeError
  | VReal x => Ok (VReal (x * x)%Q)
  | VInf | VNegInf => Ok VInf
  | VNaN => Ok VNaN
  | VComplex => Ok VComplex
  end.

Definition exact_truediv (a b : value) : result value :=
  match a, b with
  | VNone, _ | _, VNone => Raise TypeError
  | _, VReal y =>
      if Qeq_bool y 0 then Raise ZeroDivisionError
      else
        match a with
        | VReal x => Ok (VReal (x / y)%Q)
        | VInf => Ok (if Qle_bool 0 y then VInf else VNegInf)
        | VNegInf => Ok (if Qle_bool 0 y then VNegInf else VInf)
        | _ => Ok a
        end
  | VComplex, _ | _, VComplex => Ok VComplex
  | VReal _, (VInf | VNegInf) => Ok (VReal 0)
  | _, _ => Ok VNaN
  end.

Lemma exact_add_raises a b : exact_add a b ≠ Raise ZeroDivisionError.
Proof. by destruct a, b. Qed.

Lemma exact_sub_raises a b : exact_sub a b ≠ Raise ZeroDivisionError.
Proof. by destruct a, b. Qed.

Lemma exact_abs_raises a : exact_abs a ≠ Raise ZeroDivisionError.
Proof. by destruct a. Qed.

Lemma exact_square_raises a : exact_square a ≠ Raise ZeroDivisionError.
Proof. by destruct a. Qed.

Lemma exact_sub_real a b d :
  exact_sub (VReal a) (VReal b) = Ok d → real_or_infinite d.
Proof. by intros [= <-]. Qed.

Lemma exact_square_sign d s :
  real_or_infinite d → exact_square d = Ok s → not_negative s.
Proof.
  destruct d as [x| | | | |]; cbn; try done; intros _ [= <-]; cbn; [|done|done].
  destruct (Qlt_le_dec x 0); nra.
Qed.

Lemma exact_add_sign a b c :
  not_negative a → not_negative b → exact_add a b = Ok c → not_negative c.
Proof.
  destruct a as [x| | | | |], b as [y| | | | |]; cbn; try done;
    intros Ha Hb [= <-]; cbn; [lra|done..].
Qed.

Lemma exact_inverse s d :
  not_negative s → exact_add (VReal 1) s = Ok d →
  exact_truediv (VReal 1) d ≠ Raise ZeroDivisionError
  ∧ ∀ r, exact_truediv (VReal 1) d = Ok r → ∃ q, r = VReal q ∧ (0 <= q)%Q ∧ (q <= 1)%Q.
Proof.
  destruct s as [x| | | | |]; cbn; try done; intros Hs [= <-]; cbn.
  - destruct (Qeq_bool (1 + x) 0) eqn:Hz.
    { apply Qeq_bool_iff in Hz. lra. }
    split; [done|]. intros r [= <-]. eexists. split; [done|]. split.
    + apply Qle_shift_div_l; lra.
    + apply Qle_shift_div_r; lra.
  - split; [done|]. intros r [= <-]. exists 0%Q. split; [done|]. lra.
Qed.

Lemma exact_small (z w : Z) :
  (Z.abs z <= 2 ^ 52)%Z → (Z.abs w <= 2 ^ 52)%Z →
  exact_add (VReal (inject_Z z)) (VReal (inject_Z w)) = Ok (VReal (inject_Z (z + w)))
  ∧ exact_sub (VReal (inject_Z z)) (VReal (inject_Z w)) = Ok (VReal (inject_Z (z - w)))
  ∧ exact_abs (VReal (inject_Z z)) = Ok (VReal (inject_Z (Z.abs z)))
  ∧ in_64_bits (inject_Z z) = true.
Proof.
  intros Hz _. split_and!.
  - unfold exact_add, inject_Z, Qplus. cbn. by rewrite !Z.mul_1_r.
  - unfold exact_sub, inject_Z, Qminus, Qplus, Qopp. cbn. by rewrite !Z.mul_1_r.
  - done.
  - unfold in_64_bits. apply andb_true_iff. split.
    + apply Qle_bool_iff. unfold Qle. cbn. lia.
    + apply negb_true_iff, not_true_iff_false. intros H%Qle_bool_iff.
      unfold Qle in H. cbn in H. lia.
Qed.

Definition exact : Arithmetic :=
  {| py_add := exact_add;
     py_sub := exact_sub;
     py_abs := exact_abs;
     py_square := exact_square;
     py_truediv := exact_truediv;
     numpy_takes := in_64_bits;
     py_add_raises := exact_add_raises;
     py_sub_raises := exact_sub_raises;
     py_abs_raises := exact_abs_raises;
     py_square_raises := exact_square_raises;
     py_sub_real := exact_sub_real;
     py_square_sign := exact_square_sign;
     py_add_sign := exact_add_sign;
     py_inverse := exact_inverse;
     py_truediv_1_1 := eq_refl;
     py_add_1_inf := eq_refl;
     py_truediv_1_inf := eq_refl;
     py_small := exact_small |}.

(** [single] with the fitness case [({x: 2 ** 64}, 4)]. *)
Definition huge : Class :=
  {| functions := arithmetic;
     terminals := ["x"; "y"; "?"; "1"; "2"];
     constants := ∅;
     ephemeral_random_constants_range := Some ((-1)%Q, 1%Q);
     linking_function := Some "+";
     num_genes := 1;
     head_length := Some 3;
     length := Some 7;
     fitness_cases := [({[ "x" := (2 ^ 64)%Q ]}, 4%Q)] |}.

(** A sample that [np.random.uniform] may draw: the lower bound, each time. *)
Definition lowest (low high : Q) (size : nat) : list Q := replicate size low.

(** Another sample, of distinct numbers: 0, 1/8, 2/8 and so on. *)
Definition eighths (low high : Q) (size : nat) : list Q :=
  (λ i, Z.of_nat i # 8) <$> seq 0 size.

(** The chromosome that [Chromosome(genes)] builds on that sample. *)
Definition fresh (len : nat) (gs : list string) : chromosome :=
  {| genes := gs; trees := []; _values_ := []; _fitness_ := None;
     ephemeral_random_constants := lowest (-1) 1 len |}.

(** Two leaves, not yet linked. *)
Definition two_leaves : list Store.cell :=
  [ {| Store.cell_name := "x"; Store.cell_parent := None; Store.cell_children := [] |};
    {| Store.cell_name := "y"; Store.cell_parent := None; Store.cell_children := [] |} ].

(** The same leaves, linked once by ["+"]. *)
Definition linked_leaves : list Store.cell :=
  [ {| Store.cell_name := "x"; Store.cell_parent := Some 2; Store.cell_children := [] |};
    {| Store.cell_name := "y"; Store.cell_parent := Some 2; Store.cell_children := [] |};
    {| Store.cell_name := "+"; Store.cell_parent := None; Store.cell_children := [0; 1] |} ].

(** The names of [arithmetic], in the order of its definition. *)
Definition arithmetic_keys : list string := ["+"; "-"; "*"; "/"; "Q"; "R"].

(** A generator that draws 0, 1, 2 and so on. *)
Definition counting : supply := λ i, i.

(** [single], before any fitness case is given. *)
Definition untrained : Class :=
  {| functions := arithmetic;
     terminals := ["x"; "y"; "?"; "1"; "2"];
     constants := ∅;
     ephemeral_random_constants_range := Some ((-1)%Q, 1%Q);
     linking_function := Some "+";
     num_genes := 1;
     head_length := Some 3;
     length := Some 7;
     fitness_cases := [] |}.

End Examples.

Import Chromosome.

(** * Properties *)

(** ** The gene decoder *)

Section DecoderFacts.
Variable cls : Class.
Local Abbreviation args := (args cls).
Local Abbreviation level_args := (level_args cls).
Local Abbreviation assign := (assign cls).
Local Abbreviation forest := (forest cls).
Local Abbreviation trim := (trim cls).
Local Abbreviation enough := (enough cls).
Local Abbreviation nth_level := (nth_level cls).
Local Abbreviation used := (used cls).
Local Abbreviation levels_upto := (levels_upto cls).
Local Abbreviation go_on := (go_on cls).
Local Abbreviation names_at := (names_at cls).
Local Abbreviation filled := (filled cls).
Local Abbreviation grab_spec := (grab_spec cls).
Local Abbreviation grab_children_spec := (grab_children_spec cls).
Local Arguments Chromosome.level_args : simpl never.
Local Arguments Chromosome.args : simpl never.

Lemma level_args_app a b : level_args (a ++ b) = level_args a + level_args b.
Proof. apply sum_list_with_app. Qed.

Lemma level_args_cons c a : level_args (c :: a) = args (chr c) + level_args a.
Proof. reflexivity. Qed.

Lemma level_args_nil : level_args [] = 0.
Proof. reflexivity. Qed.

Lemma take_add {A} (l : list A) a b : take (a + b) l = take a l ++ take b (drop a l).
Proof.
  revert l; induction a as [|a IH]; intros [|x l]; simpl; try done.
  - by rewrite take_nil.
  - by rewrite IH.
Qed.

Lemma length_assign names fs : List.length (assign names fs) = List.length names.
Proof. revert fs; induction names as [|c names IH]; intros fs; simpl; [done|]. by rewrite IH. Qed.

Lemma length_forest ls names : List.length (forest ls names) = List.length names.
Proof. destruct ls; simpl; [by rewrite length_map | by rewrite length_assign]. Qed.

Lemma assign_app a b fa fb :
  List.length fa = level_args a →
  assign (a ++ b) (fa ++ fb) = assign a fa ++ assign b fb.
Proof.
  revert fa; induction a as [|c a IH]; intros fa Hlen; simpl.
  - by destruct fa.
  - rewrite level_args_cons in Hlen.
    rewrite take_app_le, drop_app_le by lia.
    rewrite IH; [done|]. rewrite length_drop. lia.
Qed.

Lemma trim_app a b ls : trim (a ++ b) ls = trim b (trim a ls).
Proof.
  revert a b; induction ls as [|l ls IH]; intros a b; simpl; [done|].
  rewrite level_args_app, drop_drop. f_equal.
  by rewrite take_add, IH.
Qed.

Lemma enough_app a b ls :
  enough (a ++ b) ls = enough a ls && enough b (trim a ls).
Proof.
  revert a b; induction ls as [|l ls IH]; intros a b; simpl; [done|].
  rewrite level_args_app, take_add, IH, length_drop.
  destruct (enough (take (level_args a) l) ls), (enough _ (trim _ ls));
    repeat case_bool_decide; simpl; try done; lia.
Qed.

Lemma forest_app a b ls :
  enough a ls →
  forest ls (a ++ b) = forest ls a ++ forest (trim a ls) b.
Proof.
  revert a b; induction ls as [|l ls IH]; intros a b; simpl.
  - intros _. by rewrite map_app.
  - intros [Hlen Hen]%andb_prop_elim. apply bool_decide_unpack in Hlen.
    rewrite level_args_app, take_add, IH by done.
    apply assign_app. rewrite length_forest, length_take. lia.
Qed.

Lemma enough_nil ls : enough [] ls = true.
Proof. induction ls as [|l ls IH]; simpl; [done|]. by rewrite take_0, IH. Qed.

Lemma forest_nil ls : forest ls [] = [].
Proof. by destruct ls. Qed.

Lemma trim_nil ls : trim [] ls = ls.
Proof. induction ls as [|l ls IH]; simpl; [done|]. by rewrite take_0, IH. Qed.

Lemma level_args_single c : level_args [c] = args (chr c).
Proof. rewrite level_args_cons, level_args_nil. lia. Qed.

Lemma forest_single c l ls :
  enough [c] (l :: ls) →
  forest (l :: ls) [c] = [mkNode (chr c) (forest ls (take (args (chr c)) l))].
Proof.
  simpl. rewrite level_args_single.
  intros [Hlen _]%andb_prop_elim. apply bool_decide_unpack in Hlen.
  rewrite take_ge; [done|]. rewrite length_forest, length_take. lia.
Qed.

Lemma length_trim names ls : List.length (trim names ls) = List.length ls.
Proof.
  revert names; induction ls as [|l ls IH]; intros names; simpl; [done|].
  by rewrite IH.
Qed.

Lemma grab_loop_spec rec pre l m :
  (∀ c ls, List.length ls = m →
     rec (chr c) (S (List.length pre)) ((pre ++ [l]) ++ ls)
     = grab_children_spec (chr c) (pre ++ [l]) ls) →
  ∀ n i ls, List.length ls = m → i ≤ List.length l →
    grab_loop cls rec (List.length pre) n i (pre ++ l :: ls) = grab_spec pre l ls i n.
Proof.
  intros Hrec. induction n as [|n IH]; intros i ls Hm Hi; simpl.
  - unfold grab_spec. rewrite take_0, enough_nil, forest_nil, trim_nil.
    rewrite bool_decide_true by lia. done.
  - rewrite lookup_app_r, Nat.sub_diag by lia. simpl.
    destruct (l !! i) as [c|] eqn:Hc; simpl.
    2:{ apply lookup_ge_None in Hc. unfold grab_spec.
        rewrite bool_decide_false by lia. done. }
    assert (i < List.length l) as Hlt by (by eapply lookup_lt_Some).
    assert (take (S n) (drop i l) = [c] ++ take n (drop (S i) l)) as Htake.
    { by rewrite (drop_S _ _ _ Hc). }
    rewrite (cons_middle l pre ls), (assoc_L (++)), Hrec by done.
    unfold grab_spec. rewrite Htake, enough_app, trim_app.
    rewrite (bool_decide_ext (i + S n ≤ List.length l) (S i + n ≤ List.length l)) by lia.
    destruct ls as [|l' ls']; cbn [grab_children_spec bind].
    + rewrite app_nil_r, length_app. cbn [List.length].
      replace (List.length pre <? List.length pre + 1 - 1) with false
        by (symmetry; apply Nat.ltb_ge; lia).
      rewrite IH by (done || lia).
      unfold grab_spec. cbn [enough forest trim andb].
      rewrite andb_true_r.
      case_bool_decide; done.
    + assert (trim [c] (l' :: ls')
              = drop (args (chr c)) l' :: trim (take (args (chr c)) l') ls') as Ht.
      { cbn [Chromosome.trim]. by rewrite level_args_single. }
      assert (enough [c] (l' :: ls')
              = bool_decide (args (chr c) ≤ List.length l')
                && enough (take (args (chr c)) l') ls') as He.
      { cbn [Chromosome.enough]. by rewrite level_args_single. }
      unfold grab_spec at 1. rewrite Nat.add_0_l, drop_0, <-He.
      destruct (enough [c] (l' :: ls')) eqn:Hen; cbn [bind andb].
      2:{ by rewrite andb_false_r. }
      match goal with |- context [grab_loop _ _ _ _ _ ?st] =>
        assert (st = pre ++ l :: trim [c] (l' :: ls')) as ->
      end.
      { rewrite !length_app. cbn [List.length].
        replace (List.length pre <? _) with true
          by (symmetry; apply Nat.ltb_lt; lia).
        rewrite list_lookup_middle by (rewrite length_app; cbn; lia).
        cbn [default]. rewrite Ht, <-(assoc_L (++)). cbn [app].
        replace (S (List.length pre)) with (List.length pre + 1) by lia.
        rewrite insert_app_r. cbn. done. }
      rewrite IH by (by rewrite ?length_trim || lia). unfold grab_spec.
      rewrite forest_app, forest_single by (by rewrite Hen).
      clear He. destruct (bool_decide _ && _); reflexivity.
Qed.

Lemma grab_children_ok fuel p pre ls :
  List.length ls ≤ fuel →
  grab_children cls fuel p (List.length pre) (pre ++ ls) = grab_children_spec p pre ls.
Proof.
  revert p pre ls. induction fuel as [|fuel IH]; intros p pre ls Hfuel.
  - destruct ls; [|simpl in Hfuel; lia]. simpl.
    rewrite app_nil_r, Nat.ltb_irrefl. done.
  - destruct ls as [|l ls].
    + simpl. rewrite app_nil_r, Nat.ltb_irrefl. done.
    + cbn [grab_children grab_children_spec].
      replace (List.length pre <? _) with true
        by (symmetry; apply Nat.ltb_lt; rewrite length_app; simpl; lia).
      apply (grab_loop_spec _ _ _ (List.length ls)); [|done|lia].
      intros c ls' Hls'.
      replace (S (List.length pre)) with (List.length (pre ++ [l]))
        by (rewrite length_app; simpl; lia).
      apply IH. simpl in Hfuel. lia.
Qed.

Lemma nth_level_S gene k : nth_level gene (S k) = take (level_args (nth_level gene k)) (drop (used gene k) gene).
Proof. unfold nth_level, used. simpl. by destruct (gene_level cls gene k). Qed.

Lemma used_S gene k : used gene (S k) = used gene k + level_args (nth_level gene k).
Proof. unfold nth_level, used. simpl. by destruct (gene_level cls gene k). Qed.

Lemma used_pos gene k : 1 ≤ used gene k.
Proof. induction k as [|k IH]; [done|]. rewrite used_S. lia. Qed.

Lemma levels_upto_S gene m :
  levels_upto gene (S m) = levels_upto gene m ++ [nth_level gene (S m)].
Proof. unfold levels_upto. by rewrite (seq_S (S m)), map_app. Qed.

Lemma last_levels_upto gene m : last (levels_upto gene m) = Some (nth_level gene m).
Proof.
  unfold levels_upto. rewrite seq_S, map_app. simpl. by rewrite last_snoc.
Qed.

Lemma build_levels_spec gene fuel m :
  List.length gene < fuel + used gene m →
  ∃ m', m ≤ m' ∧
    build_levels cls fuel gene (levels_upto gene m) (used gene m - 1)
      = levels_upto gene m' ∧
    go_on gene m' = false.
Proof.
  revert m. induction fuel as [|fuel IH]; intros m Hfuel.
  - exists m. split; [done|]. split; [done|].
    unfold go_on. rewrite bool_decide_false; [done|].
    pose proof (used_pos gene m). lia.
  - cbn [build_levels]. rewrite last_levels_upto.
    unfold default. cbn [from_option id]. fold (go_on gene m).
    destruct (go_on gene m) eqn:Hgo; [|exists m; auto].
    unfold slice.
    pose proof (used_pos gene m) as Hpos.
    replace (used gene m - 1 + 1) with (used gene m) by lia.
    replace (_ + _ - _) with (level_args (nth_level gene m)) by lia.
    destruct (IH (S m)) as (m' & Hm' & Heq & Hstop).
    { rewrite used_S.
      apply andb_prop in Hgo as [_ Hne]. apply negb_true_iff, Nat.eqb_neq in Hne. lia. }
    exists m'. split; [lia|]. split; [|done].
    rewrite <-Heq, levels_upto_S, nth_level_S, used_S. f_equal. lia.
Qed.

Lemma level_nodes_nil k : level_nodes k [] = [].
Proof. induction k as [|k IH]; simpl; done. Qed.

Lemma concat_children_assign names fs :
  concat (map children (assign names fs)) = take (level_args names) fs.
Proof.
  revert fs. induction names as [|c names IH]; intros fs; simpl.
  - by rewrite level_args_nil, take_0.
  - by rewrite IH, level_args_cons, take_add.
Qed.

Lemma concat_children_leaves (names : list ascii) :
  concat (map children (map (λ c, mkNode (chr c) []) names)) = [].
Proof. induction names as [|c names IH]; simpl; done. Qed.

Lemma names_assign names fs : map name (assign names fs) = map chr names.
Proof.
  revert fs. induction names as [|c names IH]; intros fs; simpl; [done|].
  by rewrite IH.
Qed.

Lemma names_forest ls names : map name (forest ls names) = map chr names.
Proof.
  destruct ls; simpl; [|apply names_assign].
  rewrite map_map. done.
Qed.

Lemma assign_lookup names fs j nd :
  assign names fs !! j = Some nd →
  ∃ c, names !! j = Some c ∧
       nd = mkNode (chr c)
              (take (args (chr c)) (drop (level_args (take j names)) fs)).
Proof.
  revert fs j. induction names as [|c0 names IH]; intros fs j; simpl; [done|].
  destruct j as [|j]; simpl.
  - intros [= <-]. exists c0. by rewrite level_args_nil, drop_0.
  - intros (c & Hc & ->)%IH. exists c. split; [done|].
    by rewrite level_args_cons, drop_drop.
Qed.

Lemma level_nodes_forest k ls names :
  enough names ls →
  level_nodes k (forest ls names) = forest (drop k ls) (names_at ls names k)
  ∧ enough (names_at ls names k) (drop k ls).
Proof.
  revert ls names. induction k as [|k IH]; intros ls names Hen.
  - rewrite drop_0. simpl. split; [reflexivity | exact Hen].
  - destruct ls as [|l ls]; cbn [level_nodes forest names_at].
    + rewrite concat_children_leaves, level_nodes_nil. done.
    + cbn [enough] in Hen. apply andb_prop_elim in Hen as [Hlen Hen].
      apply bool_decide_unpack in Hlen.
      rewrite concat_children_assign, take_ge
        by (rewrite length_forest, length_take; lia).
      rewrite skipn_cons. by apply IH.
Qed.

Lemma level_args_take_le j names : level_args (take j names) ≤ level_args names.
Proof.
  rewrite <-(take_drop j names) at 2. rewrite level_args_app. lia.
Qed.

Lemma level_args_zero names c :
  level_args names = 0 → c ∈ names → args (chr c) = 0.
Proof.
  intros Hz Hc. pose proof (sum_list_with_in c (λ c, args (chr c)) names Hc) as Hle.
  unfold Chromosome.level_args in Hz. simpl in Hle. lia.
Qed.

(** *** The levels of the gene are the levels of the tree *)

Lemma levels_upto_cons g m : levels_upto g m = nth_level g 0 :: map (nth_level g) (seq 1 m).
Proof. reflexivity. Qed.

Lemma gene_level_take g a : take (level_args (nth_level g a)) (nth_level g (S a)) = nth_level g (S a).
Proof. rewrite nth_level_S, take_take. f_equal. lia. Qed.

Lemma names_at_levels g n a k :
  k ≤ n → names_at (map (nth_level g) (seq (S a) n)) (nth_level g a) k = nth_level g (a + k).
Proof.
  revert a k. induction n as [|n IH]; intros a [|k] Hk; try lia.
  - by rewrite Nat.add_0_r.
  - by rewrite Nat.add_0_r.
  - cbn [seq map names_at]. rewrite gene_level_take, IH by lia. f_equal. lia.
Qed.

Lemma names_at_beyond ls names k : List.length ls < k → names_at ls names k = [].
Proof.
  revert ls names. induction k as [|k IH]; intros [|l ls] names Hk; simpl in *;
    try done; try lia.
  apply IH. lia.
Qed.

Lemma enough_levels_used g n a :
  enough (nth_level g a) (map (nth_level g) (seq (S a) n)) →
  used g a ≤ List.length g → used g (a + n) ≤ List.length g.
Proof.
  revert a. induction n as [|n IH]; intros a Hen Ha.
  - by rewrite Nat.add_0_r.
  - cbn [seq map enough] in Hen. apply andb_prop_elim in Hen as [Hlen Hen].
    apply bool_decide_unpack in Hlen. rewrite gene_level_take in Hen.
    replace (a + S n) with (S a + n) by lia. apply IH; [done|].
    rewrite nth_level_S in Hlen. rewrite used_S.
    rewrite length_take, length_drop in Hlen. lia.
Qed.

Lemma gene_level_beyond g m k :
  level_args (nth_level g m) = 0 → m < k → nth_level g k = [].
Proof.
  intros Hz. induction k as [|k IH]; intros Hk; [lia|].
  rewrite nth_level_S.
  destruct (decide (k = m)) as [->|]; [by rewrite Hz|].
  rewrite IH by lia. done.
Qed.

Lemma length_nth_level_le g k : List.length (nth_level g (S k)) ≤ level_args (nth_level g k).
Proof. rewrite nth_level_S, length_take. lia. Qed.

Lemma filled_enough g a n : filled g → enough (nth_level g a) (map (nth_level g) (seq (S a) n)) = true.
Proof.
  intros Hf. revert a. induction n as [|n IH]; intros a; [done|].
  cbn [seq map Chromosome.enough]. rewrite gene_level_take, IH.
  rewrite bool_decide_true; [done|]. rewrite Hf. done.
Qed.

Lemma enough_filled_upto g n a j :
  enough (nth_level g a) (map (nth_level g) (seq (S a) n)) → j < n →
  List.length (nth_level g (S (a + j))) = level_args (nth_level g (a + j)).
Proof.
  revert a j. induction n as [|n IH]; intros a j Hen Hj; [lia|].
  cbn [seq map Chromosome.enough] in Hen. apply andb_prop_elim in Hen as [Hlen Hen].
  apply bool_decide_unpack in Hlen. rewrite gene_level_take in Hen.
  destruct j as [|j].
  - rewrite Nat.add_0_r. pose proof (length_nth_level_le g a). lia.
  - replace (a + S j) with (S a + j) by lia. apply IH; [done|lia].
Qed.

Lemma enough_stop g g0 g' m :
  g = g0 :: g' → go_on g m = false →
  enough (nth_level g 0) (map (nth_level g) (seq 1 m)) →
  level_args (nth_level g m) = 0.
Proof.
  intros -> Hstop Hen.
  pose proof (enough_levels_used _ _ 0 Hen) as Hu. cbn [Nat.add] in Hu.
  unfold go_on in Hstop. apply andb_false_iff in Hstop as [Hstop|Hstop].
  - apply bool_decide_eq_false in Hstop.
    pose proof (used_pos (g0 :: g') m). 
    assert (used (g0 :: g') 0 ≤ List.length (g0 :: g')) by (cbn; lia).
    specialize (Hu ltac:(done)). lia.
  - by apply negb_false_iff, Nat.eqb_eq in Hstop.
Qed.

Lemma enough_iff_filled g g0 g' m :
  g = g0 :: g' → go_on g m = false →
  enough (nth_level g 0) (map (nth_level g) (seq 1 m)) ↔ filled g.
Proof.
  intros Hg Hstop. split.
  - intros Hen k. destruct (decide (k < m)) as [Hk|Hk].
    + apply (enough_filled_upto g m 0 k Hen Hk).
    + pose proof (enough_stop g g0 g' m Hg Hstop Hen) as Hz.
      rewrite (gene_level_beyond g m (S k)) by (done || lia).
      destruct (decide (k = m)) as [->|]; [by rewrite Hz|].
      rewrite (gene_level_beyond g m k) by (done || lia). done.
  - intros Hf. by rewrite filled_enough.
Qed.

Lemma build_tree_char gene g0 g' :
  list_ascii_of_string gene = g0 :: g' →
  ∃ m, go_on (g0 :: g') m = false ∧
    build_tree cls gene =
      if enough (nth_level (g0 :: g') 0) (map (nth_level (g0 :: g')) (seq 1 m))
      then Ok (mkNode (chr g0)
                 (concat (map children
                    (forest (map (nth_level (g0 :: g')) (seq 1 m)) (nth_level (g0 :: g') 0)))))
      else Raise IndexError.
Proof.
  intros Hg. unfold build_tree. rewrite Hg. set (g := g0 :: g').
  destruct (build_levels_spec g (S (List.length g)) 0) as (m & _ & Hlv & Hstop).
  { unfold used. simpl. lia. }
  exists m. split; [done|].
  change (levels_upto g 0) with [[g0]] in Hlv.
  change (used g 0 - 1) with 0 in Hlv. cbv zeta. rewrite Hlv, levels_upto_cons.
  set (ls := map (nth_level g) (seq 1 m)).
  change (nth_level g 0 :: ls) with ([nth_level g 0] ++ ls).
  change 1 with (List.length [nth_level g 0]) at 1.
  rewrite grab_children_ok by (rewrite length_app; lia).
  change (nth_level g 0) with [g0].
  destruct ls as [|l ls']; cbn [grab_children_spec bind].
  - reflexivity.
  - unfold grab_spec. rewrite Nat.add_0_l, drop_0.
    cbn [Chromosome.enough Chromosome.forest]. rewrite level_args_single.
    destruct (bool_decide _ && _) eqn:Hen; cbn [bind]. 2:{ reflexivity. }
    apply andb_prop in Hen as [Hlen _]. apply bool_decide_eq_true in Hlen.
    rewrite concat_children_assign, level_args_single, (take_ge (forest _ _)); [done|].
    rewrite length_forest, length_take. lia.
Qed.

Lemma forest_root ls c :
  forest ls [c] = [mkNode (chr c) (concat (map children (forest ls [c])))].
Proof.
  destruct ls as [|l ls]; cbn; by rewrite ?app_nil_r.
Qed.

Lemma drop_levels (f : nat → list ascii) m k :
  k < m → drop k (map f (seq 1 m)) = f (S k) :: drop (S k) (map f (seq 1 m)).
Proof.
  intros Hk. apply drop_S.
  rewrite list_lookup_fmap, lookup_seq_lt by done. done.
Qed.

Lemma names_at_all g m k :
  level_args (nth_level g m) = 0 → names_at (map (nth_level g) (seq 1 m)) (nth_level g 0) k = nth_level g k.
Proof.
  intros Hz. destruct (decide (k ≤ m)) as [Hk|Hk].
  - by rewrite names_at_levels.
  - rewrite names_at_beyond by (rewrite length_map, length_seq; lia).
    symmetry. apply (gene_level_beyond g m); [done|lia].
Qed.

(** What a successful decoding looks like, level by level. *)
Lemma build_tree_Ok_inv gene t :
  build_tree cls gene = Ok t →
  ∃ g0 g' m, list_ascii_of_string gene = g0 :: g' ∧
    let g := g0 :: g' in
    level_args (nth_level g m) = 0 ∧
    enough (nth_level g 0) (map (nth_level g) (seq 1 m)) ∧
    [t] = forest (map (nth_level g) (seq 1 m)) (nth_level g 0).
Proof.
  intros Ht. destruct (list_ascii_of_string gene) as [|g0 g'] eqn:Hg.
  { unfold build_tree in Ht. by rewrite Hg in Ht. }
  destruct (build_tree_char gene g0 g' Hg) as (m & Hstop & Heq).
  rewrite Ht in Heq.
  destruct (enough _ _) eqn:Hen; [|done].
  exists g0, g', m. split; [done|]. cbv zeta.
  assert (Is_true (enough (nth_level (g0 :: g') 0) (map (nth_level (g0 :: g')) (seq 1 m)))) as Hen'
    by (by rewrite Hen).
  split; [by eapply enough_stop|]. split; [done|].
  injection Heq as ->. symmetry. apply (forest_root _ g0).
Qed.

Lemma build_tree_level_nodes gene t k :
  build_tree cls gene = Ok t →
  ∃ g0 g' m, list_ascii_of_string gene = g0 :: g' ∧
    let g := g0 :: g' in
    level_args (nth_level g m) = 0 ∧
    enough (nth_level g 0) (map (nth_level g) (seq 1 m)) ∧
    level_nodes k [t] = forest (drop k (map (nth_level g) (seq 1 m))) (nth_level g k).
Proof.
  intros (g0 & g' & m & Hg & Hz & Hen & Ht)%build_tree_Ok_inv.
  exists g0, g', m. cbv zeta in *. repeat split; try done.
  rewrite Ht. destruct (level_nodes_forest k _ _ Hen) as [-> _].
  by rewrite names_at_all.
Qed.

Lemma build_tree_shape gene t :
  build_tree cls gene = Ok t →
  let g := list_ascii_of_string gene in
  Some (name t) = chr <$> head g ∧
  (∀ k, map name (level_nodes k [t]) = map chr (nth_level g k)) ∧
  (∀ k j nd, level_nodes k [t] !! j = Some nd →
     List.length (children nd) = args (name nd) ∧
     map name (children nd)
     = map chr (take (args (name nd))
                  (drop (level_args (take j (nth_level g k))) (nth_level g (S k))))).
Proof.
  intros Ht. cbv zeta. split; [|split].
  - destruct (build_tree_level_nodes gene t 0 Ht) as (g0 & g' & m & -> & _ & _ & Hl).
    cbn in Hl. rewrite drop_0 in Hl.
    pose proof (f_equal (map name) Hl) as Hn. rewrite names_forest in Hn.
    cbn in Hn. by injection Hn as ->.
  - intros k.
    destruct (build_tree_level_nodes gene t k Ht) as (g0 & g' & m & -> & _ & _ & ->).
    apply names_forest.
  - intros k j nd Hnd.
    destruct (build_tree_level_nodes gene t k Ht)
      as (g0 & g' & m & -> & Hz & Hen & Hl).
    cbv zeta in *. set (g := g0 :: g') in *. rewrite Hl in Hnd. clear Hl.
    destruct (decide (k < m)) as [Hk|Hk].
    + rewrite drop_levels in Hnd by done. cbn [Chromosome.forest] in Hnd.
      rewrite gene_level_take in Hnd.
      apply assign_lookup in Hnd as (c & Hc & ->). cbn [name children].
      pose proof (enough_filled_upto g m 0 k Hen Hk) as Hfill. cbn [Nat.add] in Hfill.
      pose proof (level_args_take_le (S j) (nth_level g k)) as Hle.
      rewrite (take_S_r _ _ _ Hc), level_args_app, level_args_single in Hle.
      split.
      * rewrite length_take, length_drop, length_forest. lia.
      * by rewrite <-!firstn_map, <-!skipn_map, names_forest.
    + rewrite drop_ge in Hnd by (rewrite length_map, length_seq; lia).
      cbn [Chromosome.forest] in Hnd.
      rewrite list_lookup_fmap in Hnd.
      destruct (nth_level g k !! j) as [c|] eqn:Hc; [|done].
      injection Hnd as <-. cbn [name children List.length map].
      assert (level_args (nth_level g k) = 0) as Hz'.
      { destruct (decide (k = m)) as [->|]; [done|].
        rewrite (gene_level_beyond g m k) by (done || lia). done. }
      rewrite (level_args_zero (nth_level g k) c Hz') by (by eapply list_elem_of_lookup_2).
      done.
Qed.

Lemma build_tree_filled gene g0 g' :
  list_ascii_of_string gene = g0 :: g' →
  filled (g0 :: g') →
  ∃ kids, build_tree cls gene = Ok (mkNode (chr g0) kids).
Proof.
  intros Hg Hf. destruct (build_tree_char gene g0 g' Hg) as (m & Hstop & ->).
  rewrite filled_enough by done. eauto.
Qed.

Lemma build_tree_unfilled gene g0 g' :
  list_ascii_of_string gene = g0 :: g' →
  ¬ filled (g0 :: g') →
  build_tree cls gene = Raise IndexError.
Proof.
  intros Hg Hf. destruct (build_tree_char gene g0 g' Hg) as (m & Hstop & ->).
  destruct (Chromosome.enough _ _ _) eqn:Hen; [|done].
  destruct Hf. eapply enough_iff_filled; [done|done|]. by rewrite Hen.
Qed.

Lemma build_tree_empty gene :
  list_ascii_of_string gene = [] → build_tree cls gene = Raise IndexError.
Proof. intros Hg. unfold build_tree. by rewrite Hg. Qed.

Lemma build_tree_plus_ab :
  args "+" = 2 → args "a" = 0 → args "b" = 0 →
  build_tree cls "+ab" = Ok (mkNode "+" [mkNode "a" []; mkNode "b" []]).
Proof.
  intros Hp Ha Hb. unfold build_tree. cbn [list_ascii_of_string List.length].
  assert (Chromosome.level_args cls ["+"%char] = 2) as Hl0.
  { unfold Chromosome.level_args, chr. cbn. rewrite Hp. done. }
  assert (Chromosome.level_args cls ["a"%char; "b"%char] = 0) as Hl1.
  { unfold Chromosome.level_args, chr. cbn. rewrite Ha, Hb. done. }
  cbn [build_levels last default from_option id]. rewrite Hl0.
  rewrite bool_decide_true by (cbn; lia). cbn. rewrite Hl1.
  rewrite bool_decide_true by (cbn; lia). cbn. unfold chr. rewrite Hp. cbn. unfold chr.
  reflexivity.
Qed.

Lemma level_args_bound n names :
  (∀ c, args (chr c) ≤ n) → level_args names ≤ List.length names * n.
Proof.
  intros Hn. induction names as [|c names IH]; [done|].
  rewrite level_args_cons. cbn [List.length Nat.mul]. specialize (Hn c). lia.
Qed.

Lemma level_args_terminals names :
  Forall (λ c, args (chr c) = 0) names → level_args names = 0.
Proof.
  induction 1 as [|c names Hc _ IH]; [done|].
  rewrite level_args_cons. lia.
Qed.

Lemma used_prefix g k :
  used g k ≤ List.length g →
  used g (S k) = 1 + level_args (take (used g k) g).
Proof.
  induction k as [|k IH]; intros Hk.
  - rewrite used_S. unfold Chromosome.used, Chromosome.nth_level. cbn. lia.
  - rewrite used_S in Hk. pose proof (IH ltac:(lia)) as IH'.
    assert (take (used g (S k)) g = take (used g k) g ++ nth_level g (S k)) as ->.
    { by rewrite used_S, take_add, nth_level_S. }
    rewrite (used_S _ (S k)), level_args_app. lia.
Qed.

(** A head of any symbols followed by a long enough tail of terminals: the
    shape that Gene Expression Programming gives its genes. *)
Lemma head_tail_filled head tail n :
  (∀ c, args (chr c) ≤ n) →
  Forall (λ c, args (chr c) = 0) tail →
  List.length head * (n - 1) + 1 ≤ List.length tail →
  filled (head ++ tail).
Proof.
  intros Hn Htail Hlen. set (g := head ++ tail).
  assert (level_args g + 1 ≤ List.length g) as Hg.
  { unfold g. rewrite level_args_app, (level_args_terminals tail), length_app by done.
    pose proof (level_args_bound n head Hn) as Hb.
    destruct n as [|n]; [lia|].
    rewrite Nat.mul_succ_r in Hb. replace (S n - 1) with n in Hlen by lia. lia. }
  assert (∀ k, used g k ≤ List.length g) as Hused.
  { intros k. induction k as [|k IH]; [cbn; lia|].
    rewrite used_prefix by done.
    pose proof (level_args_take_le (used g k) g). lia. }
  intros k. specialize (Hused (S k)). rewrite used_S in Hused.
  rewrite nth_level_S, length_take, length_drop. lia.
Qed.

(** C10 (amended).  The empty gene fails with [IndexError].  A non-empty gene
    decodes exactly when every level the decoder forms is filled, as it is
    for every gene made of a head and a long enough tail of terminals; the
    root of the tree is then the first character of the gene.  A non-empty
    gene with a level left short fails with [IndexError] too. *)
Theorem build_tree_nonempty gene :
  match list_ascii_of_string gene with
  | [] => build_tree cls gene = Raise IndexError
  | g0 :: g' =>
      (∀ t, build_tree cls gene = Ok t → name t = chr g0) ∧
      (filled (g0 :: g') → ∃ kids, build_tree cls gene = Ok (mkNode (chr g0) kids)) ∧
      (¬ filled (g0 :: g') → build_tree cls gene = Raise IndexError) ∧
      (∀ head tail n,
         g0 :: g' = head ++ tail →
         (∀ c, args (chr c) ≤ n) →
         Forall (λ c, args (chr c) = 0) tail →
         List.length head * (n - 1) + 1 ≤ List.length tail →
         ∃ kids, build_tree cls gene = Ok (mkNode (chr g0) kids))
  end.
Proof.
  destruct (list_ascii_of_string gene) as [|g0 g'] eqn:Hg.
  { by apply build_tree_empty. }
  split; [|split; [|split]].
  - intros t Ht. destruct (build_tree_shape gene t Ht) as [Hroot _].
    rewrite Hg in Hroot. by injection Hroot.
  - by apply (build_tree_filled gene g0 g').
  - by apply (build_tree_unfilled gene g0 g').
  - intros head tail n Heq Hn Htail Hlen.
    apply (build_tree_filled gene g0 g'); [done|]. rewrite Heq. by eapply head_tail_filled.
Qed.

(** C1.  Decoding follows the breadth-first, arity-driven rule, the arity
    of a symbol being the number of arguments that [functions] registers for
    it, and 0 for a symbol that [functions] does not hold.  A gene whose
    levels are all filled decodes to a tree; the root of a decoded tree is
    the first character of the gene; the nodes at depth [k] are the symbols
    of level [k], left to right; and the [j]-th of them has as many children
    as its registered arity, named by the next symbols of level [k + 1] that
    the nodes to its left have not taken.  In particular ["+ab"] decodes to
    ["+"] over the leaves ["a"] and ["b"], when ["+"] is registered with two
    arguments and ["a"], ["b"] are no functions. *)
Theorem build_tree_breadth_first gene :
  let g := list_ascii_of_string gene in
  (∀ f, args f = match functions cls !! f with
                 | Some e => fn_args e
                 | None => 0
                 end) ∧
  (g ≠ [] → filled g → is_Ok (build_tree cls gene)) ∧
  (∀ t, build_tree cls gene = Ok t →
     Some (name t) = chr <$> head g ∧
     (∀ k, map name (level_nodes k [t]) = map chr (nth_level g k)) ∧
     (∀ k j nd, level_nodes k [t] !! j = Some nd →
        match functions cls !! name nd with
        | Some e => List.length (children nd) = fn_args e
        | None => children nd = []
        end ∧
        map name (children nd)
        = map chr (take (List.length (children nd))
                     (drop (level_args (take j (nth_level g k)))
                        (nth_level g (S k)))))) ∧
  (∀ e, functions cls !! "+" = Some e → fn_args e = 2 →
        functions cls !! "a" = None → functions cls !! "b" = None →
        build_tree cls "+ab" = Ok (mkNode "+" [mkNode "a" []; mkNode "b" []])).
Proof.
  cbv zeta. split; [done|]. split; [|split].
  - intros Hne Hf. destruct (list_ascii_of_string gene) as [|g0 g'] eqn:Hg; [done|].
    destruct (build_tree_filled gene g0 g' Hg Hf) as [kids ->]. by eexists.
  - intros t Ht. destruct (build_tree_shape gene t Ht) as (Hroot & Hlevels & Hkids).
    split; [done|]. split; [done|]. intros k j nd Hnd.
    destruct (Hkids k j nd Hnd) as [Hlen Hnames]. split; [|by rewrite Hlen].
    unfold Chromosome.args in Hlen.
    destruct (functions cls !! name nd); [done|]. by destruct (children nd).
  - intros e He He2 Ha Hb. apply build_tree_plus_ab; unfold Chromosome.args.
    + by rewrite He.
    + by rewrite Ha.
    + by rewrite Hb.
Qed.

End DecoderFacts.

(** ** The tree linker *)

Section LinkerFacts.
Variable symbol : string.
Variable nargs : nat.

Lemma link_recursive_exact depth args :
  List.length args = nargs →
  link_recursive (S depth) symbol nargs args = Ok (mkNode symbol args).
Proof. intros Hlen. cbn. by rewrite (proj2 (Nat.eqb_eq _ _) Hlen). Qed.

Lemma link_recursive_more depth args :
  nargs < List.length args →
  link_recursive (S depth) symbol nargs args
  = link_recursive depth symbol nargs (mkNode symbol (take nargs args) :: drop nargs args).
Proof.
  intros Hlen. cbn [link_recursive].
  rewrite (proj2 (Nat.eqb_neq _ _)) by lia.
  destruct depth as [|depth]; [done|].
  rewrite link_recursive_exact by (rewrite length_take; lia). done.
Qed.

Lemma link_recursive_chain j : ∀ depth args,
  2 ≤ nargs → List.length args = nargs + j * (nargs - 1) → j ≤ depth →
  link_recursive (S depth) symbol nargs args = Ok (chain j symbol nargs args).
Proof.
  induction j as [|j IH]; intros depth args Hn Hlen Hd.
  - apply link_recursive_exact. lia.
  - destruct depth as [|depth]; [lia|].
    rewrite link_recursive_more by lia.
    apply IH; [done| |lia].
    cbn [List.length]. rewrite length_drop. lia.
Qed.

Lemma linkable_step n :
  nargs < n → ¬ linkable nargs n → ¬ linkable nargs (S (n - nargs)).
Proof.
  intros Hn Hnot (j & Hj & Hcase). apply Hnot.
  destruct Hcase as [->|Hk].
  - exists 1. split; [lia|]. right. lia.
  - exists (S j). split; [lia|]. by right.
Qed.

Lemma link_recursive_diverges depth : ∀ args,
  ¬ linkable nargs (List.length args) →
  link_recursive depth symbol nargs args = Raise RecursionError.
Proof.
  induction depth as [|depth IH]; intros args Hnot; [done|].
  cbn [link_recursive].
  destruct (List.length args =? nargs) eqn:Heq.
  { apply Nat.eqb_eq in Heq. destruct Hnot. exists 0. split; [lia|]. by left. }
  apply Nat.eqb_neq in Heq.
  destruct (decide (List.length args < nargs)) as [Hlt|Hge].
  - rewrite take_ge by lia. rewrite IH by done. done.
  - destruct depth as [|depth]; [done|].
    rewrite link_recursive_exact by (rewrite length_take; lia). cbn [bind].
    apply IH. cbn [List.length]. rewrite length_drop.
    apply linkable_step; [lia|done].
Qed.

(** The last round of linking: its root is over the combination made so
    far, followed by the trees that were left. *)
Lemma chain_outer j : ∀ args,
  1 ≤ nargs →
  chain (S j) symbol nargs args
  = mkNode symbol (chain j symbol nargs (take (nargs + j * (nargs - 1)) args)
                     :: drop (nargs + j * (nargs - 1)) args).
Proof.
  induction j as [|j IH]; intros args Hn.
  - cbn [chain Nat.mul]. by rewrite Nat.add_0_r.
  - change (chain (S (S j)) symbol nargs args)
      with (chain (S j) symbol nargs (mkNode symbol (take nargs args) :: drop nargs args)).
    rewrite IH by done. f_equal.
    set (m := nargs + j * (nargs - 1)).
    assert (nargs + S j * (nargs - 1) = nargs + (m - 1)) as -> by (unfold m; lia).
    replace m with (S (m - 1)) at 1 2 by (unfold m; lia).
    cbn [take drop chain]. rewrite take_take, Nat.min_l by lia.
    rewrite skipn_firstn_comm, drop_drop.
    replace (nargs + (m - 1) - nargs) with (m - 1) by lia. done.
Qed.
End LinkerFacts.

Section LinkFacts.
Variable cls : Class.
Variable symbol : string.
Variable e : FunctionEntry.
Hypothesis Hsymbol : linking_function cls = Some symbol.
Hypothesis Hentry : functions cls !! symbol = Some e.

Lemma link_eq depth args :
  link cls depth args = link_recursive depth symbol (fn_args e) args.
Proof. unfold link. by rewrite Hsymbol, Hentry. Qed.

(** C2 (amended).  With a linking function of arity [k]: linking exactly [k]
    trees gives a new root, named by the linking symbol, over those trees in
    their order; linking more than [k] trees is linking the combination of
    the first [k] of them, put in front of the remaining ones, whatever the
    stack allows.  So [k >= 2] and [k + j (k - 1)] trees give, with room for
    [j] nested calls, the combination made of [j] rounds; it is nested to
    the left: the root of a further round is over the combination made so
    far and the next [k - 1] trees.  A number of trees that is not of that
    form is never linked: the recursion ends in [RecursionError], whatever
    the stack allows. *)
Theorem link_spec depth args :
  let k := fn_args e in
  (List.length args = k → link cls (S depth) args = Ok (mkNode symbol args)) ∧
  (k < List.length args →
     link cls (S depth) args = link cls depth (mkNode symbol (take k args) :: drop k args)) ∧
  (∀ j, 2 ≤ k → List.length args = k + j * (k - 1) → j ≤ depth →
     link cls (S depth) args = Ok (chain j symbol k args)) ∧
  (∀ j, 2 ≤ k → List.length args = k + S j * (k - 1) →
     chain (S j) symbol k args
     = mkNode symbol (chain j symbol k (take (k + j * (k - 1)) args)
                        :: drop (k + j * (k - 1)) args)
     ∧ List.length (drop (k + j * (k - 1)) args) = k - 1) ∧
  (¬ linkable k (List.length args) →
     ∀ depth', link cls depth' args = Raise RecursionError).
Proof.
  cbv zeta. split_and!.
  - rewrite link_eq. apply link_recursive_exact.
  - intros Hlen. rewrite !link_eq. by apply link_recursive_more.
  - intros j. rewrite link_eq. apply link_recursive_chain.
  - intros j Hk Hlen. split; [apply chain_outer; lia|]. rewrite length_drop. lia.
  - intros Hnot depth'. rewrite link_eq. by apply link_recursive_diverges.
Qed.
End LinkFacts.

(** ** The evaluation cache *)

Lemma item_eqb_refl a : item_eqb a a = true.
Proof.
  unfold item_eqb. rewrite String.eqb_refl. cbn.
  apply Qeq_bool_iff. reflexivity.
Qed.

Lemma fingerprint_eqb_refl key : fingerprint_eqb key key = true.
Proof. induction key as [|a key IH]; [done|]. cbn. by rewrite item_eqb_refl, IH. Qed.

Lemma cache_get_set key v d : cache_get key (cache_set key v d) = Some v.
Proof.
  induction d as [|[k v'] d IH]; cbn.
  - by rewrite fingerprint_eqb_refl.
  - destruct (fingerprint_eqb k key) eqn:Hk; cbn; by rewrite Hk.
Qed.

Lemma item_leb_total a b : item_leb a b = true ∨ item_leb b a = true.
Proof.
  unfold item_leb, String.ltb.
  rewrite (String.compare_antisym b.1 a.1).
  destruct (String.compare a.1 b.1) eqn:Hc; cbn; auto.
  apply String.compare_eq_iff in Hc. rewrite Hc, String.eqb_refl. cbn.
  destruct (Qlt_le_dec b.2 a.2) as [Hlt|Hle].
  - right. apply Qle_bool_iff. by apply Qlt_le_weak.
  - left. by apply Qle_bool_iff.
Qed.

Lemma item_leb_Total : Total (λ a b : string * Q, Is_true (item_leb a b)).
Proof.
  intros a b. destruct (item_leb_total a b) as [H|H]; rewrite H; cbn; auto.
Qed.

Lemma sorted_spec items :
  sorted items ≡ₚ items ∧ Sorted (λ a b, Is_true (item_leb a b)) (sorted items).
Proof.
  split; [apply merge_sort_Permutation|].
  apply (@Sorted_merge_sort _ _ _ item_leb_Total).
Qed.

Section EvaluatorFacts.
Variable cls : Class.
Variable recursion_limit : nat.
Local Abbreviation evaluate := (evaluate cls recursion_limit).

Lemma evaluate_hit self tv v :
  cache_get (sorted (map_to_list tv)) (_values_ self) = Some v →
  evaluate self tv = (Ok v, self, []).
Proof. intros H. unfold Chromosome.evaluate. by rewrite H. Qed.

Lemma evaluate_Ok_cached self tv v self' log :
  evaluate self tv = (Ok v, self', log) →
  cache_get (sorted (map_to_list tv)) (_values_ self') = Some v.
Proof.
  unfold Chromosome.evaluate.
  destruct (cache_get _ (_values_ self)) as [v0|] eqn:Hget.
  { intros [= <- <- <-]. done. }
  destruct (decoded cls self) as [[ts|e] log1]; [|done].
  destruct (expression_tree cls recursion_limit ts) as [[t|e] log2]; [|done].
  destruct (inorder _ _ _ _ _) as [r w].
  destruct r as [[]|[]]; intros [= <- <- <-]; cbn; apply cache_get_set.
Qed.

(** C3.  After a call of [evaluate] that returned a value, the value is in
    the cache under the fingerprint of the bindings, which is their items
    sorted by name, and a second call with the same bindings returns it and
    leaves the chromosome as it is, without decoding a gene, linking, or
    applying a callable. *)
Theorem evaluate_memoized self tv v self' log :
  evaluate self tv = (Ok v, self', log) →
  let value_fingerprint := sorted (map_to_list tv) in
  value_fingerprint ≡ₚ map_to_list tv ∧
  Sorted (λ a b, Is_true (item_leb a b)) value_fingerprint ∧
  cache_get value_fingerprint (_values_ self') = Some v ∧
  evaluate self' tv = (Ok v, self', []).
Proof.
  intros Hev. cbv zeta.
  pose proof (evaluate_Ok_cached _ _ _ _ _ Hev) as Hget.
  destruct (sorted_spec (map_to_list tv)) as [Hp Hs].
  repeat split; try done. by apply evaluate_hit.
Qed.

(** ** What a call leaves alone *)
Lemma evaluate_frame self tv r self' log :
  evaluate self tv = (r, self', log) →
  genes self' = genes self ∧
  _fitness_ self' = _fitness_ self ∧
  ephemeral_random_constants self' = ephemeral_random_constants self ∧
  (trees self' = trees self
   ∨ trees self = [] ∧ build_trees cls (genes self) = Ok (trees self')).
Proof.
  unfold Chromosome.evaluate.
  destruct (cache_get _ (_values_ self)) as [v0|] eqn:Hget.
  { intros [= <- <- <-]. auto. }
  assert (∀ ts l, decoded cls self = (Ok ts, l) →
            ts = trees self ∨ trees self = [] ∧ build_trees cls (genes self) = Ok ts) as Hdec.
  { unfold decoded. intros ts l. destruct (trees self) as [|t0 ts0]; cbn.
    - intros [= -> _]. auto.
    - intros [= <- _]. auto. }
  destruct (decoded cls self) as [[ts|e] log1]; [|intros [= <- <- <-]; auto].
  specialize (Hdec ts log1 eq_refl).
  assert (∀ c, genes c = genes self → _fitness_ c = _fitness_ self →
            ephemeral_random_constants c = ephemeral_random_constants self →
            trees c = ts →
            genes c = genes self ∧ _fitness_ c = _fitness_ self ∧
            ephemeral_random_constants c = ephemeral_random_constants self ∧
            (trees c = trees self
             ∨ trees self = [] ∧ build_trees cls (genes self) = Ok (trees c))) as Hc.
  { intros c ? ? ? ->. repeat split; done. }
  destruct (expression_tree cls recursion_limit ts) as [[t|e] log2];
    [|intros [= <- <- <-]; by apply Hc].
  destruct (inorder _ _ _ _ _) as [r0 w].
  destruct r0 as [[]|[]]; intros [= <- <- <-]; by apply Hc.
Qed.
End EvaluatorFacts.

(** ** The traversal *)

Lemma Node_ind (P : Node → Prop) :
  (∀ nm kids, Forall P kids → P (mkNode nm kids)) → ∀ t, P t.
Proof.
  intros H. fix IH 1. intros [nm kids]. apply H.
  induction kids as [|k kids IHk]; constructor; [apply IH|apply IHk].
Qed.

Section InorderFacts.
Variable cls : Class.
Variable self : chromosome.
Variable tv : gmap string Q.
Local Abbreviation inorder := (inorder cls self tv).
Local Abbreviation question_marks := (question_marks cls).
Local Abbreviation erc := (ephemeral_random_constants self).

Lemma inorder_question_mark kids w :
  "?" ∈ terminals cls →
  inorder (mkNode "?" kids) w
  = (match erc !! erc_index w with
     | Some q => Ok (VReal q)
     | None => Raise IndexError
     end,
     {| erc_index := erc_index w + 1; applied := applied w |}).
Proof.
  intros Hq. cbn. rewrite bool_decide_true by done.
  replace (erc_index w + 1 - 1) with (erc_index w) by lia.
  by destruct (erc !! erc_index w).
Qed.

Lemma inorder_each_cursor kids :
  Forall (λ t, ∀ w v w', inorder t w = (Ok v, w') →
                erc_index w' = erc_index w + question_marks t
                ∧ (question_marks t = 0 ∨ erc_index w' ≤ List.length erc)) kids →
  ∀ w vs w', inorder_each inorder kids w = (Ok vs, w') →
    erc_index w' = erc_index w + sum_list_with question_marks kids
    ∧ (sum_list_with question_marks kids = 0 ∨ erc_index w' ≤ List.length erc).
Proof.
  induction 1 as [|k kids Hk _ IH]; intros w vs w'; cbn.
  - intros [= <- <-]. split; [lia|auto].
  - destruct (inorder k w) as [[v|e] w1] eqn:Hkw; [|done].
    destruct (inorder_each inorder kids w1) as [[vs'|e] w2] eqn:Hrest; [|done].
    intros [= <- <-].
    destruct (Hk _ _ _ Hkw) as [Hk1 Hk2]. destruct (IH _ _ _ Hrest) as [Hr1 Hr2].
    split; [lia|]. destruct Hr2 as [Hz|Hle]; [|by right].
    destruct Hk2 as [Hz'|Hle]; [left; lia|right; lia].
Qed.

Lemma inorder_cursor t : ∀ w v w',
  inorder t w = (Ok v, w') →
  erc_index w' = erc_index w + question_marks t
  ∧ (question_marks t = 0 ∨ erc_index w' ≤ List.length erc).
Proof.
  induction t as [nm kids IH] using Node_ind. intros w v w'. cbn.
  case_bool_decide.
  - destruct (String.eqb nm "?").
    + destruct (erc !! _) as [q|] eqn:Hq; [|done]. intros [= <- <-]. cbn.
      apply lookup_lt_Some in Hq. split; [lia|]. right. lia.
    + destruct (constants cls !! nm); [intros [= <- <-]; split; [lia|auto]|].
      destruct (isdigit nm); [intros [= _ <-]; split; [lia|auto]|].
      destruct (tv !! nm); [|done]. intros [= <- <-]. split; [lia|auto].
  - destruct (functions cls !! nm) as [e|]; [|intros [= <- <-]; split; [lia|auto]].
    destruct (inorder_each inorder kids w) as [[vs|e'] w1] eqn:Heach; [|done].
    intros [= _ <-]. cbn. by apply (inorder_each_cursor kids IH w vs).
Qed.
End InorderFacts.

(** *** The cursor and the positions of the constants *)

Section PositionFacts.
Variable cls : Class.
Variable self : chromosome.
Variable tv : gmap string Q.
Local Abbreviation inorder := (inorder cls self tv).
Local Abbreviation question_marks := (question_marks cls).
Local Abbreviation value_at := (value_at cls self tv).

Lemma inorder_each_value_at kids :
  Forall (λ t, ∀ w, (inorder t w).1 = value_at t (erc_index w)) kids →
  ∀ w, (inorder_each inorder kids w).1
       = values_at cls value_at kids (erc_index w).
Proof.
  induction 1 as [|k kids Hk _ IH]; intros w; [done|].
  cbn [inorder_each values_at]. rewrite <-Hk.
  destruct (inorder k w) as [[v|e] w1] eqn:Hkw; [|done]. cbn [fst bind].
  destruct (inorder_cursor cls self tv k w v w1 Hkw) as [<- _].
  rewrite <-IH.
  by destruct (inorder_each inorder kids w1) as [[vs|e] w2].
Qed.

Lemma inorder_value_at t : ∀ w,
  (inorder t w).1 = value_at t (erc_index w).
Proof.
  induction t as [nm kids IH] using Node_ind. intros w.
  cbn [Chromosome.inorder Chromosome.value_at erc_index]. case_bool_decide.
  - destruct (String.eqb nm "?").
    + replace (erc_index w + 1 - 1) with (erc_index w) by lia.
      by destruct (ephemeral_random_constants self !! erc_index w).
    + destruct (constants cls !! nm); [done|].
      destruct (isdigit nm); [done|]. by destruct (tv !! nm).
  - destruct (functions cls !! nm) as [e|]; [|done].
    rewrite <-(inorder_each_value_at kids IH w).
    by destruct (inorder_each inorder kids w) as [[vs|e'] w1].
Qed.
End PositionFacts.


Section RaiseFacts.
Variable cls : Class.
Variable recursion_limit : nat.
Local Abbreviation evaluate := (evaluate cls recursion_limit).

Lemma build_tree_raises gene e : build_tree cls gene = Raise e → e = IndexError.
Proof.
  destruct (list_ascii_of_string gene) as [|g0 g'] eqn:Hg.
  - rewrite build_tree_empty by done. by intros [= <-].
  - destruct (build_tree_char cls gene g0 g' Hg) as (m & _ & ->).
    destruct (Chromosome.enough _ _ _); [done|]. by intros [= <-].
Qed.

Lemma build_trees_raises genes e : build_trees cls genes = Raise e → e = IndexError.
Proof.
  induction genes as [|g genes IH]; cbn; [done|].
  destruct (build_tree cls g) as [t|e'] eqn:Ht; cbn.
  - destruct (build_trees cls genes); cbn; [done|]. intros [= <-]. by apply IH.
  - intros [= <-]. by eapply build_tree_raises.
Qed.

Lemma link_recursive_raises depth symbol nargs args e :
  link_recursive depth symbol nargs args = Raise e → e = RecursionError.
Proof.
  revert args. induction depth as [|depth IH]; intros args; cbn; [by intros [= <-]|].
  destruct (_ =? _); [done|].
  destruct (link_recursive depth symbol nargs (take nargs args)) eqn:Hin; cbn.
  - apply IH.
  - intros [= <-]. by eapply IH.
Qed.

Lemma link_raises depth args e :
  link cls depth args = Raise e → e = ValueError ∨ e = RecursionError.
Proof.
  unfold link. destruct (linking_function cls); [|intros [= <-]; auto].
  destruct (functions cls !! _); [|intros [= <-]; auto].
  intros ->%link_recursive_raises. auto.
Qed.

Lemma decoded_raises self e log :
  decoded cls self = (Raise e, log) → e = IndexError.
Proof.
  unfold decoded. destruct (_ =? _); [|done].
  intros [= H _]. by eapply build_trees_raises.
Qed.

Lemma expression_tree_raises ts e log :
  expression_tree cls recursion_limit ts = (Raise e, log) →
  e = IndexError ∨ e = ValueError ∨ e = RecursionError.
Proof.
  unfold expression_tree. destruct (1 <? _).
  - intros [= H _]. apply link_raises in H. tauto.
  - destruct ts; [|done]. intros [= <- _]. auto.
Qed.

(** What a call that misses the cache comes to, once its trees are there. *)
Lemma evaluate_miss self tv ts log1 t log2 r w :
  cache_get (sorted (map_to_list tv)) (_values_ self) = None →
  decoded cls self = (Ok ts, log1) →
  expression_tree cls recursion_limit ts = (Ok t, log2) →
  inorder cls (set_trees self ts) tv t {| erc_index := 0; applied := [] |} = (r, w) →
  ∃ self',
    evaluate self tv = (guarded r, self', log1 ++ log2 ++ applied w) ∧
    match guarded r with
    | Ok v => cache_get (sorted (map_to_list tv)) (_values_ self') = Some v
    | Raise _ => self' = set_trees self ts
    end.
Proof.
  intros Hget Hdec Htree Hin. unfold Chromosome.evaluate.
  rewrite Hget, Hdec, Htree, Hin.
  destruct r as [[]|[]]; cbn; eexists; (split; [reflexivity|]); cbn;
    try done; apply cache_get_set.
Qed.

Lemma evaluate_raises self tv e self' log :
  evaluate self tv = (Raise e, self', log) →
  e ≠ ZeroDivisionError ∧ e ≠ TypeError.
Proof.
  unfold Chromosome.evaluate.
  destruct (cache_get _ _); [done|].
  destruct (decoded cls self) as [[ts|e1] log1] eqn:Hdec.
  2:{ intros [= <- _ _]. apply decoded_raises in Hdec as ->. done. }
  destruct (expression_tree cls recursion_limit ts) as [[t|e2] log2] eqn:Htree.
  2:{ intros [= <- _ _]. apply expression_tree_raises in Htree as [->|[->| ->]]; done. }
  destruct (inorder _ _ _ _ _) as [r w].
  destruct r as [[]|[]]; intros [= <- _ _]; done.
Qed.
End RaiseFacts.

(** ** Ephemeral constants and numeric failures *)

Section ConstantsFacts.
Variable cls : Class.
Variable recursion_limit : nat.
Local Abbreviation evaluate := (evaluate cls recursion_limit).

Lemma init_Ok uniform gs self :
  __init__ cls uniform gs = Ok self →
  ∃ low high len,
    ephemeral_random_constants_range cls = Some (low, high) ∧
    length cls = Some len ∧
    self = {| genes := gs; trees := []; _values_ := []; _fitness_ := None;
              ephemeral_random_constants := uniform low high len |}.
Proof.
  unfold __init__. case_bool_decide; [done|].
  destruct (_ =? 0); [done|].
  destruct (length cls) as [len|]; [|done].
  destruct (head_length cls); [|done].
  destruct (_ && _); [done|]. destruct (negb _); [done|].
  destruct (ephemeral_random_constants_range cls) as [[low high]|].
  - intros [= <-]. by exists low, high, len.
  - by case_bool_decide.
Qed.

(** C4 (amended).  A chromosome is built with [length] ephemeral constants,
    drawn from the configured range, whatever the number of its genes.  In
    the traversal every ["?"] terminal reads the next slot: the traversal
    gives what the tree is worth when its ["?"] are numbered from the
    cursor on, depth first and left to right, and each reads the slot of
    its number, which is an [IndexError] when there is no such slot; a
    traversal that succeeds has moved the cursor by the number of ["?"] it
    met, all within the slots.  Every call of [evaluate] that traverses the
    tree numbers its ["?"] from the first slot on, whatever the calls
    before it have read; a call that finds its value in the cache reads no
    slot. *)
Theorem ephemeral_constants_spec :
  (∀ uniform gs self,
     (∀ low high len,
        ephemeral_random_constants_range cls = Some (low, high) →
        length cls = Some len →
        List.length (uniform low high len) = len
        ∧ Forall (λ q, low <= q ∧ q < high)%Q (uniform low high len)) →
     __init__ cls uniform gs = Ok self →
     ∃ low high len,
       ephemeral_random_constants_range cls = Some (low, high) ∧
       length cls = Some len ∧
       List.length (ephemeral_random_constants self) = len ∧
       Forall (λ q, low <= q ∧ q < high)%Q (ephemeral_random_constants self)) ∧
  (∀ self tv kids i,
     "?" ∈ terminals cls →
     value_at cls self tv (mkNode "?" kids) i
     = match ephemeral_random_constants self !! i with
       | Some q => Ok (VReal q)
       | None => Raise IndexError
       end) ∧
  (∀ self tv t w r w',
     inorder cls self tv t w = (r, w') →
     r = value_at cls self tv t (erc_index w)
     ∧ (is_Ok r →
        erc_index w' = erc_index w + question_marks cls t
        ∧ (question_marks cls t = 0
           ∨ erc_index w' ≤ List.length (ephemeral_random_constants self)))) ∧
  (∀ self tv,
     match cache_get (sorted (map_to_list tv)) (_values_ self) with
     | Some v => evaluate self tv = (Ok v, self, [])
     | None =>
         ∀ ts log1 t log2,
           decoded cls self = (Ok ts, log1) →
           expression_tree cls recursion_limit ts = (Ok t, log2) →
           (evaluate self tv).1.1 = guarded (value_at cls (set_trees self ts) tv t 0)
     end).
Proof.
  split_and!.
  - intros uniform gs self Hu (low & high & len & Hr & Hl & ->)%init_Ok.
    exists low, high, len. cbn. destruct (Hu low high len Hr Hl). done.
  - intros self tv kids i Hq. cbn. by rewrite bool_decide_true.
  - intros self tv t w r w' Hin. split.
    + rewrite <-inorder_value_at. by rewrite Hin.
    + intros [v ->]. by eapply inorder_cursor.
  - intros self tv.
    destruct (cache_get _ _) as [v|] eqn:Hget; [by apply evaluate_hit|].
    intros ts log1 t log2 Hdec Htree.
    destruct (inorder cls (set_trees self ts) tv t {| erc_index := 0; applied := [] |})
      as [r w] eqn:Hin.
    destruct (evaluate_miss cls recursion_limit self tv ts log1 t log2 r w
                Hget Hdec Htree Hin) as (self' & -> & _).
    cbn [fst].
    pose proof (inorder_value_at cls (set_trees self ts) tv t
                  {| erc_index := 0; applied := [] |}) as Hpos.
    rewrite Hin in Hpos. cbn [fst erc_index] in Hpos. by rewrite Hpos.
Qed.

(** X20.  What the [try] of [evaluate] catches: the call never raises
    [ZeroDivisionError] or [TypeError]; when the reduction of the tree
    raises one of them, or yields a complex number, the call returns
    not-a-number and caches it.  Any other exception of the reduction
    reaches the caller, the trees kept and nothing cached. *)
Theorem evaluate_numeric_failures self tv :
  (∀ e self' log,
     evaluate self tv = (Raise e, self', log) →
     e ≠ ZeroDivisionError ∧ e ≠ TypeError) ∧
  (∀ ts log1 t log2 r w,
     cache_get (sorted (map_to_list tv)) (_values_ self) = None →
     decoded cls self = (Ok ts, log1) →
     expression_tree cls recursion_limit ts = (Ok t, log2) →
     inorder cls (set_trees self ts) tv t {| erc_index := 0; applied := [] |} = (r, w) →
     (r = Raise ZeroDivisionError ∨ r = Raise TypeError ∨ r = Ok VComplex →
      ∃ self', evaluate self tv = (Ok VNaN, self', log1 ++ log2 ++ applied w)
               ∧ cache_get (sorted (map_to_list tv)) (_values_ self') = Some VNaN) ∧
     (∀ e, r = Raise e → e ≠ ZeroDivisionError → e ≠ TypeError →
           evaluate self tv = (Raise e, set_trees self ts, log1 ++ log2 ++ applied w))).
Proof.
  split; [apply evaluate_raises|].
  intros ts log1 t log2 r w Hget Hdec Htree Hin.
  destruct (evaluate_miss cls recursion_limit self tv ts log1 t log2 r w
              Hget Hdec Htree Hin) as (self' & Hev & Hcache).
  split.
  - intros Hr. exists self'.
    assert (guarded r = Ok VNaN) as Hg by (destruct Hr as [->|[->| ->]]; done).
    rewrite Hg in Hev, Hcache. done.
  - intros e -> Hz Ht.
    assert (guarded (Raise e) = Raise e) as Hg by (by destruct e).
    rewrite Hg in Hev, Hcache. by subst self'.
Qed.
End ConstantsFacts.


(** ** Fitness *)

Section ScorerFacts.
Variable cls : Class.
Variable recursion_limit : nat.
Variable ar : Arithmetic.
Local Abbreviation evaluate := (evaluate cls recursion_limit).
Local Abbreviation evaluate_cases := (evaluate_cases cls recursion_limit).
Local Abbreviation real_case := (real_case ar).
Local Abbreviation absolute_step := (absolute_step ar).
Local Abbreviation squared_step := (squared_step ar).
Local Abbreviation absolute_sum := (absolute_sum ar).
Local Abbreviation squared_sum := (squared_sum ar).
Local Abbreviation inverse_of_one_plus := (inverse_of_one_plus ar).
Local Abbreviation absolute_cases := (absolute_cases cls recursion_limit ar).
Local Abbreviation squared_cases := (squared_cases cls recursion_limit ar).
Local Abbreviation absolute_fitness1 := (absolute_fitness1 cls recursion_limit ar).
Local Abbreviation inv_squared_error1 := (inv_squared_error1 cls recursion_limit ar).
Local Abbreviation absolute_fitness := (absolute_fitness cls recursion_limit ar).
Local Abbreviation inv_squared_error := (inv_squared_error cls recursion_limit ar).
Local Abbreviation absolute_scored := (absolute_scored cls recursion_limit ar).
Local Abbreviation squared_scored := (squared_scored cls recursion_limit ar).
Local Abbreviation taken := (taken ar).

Lemma real_case_taken q : taken q → real_case (VReal q) = Ok (Some q).
Proof. unfold taken. cbn. by intros ->. Qed.

Lemma anomalous_real_case v : anomalous v → real_case v = Ok None.
Proof.
  unfold anomalous. rewrite !elem_of_cons, elem_of_nil.
  intros [->|[->|[->|[->|[]]]]]; done.
Qed.

Lemma absolute_cases_real M cases : ∀ self qs self' acc v,
  evaluate_cases cases self = (Ok (VReal <$> qs), self') →
  Forall taken qs →
  absolute_sum M acc qs cases.*2 = Ok v →
  absolute_cases M cases self acc = (Ok v, self').
Proof.
  induction cases as [|[b T] cases IH]; intros self qs self' acc v; cbn.
  - intros [= Hqs <-] _. destruct qs; [|done]. by intros [= <-].
  - destruct (evaluate self b) as [[[x|e] self1] log]; [|done].
    destruct (evaluate_cases cases self1) as [[vs|e] self2] eqn:Hrest; [|done].
    intros [= Hqs <-]. destruct qs as [|q qs]; [done|]. cbn in Hqs.
    injection Hqs as -> ->. intros [Hq Hqs]%Forall_cons. cbn [Chromosome.absolute_sum].
    rewrite (real_case_taken q Hq). unfold Chromosome.absolute_step.
    destruct (py_sub ar (VReal q) (VReal T)) as [d|]; [|done]. cbn [bind].
    destruct (py_abs ar d) as [a|]; [|done]. cbn [bind].
    destruct (py_sub ar (VReal M) a) as [m|]; [|done]. cbn [bind].
    destruct (py_add ar acc m) as [acc'|]; [|done]. cbn [bind].
    by apply IH.
Qed.

Lemma absolute_cases_anomalous M pre b T post : ∀ self qs self1 x self2 log acc,
  evaluate_cases pre self = (Ok (VReal <$> qs), self1) →
  Forall taken qs →
  is_Ok (absolute_sum M acc qs pre.*2) →
  evaluate self1 b = (Ok x, self2, log) →
  anomalous x →
  absolute_cases M (pre ++ (b, T) :: post) self acc = (Ok (VReal 0), self2).
Proof.
  induction pre as [|[b' T'] pre IH]; intros self qs self1 x self2 log acc; cbn.
  - intros [= _ <-] _ _ -> Hx. by rewrite (anomalous_real_case x Hx).
  - destruct (evaluate self b') as [[[x'|e] self'] log']; [|done].
    destruct (evaluate_cases pre self') as [[vs|e] self''] eqn:Hrest; [|done].
    intros [= Hqs <-]. destruct qs as [|q qs]; [done|]. cbn in Hqs.
    injection Hqs as -> ->. intros [Hq Hqs]%Forall_cons. cbn [Chromosome.absolute_sum].
    rewrite (real_case_taken q Hq). unfold Chromosome.absolute_step.
    destruct (py_sub ar (VReal q) (VReal T')) as [d|]; [|by intros [? [=]]]. cbn [bind].
    destruct (py_abs ar d) as [a|]; [|by intros [? [=]]]. cbn [bind].
    destruct (py_sub ar (VReal M) a) as [m|]; [|by intros [? [=]]]. cbn [bind].
    destruct (py_add ar acc m) as [acc'|]; [|by intros [? [=]]]. cbn [bind].
    intros. by eapply IH.
Qed.

Lemma squared_cases_real cases : ∀ self qs self' acc v,
  evaluate_cases cases self = (Ok (VReal <$> qs), self') →
  Forall taken qs →
  squared_sum acc qs cases.*2 = Ok v →
  squared_cases cases self acc = (Ok v, self').
Proof.
  induction cases as [|[b T] cases IH]; intros self qs self' acc v; cbn.
  - intros [= Hqs <-] _. destruct qs; [|done]. by intros [= <-].
  - destruct (evaluate self b) as [[[x|e] self1] log]; [|done].
    destruct (evaluate_cases cases self1) as [[vs|e] self2] eqn:Hrest; [|done].
    intros [= Hqs <-]. destruct qs as [|q qs]; [done|]. cbn in Hqs.
    injection Hqs as -> ->. intros [Hq Hqs]%Forall_cons. cbn [Chromosome.squared_sum].
    rewrite (real_case_taken q Hq). unfold Chromosome.squared_step.
    destruct (py_sub ar (VReal q) (VReal T)) as [d|]; [|done]. cbn [bind].
    destruct (py_square ar d) as [a|]; [|done]. cbn [bind].
    destruct (py_add ar acc a) as [acc'|]; [|done]. cbn [bind].
    by apply IH.
Qed.

Lemma squared_cases_anomalous pre b T post : ∀ self qs self1 x self2 log acc,
  evaluate_cases pre self = (Ok (VReal <$> qs), self1) →
  Forall taken qs →
  is_Ok (squared_sum acc qs pre.*2) →
  evaluate self1 b = (Ok x, self2, log) →
  anomalous x →
  squared_cases (pre ++ (b, T) :: post) self acc = (Ok VInf, self2).
Proof.
  induction pre as [|[b' T'] pre IH]; intros self qs self1 x self2 log acc; cbn.
  - intros [= _ <-] _ _ -> Hx. by rewrite (anomalous_real_case x Hx).
  - destruct (evaluate self b') as [[[x'|e] self'] log']; [|done].
    destruct (evaluate_cases pre self') as [[vs|e] self''] eqn:Hrest; [|done].
    intros [= Hqs <-]. destruct qs as [|q qs]; [done|]. cbn in Hqs.
    injection Hqs as -> ->. intros [Hq Hqs]%Forall_cons. cbn [Chromosome.squared_sum].
    rewrite (real_case_taken q Hq). unfold Chromosome.squared_step.
    destruct (py_sub ar (VReal q) (VReal T')) as [d|]; [|by intros [? [=]]]. cbn [bind].
    destruct (py_square ar d) as [a|]; [|by intros [? [=]]]. cbn [bind].
    destruct (py_add ar acc a) as [acc'|]; [|by intros [? [=]]]. cbn [bind].
    intros. by eapply IH.
Qed.

Lemma absolute_cases_rejected M pre b T post : ∀ self qs self1 x self2 log acc e,
  evaluate_cases pre self = (Ok (VReal <$> qs), self1) →
  Forall taken qs →
  is_Ok (absolute_sum M acc qs pre.*2) →
  evaluate self1 b = (Ok x, self2, log) →
  real_case x = Raise e →
  absolute_cases M (pre ++ (b, T) :: post) self acc = (Raise e, self2).
Proof.
  induction pre as [|[b' T'] pre IH]; intros self qs self1 x self2 log acc e; cbn.
  - intros [= _ <-] _ _ -> Hx. by rewrite Hx.
  - destruct (evaluate self b') as [[[x'|e'] self'] log']; [|done].
    destruct (evaluate_cases pre self') as [[vs|e'] self''] eqn:Hrest; [|done].
    intros [= Hqs <-]. destruct qs as [|q qs]; [done|]. cbn in Hqs.
    injection Hqs as -> ->. intros [Hq Hqs]%Forall_cons. cbn [Chromosome.absolute_sum].
    rewrite (real_case_taken q Hq). unfold Chromosome.absolute_step.
    destruct (py_sub ar (VReal q) (VReal T')) as [d|]; [|by intros [? [=]]]. cbn [bind].
    destruct (py_abs ar d) as [a|]; [|by intros [? [=]]]. cbn [bind].
    destruct (py_sub ar (VReal M) a) as [m|]; [|by intros [? [=]]]. cbn [bind].
    destruct (py_add ar acc m) as [acc'|]; [|by intros [? [=]]]. cbn [bind].
    intros. by eapply IH.
Qed.

Lemma squared_cases_rejected pre b T post : ∀ self qs self1 x self2 log acc e,
  evaluate_cases pre self = (Ok (VReal <$> qs), self1) →
  Forall taken qs →
  is_Ok (squared_sum acc qs pre.*2) →
  evaluate self1 b = (Ok x, self2, log) →
  real_case x = Raise e →
  squared_cases (pre ++ (b, T) :: post) self acc = (Raise e, self2).
Proof.
  induction pre as [|[b' T'] pre IH]; intros self qs self1 x self2 log acc e; cbn.
  - intros [= _ <-] _ _ -> Hx. by rewrite Hx.
  - destruct (evaluate self b') as [[[x'|e'] self'] log']; [|done].
    destruct (evaluate_cases pre self') as [[vs|e'] self''] eqn:Hrest; [|done].
    intros [= Hqs <-]. destruct qs as [|q qs]; [done|]. cbn in Hqs.
    injection Hqs as -> ->. intros [Hq Hqs]%Forall_cons. cbn [Chromosome.squared_sum].
    rewrite (real_case_taken q Hq). unfold Chromosome.squared_step.
    destruct (py_sub ar (VReal q) (VReal T')) as [d|]; [|by intros [? [=]]]. cbn [bind].
    destruct (py_square ar d) as [a|]; [|by intros [? [=]]]. cbn [bind].
    destruct (py_add ar acc a) as [acc'|]; [|by intros [? [=]]]. cbn [bind].
    intros. by eapply IH.
Qed.

(** *** Signs *)

Lemma squared_step_sign acc q T acc' :
  not_negative acc → squared_step acc q T = Ok acc' → not_negative acc'.
Proof.
  intros Hacc. unfold Chromosome.squared_step.
  destruct (py_sub ar (VReal q) (VReal T)) as [d|] eqn:Hd; [|done]. cbn [bind].
  destruct (py_square ar d) as [s|] eqn:Hs; [|done]. cbn [bind].
  apply py_add_sign; [done|].
  eapply py_square_sign; [|done]. by eapply py_sub_real.
Qed.

Lemma inverse_of_one_plus_sign s :
  not_negative s →
  inverse_of_one_plus s ≠ Raise ZeroDivisionError
  ∧ ∀ v, inverse_of_one_plus s = Ok v → ∃ q, v = VReal q ∧ (0 <= q)%Q ∧ (q <= 1)%Q.
Proof.
  intros Hs. unfold Chromosome.inverse_of_one_plus.
  destruct (py_add ar (VReal 1) s) as [d|e] eqn:Hd; cbn [bind].
  - by apply (py_inverse ar s d).
  - split; [|done]. intros [= ->]. by apply py_add_raises in Hd.
Qed.

Lemma inverse_of_one_plus_0 : inverse_of_one_plus (VReal 0) = Ok (VReal 1).
Proof.
  unfold Chromosome.inverse_of_one_plus.
  destruct (py_small ar 1 0) as (Hadd & _); [done|done|].
  change (py_add ar (VReal 1) (VReal 0) = Ok (VReal 1)) in Hadd.
  rewrite Hadd. cbn [bind]. apply py_truediv_1_1.
Qed.

Lemma inverse_of_one_plus_inf : inverse_of_one_plus VInf = Ok (VReal 0).
Proof.
  unfold Chromosome.inverse_of_one_plus. rewrite py_add_1_inf. cbn [bind].
  apply py_truediv_1_inf.
Qed.

(** What the loops leave of the chromosome and what they come to. *)
Lemma absolute_cases_frame M cases : ∀ self acc r self',
  absolute_cases M cases self acc = (r, self') →
  _fitness_ self' = _fitness_ self
  ∧ ∀ e, r = Raise e → e ≠ ZeroDivisionError.
Proof.
  induction cases as [|[b T] cases IH]; intros self acc r self'; cbn.
  - intros [= <- <-]. done.
  - destruct (evaluate self b) as [[r1 self1] log] eqn:Hev.
    pose proof (evaluate_frame cls recursion_limit _ _ _ _ _ Hev) as (_ & Hf & _).
    destruct r1 as [x|e].
    + destruct (real_case x) as [[c|]|e] eqn:Hx.
      * destruct (absolute_step M acc c T) as [acc'|e] eqn:Hstep.
        -- intros H. destruct (IH _ _ _ _ H) as [Hf' He]. split; [congruence|done].
        -- intros [= <- <-]. split; [done|]. intros ? [= <-] ->.
           revert Hstep. unfold Chromosome.absolute_step.
           destruct (py_sub ar (VReal c) (VReal T)) as [d|] eqn:H1; cbn [bind];
             [|intros [= ->]; by apply py_sub_raises in H1].
           destruct (py_abs ar d) as [a|] eqn:H2; cbn [bind];
             [|intros [= ->]; by apply py_abs_raises in H2].
           destruct (py_sub ar (VReal M) a) as [m|] eqn:H3; cbn [bind];
             [|intros [= ->]; by apply py_sub_raises in H3].
           apply py_add_raises.
      * intros [= <- <-]. split; [done|]. by intros ? [=].
      * intros [= <- <-]. split; [done|]. intros ? [= <-] ->.
        destruct x; cbn in Hx; try done. by destruct (numpy_takes ar q).
    + intros [= <- <-]. split; [done|]. intros ? [= <-].
      by apply evaluate_raises in Hev as [? _].
Qed.

Lemma squared_cases_frame cases : ∀ self acc r self',
  squared_cases cases self acc = (r, self') →
  _fitness_ self' = _fitness_ self
  ∧ (∀ e, r = Raise e → e ≠ ZeroDivisionError)
  ∧ (∀ s, r = Ok s → not_negative acc → not_negative s).
Proof.
  induction cases as [|[b T] cases IH]; intros self acc r self'; cbn [Chromosome.squared_cases].
  - intros [= <- <-]. split_and!; [done|done|]. by intros s [= <-].
  - destruct (evaluate self b) as [[r1 self1] log] eqn:Hev.
    pose proof (evaluate_frame cls recursion_limit _ _ _ _ _ Hev) as (_ & Hf & _).
    destruct r1 as [x|e].
    + destruct (real_case x) as [[c|]|e] eqn:Hx.
      * destruct (squared_step acc c T) as [acc'|e] eqn:Hstep.
        -- intros H. destruct (IH _ _ _ _ H) as (Hf' & He & Hs).
           split_and!; [congruence|done|].
           intros s Hr Hacc. apply (Hs s Hr). by eapply squared_step_sign.
        -- intros [= <- <-]. split_and!; [done| |done]. intros ? [= <-] ->.
           revert Hstep. unfold Chromosome.squared_step.
           destruct (py_sub ar (VReal c) (VReal T)) as [d|] eqn:H1; cbn [bind];
             [|intros [= ->]; by apply py_sub_raises in H1].
           destruct (py_square ar d) as [a|] eqn:H2; cbn [bind];
             [|intros [= ->]; by apply py_square_raises in H2].
           apply py_add_raises.
      * intros [= <- <-]. split_and!; [done|by intros ? [=]|]. by intros s [= <-].
      * intros [= <- <-]. split_and!; [done| |done]. intros ? [= <-] ->.
        destruct x; cbn in Hx; try done. by destruct (numpy_takes ar q).
    + intros [= <- <-]. split_and!; [done| |done]. intros ? [= <-].
      by apply evaluate_raises in Hev as [? _].
Qed.

Lemma absolute_fitness1_scored M self v self' :
  absolute_fitness1 M self = (Ok v, self') → _fitness_ self' = Some v.
Proof.
  unfold Chromosome.absolute_fitness1.
  destruct (_fitness_ self) as [v0|] eqn:Hf; [by intros [= <- <-]|].
  destruct (Chromosome.absolute_cases _ _ _ _ _ _ _) as [[f|e] c]; [|done].
  by intros [= <- <-].
Qed.

Lemma inv_squared_error1_scored self v self' :
  inv_squared_error1 self = (Ok v, self') → _fitness_ self' = Some v.
Proof.
  unfold Chromosome.inv_squared_error1.
  destruct (_fitness_ self) as [v0|] eqn:Hf; [by intros [= <- <-]|].
  destruct (Chromosome.squared_cases _ _ _ _ _ _) as [[f|e] c]; [|done].
  destruct (inverse_of_one_plus f); [|done]. by intros [= <- <-].
Qed.

Lemma inv_squared_error1_range self v self' :
  _fitness_ self = None →
  inv_squared_error1 self = (Ok v, self') →
  ∃ q, v = VReal q ∧ (0 <= q)%Q ∧ (q <= 1)%Q.
Proof.
  intros Hnone. unfold Chromosome.inv_squared_error1. rewrite Hnone.
  destruct (squared_cases (fitness_cases cls) self (VReal 0)) as [[s|e] c] eqn:Hc; [|done].
  destruct (squared_cases_frame _ _ _ _ _ Hc) as (_ & _ & Hs).
  destruct (inverse_of_one_plus_sign s) as [_ Hrange].
  { apply (Hs s eq_refl). cbn. lra. }
  destruct (inverse_of_one_plus s) as [v'|]; [|done]. intros [= <- <-]. by apply Hrange.
Qed.

Lemma absolute_scored_fitness1 M self v self' :
  absolute_scored M self v self' → absolute_fitness1 M self = (Ok v, self').
Proof.
  unfold Chromosome.absolute_scored, Chromosome.absolute_fitness1.
  destruct (_fitness_ self) as [f|]; [by intros [-> ->]|].
  intros [(qs & self1 & Hev & Hqs & Hsum & ->)
         |(pre & b & T_j & post & qs & self1 & x & self2 & log
           & Hcases & Hev & Hqs & Hsum & Hb & Hx & -> & ->)].
  - by rewrite (absolute_cases_real M _ self qs self1 (VReal 0) v Hev Hqs Hsum).
  - rewrite Hcases.
    by rewrite (absolute_cases_anomalous M pre b T_j post self qs self1 x self2 log
                  (VReal 0) Hev Hqs Hsum Hb Hx).
Qed.

Lemma squared_scored_error1 self v self' :
  squared_scored self v self' → inv_squared_error1 self = (Ok v, self').
Proof.
  unfold Chromosome.squared_scored, Chromosome.inv_squared_error1.
  destruct (_fitness_ self) as [f|]; [by intros [-> ->]|].
  intros [(qs & self1 & s & Hev & Hqs & Hsum & (d & Hd & Hinv) & ->)
         |(pre & b & T_j & post & qs & self1 & x & self2 & log
           & Hcases & Hev & Hqs & Hsum & Hb & Hx & -> & ->)].
  - rewrite (squared_cases_real _ self qs self1 (VReal 0) s Hev Hqs Hsum).
    unfold Chromosome.inverse_of_one_plus. rewrite Hd. cbn [bind]. by rewrite Hinv.
  - rewrite Hcases.
    rewrite (squared_cases_anomalous pre b T_j post self qs self1 x self2 log
               (VReal 0) Hev Hqs Hsum Hb Hx).
    by rewrite inverse_of_one_plus_inf.
Qed.

Lemma absolute_fitness_each M args : ∀ vs args',
  Forall3 (λ c v c', absolute_fitness1 M c = (Ok v, c')) args vs args' →
  absolute_fitness M args = (Ok vs, args').
Proof.
  induction 1 as [|c v c' args vs args' Hc _ IH]; [done|].
  cbn. by rewrite Hc, IH.
Qed.

Lemma inv_squared_error_each args : ∀ vs args',
  Forall3 (λ c v c', inv_squared_error1 c = (Ok v, c')) args vs args' →
  inv_squared_error args = (Ok vs, args').
Proof.
  induction 1 as [|c v c' args vs args' Hc _ IH]; [done|].
  cbn. by rewrite Hc, IH.
Qed.

Lemma inv_squared_error_range args : ∀ vs args',
  inv_squared_error args = (Ok vs, args') →
  Forall2 (λ c v, _fitness_ c = None → ∃ q, v = VReal q ∧ (0 <= q)%Q ∧ (q <= 1)%Q)
    args vs.
Proof.
  induction args as [|c args IH]; intros vs args'; cbn.
  - intros [= <- _]. constructor.
  - destruct (inv_squared_error1 c) as [[v|e] c'] eqn:Hc; [|done].
    destruct (inv_squared_error args) as [[vs'|e] args''] eqn:Hrest; [|done].
    intros [= <- _]. constructor; [|by eapply IH].
    intros Hnone. by eapply inv_squared_error1_range.
Qed.



(** C9.  The fitness getter returns the stored fitness when there is one,
    without a warning, and 0 with one warning when there is none; after a
    scorer has returned, it gives what the scorer returned. *)
Theorem fitness_getter self :
  match _fitness_ self with
  | Some v => fitness self = (v, [])
  | None =>
      ∃ warning, fitness self = (VReal 0, [warning])
  end
  ∧ (∀ M v self', absolute_fitness1 M self = (Ok v, self') → fitness self' = (v, []))
  ∧ (∀ v self', inv_squared_error1 self = (Ok v, self') → fitness self' = (v, [])).
Proof.
  split; [|split].
  - unfold fitness. destruct (_fitness_ self); [done|]. by eexists.
  - intros M v self' H%absolute_fitness1_scored. unfold fitness. by rewrite H.
  - intros v self' H%inv_squared_error1_scored. unfold fitness. by rewrite H.
Qed.
End ScorerFacts.

(** ** Linking node objects *)

Import Store.

Section StoreFacts.
Variable n : nat.
Local Abbreviation fresh_parent := (fresh_parent n).
Local Abbreviation loose := (loose n).
Local Abbreviation steps := (steps n).

Lemma steps_refl S h : steps S h h.
Proof. split; [done|]. intros l c Hl. exists c. naive_solver. Qed.

Lemma steps_trans S1 S2 S h1 h2 h3 :
  steps S1 h1 h2 → steps S2 h2 h3 →
  (∀ l, l < List.length h1 → l ∉ S → (l ∉ S1) ∧ (l ∉ S2)) →
  steps S h1 h3.
Proof.
  intros [Hlen1 H1] [Hlen2 H2] HS. split; [lia|].
  intros l c Hl. destruct (H1 l c Hl) as (c1 & Hl1 & Hn1 & Hc1 & Hp1 & Hlo1 & Hf1).
  destruct (H2 l c1 Hl1) as (c2 & Hl2 & Hn2 & Hc2 & Hp2 & Hlo2 & Hf2).
  exists c2. split; [done|]. split; [congruence|]. split; [|split; [|split]].
  - intros Hln. rewrite Hc2, Hc1 by done. done.
  - intros HlS. destruct (HS l) as [HS1 HS2]; [by eapply lookup_lt_Some|done|].
    rewrite Hp2, Hp1 by done. done.
  - auto.
  - auto.
Qed.

Lemma steps_new_node S nm h : steps S h (snd (new_node nm h)).
Proof.
  split; [cbn; rewrite length_app; lia|].
  intros l c Hl. exists c. split; [by apply lookup_app_l_Some|]. naive_solver.
Qed.

Lemma alter_alter_lookup (f g : cell → cell) i j (h : list cell) l c :
  h !! l = Some c →
  alter f i (alter g j h) !! l
  = Some ((if decide (i = l) then f else id) ((if decide (j = l) then g else id) c)).
Proof.
  intros Hl. rewrite !list_lookup_alter.
  repeat case_decide; subst; rewrite ?Hl; cbn; congruence.
Qed.

Lemma detach_steps self sc h h1 :
  h !! self = Some sc → loose sc →
  detach self (cell_parent sc) h = Ok h1 →
  List.length h1 = List.length h ∧
  ∀ l c, h !! l = Some c →
    ∃ c1, h1 !! l = Some c1 ∧ cell_name c1 = cell_name c ∧
      (l < n → cell_children c1 = cell_children c) ∧
      (l ≠ self → cell_parent c1 = cell_parent c).
Proof.
  intros Hself Hloose. unfold detach.
  destruct (cell_parent sc) as [p|] eqn:Hp.
  2:{ intros [= <-]. split; [done|]. intros l c Hl. exists c. naive_solver. }
  assert (n ≤ p) as Hnp.
  { destruct Hloose as [?|(p' & ? & ?)]; congruence. }
  destruct (h !! p) as [pc|]; [|done]. case_bool_decide; [|done].
  intros [= <-]. rewrite !length_alter. split; [done|].
  intros l c Hl. rewrite (alter_alter_lookup _ _ _ _ _ _ _ Hl).
  eexists. split; [reflexivity|].
  repeat case_decide; subst; cbn; repeat split; try done; lia.
Qed.

Lemma attach_steps self root h1 h' :
  n ≤ root →
  attach self root h1 = Ok h' →
  List.length h' = List.length h1 ∧
  ∀ l c, h1 !! l = Some c →
    ∃ c', h' !! l = Some c' ∧ cell_name c' = cell_name c ∧
      (l < n → cell_children c' = cell_children c) ∧
      (l ≠ self → cell_parent c' = cell_parent c) ∧
      (l = self → cell_parent c' = Some root).
Proof.
  intros Hroot. unfold attach.
  destruct (h1 !! root) as [rc|]; [|done]. case_bool_decide; [done|].
  intros [= <-]. rewrite !length_alter. split; [done|].
  intros l c Hl. rewrite (alter_alter_lookup _ _ _ _ _ _ _ Hl).
  eexists. split; [reflexivity|].
  repeat case_decide; subst; cbn; repeat split; try done; lia.
Qed.

Lemma set_parent_steps self root h h' sc :
  n ≤ root → h !! self = Some sc → loose sc →
  set_parent self root h = Ok h' →
  steps [self] h h' ∧
  ∃ sc', h' !! self = Some sc' ∧ cell_parent sc' = Some root.
Proof.
  intros Hroot Hself Hloose. unfold set_parent. rewrite Hself.
  case_bool_decide as Hsame.
  { intros [= <-]. split; [apply steps_refl|]. eauto. }
  destruct (on_path _ _ _ _); [done|].
  destruct (detach self (cell_parent sc) h) as [h1|e] eqn:Hdet; [|done]. cbn [bind].
  destruct (detach_steps _ _ _ _ Hself Hloose Hdet) as [Hlen1 H1].
  intros Hatt. destruct (attach_steps _ _ _ _ Hroot Hatt) as [Hlen2 H2].
  assert (∀ l c, h !! l = Some c →
    ∃ c', h' !! l = Some c' ∧ cell_name c' = cell_name c ∧
      (l < n → cell_children c' = cell_children c) ∧
      (l ≠ self → cell_parent c' = cell_parent c) ∧
      (l = self → cell_parent c' = Some root)) as H.
  { intros l c Hl. destruct (H1 l c Hl) as (c1 & Hl1 & Hn1 & Hc1 & Hp1).
    destruct (H2 l c1 Hl1) as (c2 & Hl2 & Hn2 & Hc2 & Hp2 & Hs2).
    exists c2. repeat split; try done; try congruence.
    - intros. rewrite Hc2, Hc1 by done. done.
    - intros. rewrite Hp2, Hp1 by done. done. }
  split.
  - split; [lia|]. intros l c Hl.
    destruct (H l c Hl) as (c' & Hl' & Hn' & Hc' & Hp' & Hs').
    exists c'. split; [done|]. split; [done|]. split; [done|].
    destruct (decide (l = self)) as [->|Hne].
    + assert (fresh_parent c') by (exists root; auto).
      split; [rewrite list_elem_of_singleton; done|]. split; [right|]; done.
    + rewrite (Hp' Hne). unfold loose, fresh_parent. rewrite (Hp' Hne). done.
  - destruct (H self sc Hself) as (c' & Hl' & _ & _ & _ & Hs'). eauto.
Qed.

Lemma set_parents_steps root : ∀ locs h h',
  n ≤ root →
  Forall (λ a, ∃ c, h !! a = Some c ∧ loose c) locs →
  set_parents locs root h = Ok h' →
  steps locs h h' ∧
  Forall (λ a, ∃ c', h' !! a = Some c' ∧ fresh_parent c') locs.
Proof.
  induction locs as [|a locs IH]; intros h h' Hroot Hargs; cbn.
  - intros [= <-]. split; [apply steps_refl|done].
  - apply Forall_cons in Hargs as [(c & Ha & Hc) Hargs].
    destruct (set_parent a root h) as [h1|e] eqn:Hset; [|done]. cbn [bind].
    destruct (set_parent_steps _ _ _ _ _ Hroot Ha Hc Hset) as [Hst (c1 & Ha1 & Hp1)].
    intros Hrest.
    destruct (IH h1 h' Hroot) as [Hst' Hfresh]; [|done|].
    { eapply Forall_impl; [exact Hargs|]. cbn. intros a' (c' & Ha' & Hc').
      destruct Hst as [_ Hst]. destruct (Hst a' c' Ha') as (c'' & ? & _ & _ & _ & ? & _).
      eauto. }
    split.
    + eapply steps_trans; [exact Hst|exact Hst'|]. intros l _ Hl.
      apply not_elem_of_cons in Hl as [Hl1 Hl2]. split; [|done].
      by rewrite list_elem_of_singleton.
    + constructor; [|done].
      destruct Hst' as [_ Hst']. destruct (Hst' a c1 Ha1) as (c2 & ? & _ & _ & _ & _ & Hf).
      exists c2. split; [done|]. apply Hf. by exists root.
Qed.

Lemma link_recursive_steps symbol nargs : ∀ depth locs h r h',
  n ≤ List.length h →
  Forall (λ a, ∃ c, h !! a = Some c ∧ loose c) locs →
  link_recursive depth symbol nargs locs h = Ok (r, h') →
  steps locs h h' ∧ List.length h ≤ r ∧
  (∃ rc, h' !! r = Some rc ∧ cell_parent rc = None) ∧
  Forall (λ a, ∃ c', h' !! a = Some c' ∧ fresh_parent c') locs.
Proof.
  induction depth as [|depth IH]; intros locs h r h' Hn Hlocs; [done|].
  cbn [link_recursive new_node].
  set (root := List.length h).
  set (h1 := h ++ [{| cell_name := symbol; cell_parent := None; cell_children := [] |}]).
  assert (steps [] h h1) as Hst1 by apply (steps_new_node [] symbol h).
  assert (h1 !! root = Some {| cell_name := symbol; cell_parent := None;
                               cell_children := [] |}) as Hroot.
  { unfold h1, root. by rewrite list_lookup_middle. }
  assert (Forall (λ a, ∃ c, h1 !! a = Some c ∧ loose c) locs) as Hlocs1.
  { eapply Forall_impl; [exact Hlocs|]. cbn. intros a (c & Ha & Hc).
    exists c. split; [by apply lookup_app_l_Some|done]. }
  assert (∀ a, a ∈ locs → a < root) as Hlt.
  { intros a Ha. rewrite Forall_forall in Hlocs.
    destruct (Hlocs a Ha) as (c & Hc & _). by eapply lookup_lt_Some. }
  destruct (List.length locs =? nargs).
  - destruct (set_parents locs root h1) as [h2|e] eqn:Hset; [|done]. cbn [bind].
    intros [= <- <-].
    destruct (set_parents_steps root locs h1 h2 ltac:(unfold root; lia) Hlocs1 Hset)
      as [Hst2 Hfresh].
    split; [|split; [done|split; [|done]]].
    + eapply steps_trans; [exact Hst1|exact Hst2|]. intros l _ Hl.
      split; [apply not_elem_of_nil|done].
    + destruct Hst2 as [_ Hst2].
      destruct (Hst2 root _ Hroot) as (rc & Hrc & _ & _ & Hp & _).
      exists rc. split; [done|]. rewrite Hp; [done|].
      intros Hin. apply Hlt in Hin. lia.
  - destruct (link_recursive depth symbol nargs (take nargs locs) h1)
      as [[inner h2]|e] eqn:Hfirst; [|done]. cbn [bind].
    intros Hsecond.
    assert (List.length h1 = S root) as Hlen1 by (unfold h1; rewrite length_app; cbn; lia).
    destruct (IH (take nargs locs) h1 inner h2 ltac:(unfold root in Hlen1; lia)
                ltac:(by apply Forall_take) Hfirst)
      as (Hst2 & Hinner & (ic & Hic & Hip) & Hfresh2).
    assert (Forall (λ a, ∃ c, h2 !! a = Some c ∧ loose c) (inner :: drop nargs locs))
      as Hlocs2.
    { constructor; [exists ic; split; [done|by left]|].
      eapply Forall_impl; [apply Forall_drop; exact Hlocs1|]. cbn.
      intros a (c & Ha & Hc). destruct Hst2 as [_ Hst2].
      destruct (Hst2 a c Ha) as (c' & ? & _ & _ & _ & ? & _). eauto. }
    destruct Hst2 as [Hlen2 Hst2'].
    destruct (IH (inner :: drop nargs locs) h2 r h' ltac:(unfold root in Hlen1; lia)
                Hlocs2 Hsecond)
      as (Hst3 & Hr & Hrc & Hfresh3).
    split; [|split; [lia|split; [done|]]].
    + eapply steps_trans;
        [exact Hst1
        |eapply (steps_trans _ _ (take nargs locs ++ inner :: drop nargs locs));
          [exact (conj Hlen2 Hst2')|exact Hst3
          |intros l _ Hl; by apply not_elem_of_app in Hl]|].
      intros l Hl Hnot. split; [apply not_elem_of_nil|].
      rewrite not_elem_of_app, not_elem_of_cons. repeat split.
      * intros Hin. by apply (subseteq_take nargs locs) in Hin.
      * fold root in Hl. lia.
      * intros Hin. by apply (subseteq_drop nargs locs) in Hin.
    + rewrite <-(take_drop nargs locs). apply Forall_app. split.
      * eapply Forall_impl; [exact Hfresh2|]. cbn. intros a (c & Ha & Hc).
        destruct Hst3 as [_ Hst3].
        destruct (Hst3 a c Ha) as (c' & ? & _ & _ & _ & _ & ?). eauto.
      * by apply Forall_cons in Hfresh3 as [_ ?].
Qed.
End StoreFacts.

(** *** The parents that a link gives *)

Section NewParents.
Variable n : nat.
Local Abbreviation fresh_parent := (fresh_parent n).
Local Abbreviation loose := (loose n).
Local Abbreviation steps := (steps n).

(** The object at [a] has the parent [p], an object named [nm]. *)
Local Abbreviation child_of h nm p a :=
  (∃ c pc, h !! a = Some c ∧ cell_parent c = Some p
           ∧ h !! p = Some pc ∧ cell_name pc = nm).

Lemma set_parents_root root : ∀ locs h h',
  n ≤ root →
  Forall (λ a, ∃ c, h !! a = Some c ∧ loose c) locs →
  set_parents locs root h = Ok h' →
  Forall (λ a, ∃ c', h' !! a = Some c' ∧ cell_parent c' = Some root) locs.
Proof.
  induction locs as [|a locs IH]; intros h h' Hroot Hargs; cbn; [done|].
  apply Forall_cons in Hargs as [(c & Ha & Hc) Hargs].
  destruct (set_parent a root h) as [h1|e] eqn:Hset; [|done]. cbn [bind].
  destruct (set_parent_steps n _ _ _ _ _ Hroot Ha Hc Hset) as [Hst (c1 & Ha1 & Hp1)].
  intros Hrest.
  assert (Forall (λ a, ∃ c, h1 !! a = Some c ∧ loose c) locs) as Hargs1.
  { eapply Forall_impl; [exact Hargs|]. cbn. intros a' (c' & Ha' & Hc').
    destruct Hst as [_ Hst]. destruct (Hst a' c' Ha') as (c'' & ? & _ & _ & _ & ? & _).
    eauto. }
  pose proof (IH h1 h' Hroot Hargs1 Hrest) as Hall.
  constructor; [|done].
  destruct (decide (a ∈ locs)) as [Hin|Hnot].
  - rewrite Forall_forall in Hall. by apply Hall.
  - destruct (set_parents_steps n root locs h1 h' Hroot Hargs1 Hrest) as [[_ Hst'] _].
    destruct (Hst' a c1 Ha1) as (c2 & Ha2 & _ & _ & Hp2 & _).
    exists c2. split; [done|]. by rewrite Hp2.
Qed.

Lemma link_recursive_parents symbol nargs : ∀ depth locs h r h',
  n ≤ List.length h →
  Forall (λ a, ∃ c, h !! a = Some c ∧ loose c) locs →
  link_recursive depth symbol nargs locs h = Ok (r, h') →
  Forall (λ a, ∃ p, List.length h ≤ p ∧ child_of h' symbol p a) locs.
Proof.
  induction depth as [|depth IH]; intros locs h r h' Hn Hlocs; [done|].
  cbn [link_recursive new_node].
  set (root := List.length h).
  set (h1 := h ++ [{| cell_name := symbol; cell_parent := None; cell_children := [] |}]).
  assert (h1 !! root = Some {| cell_name := symbol; cell_parent := None;
                               cell_children := [] |}) as Hroot.
  { unfold h1, root. by rewrite list_lookup_middle. }
  assert (Forall (λ a, ∃ c, h1 !! a = Some c ∧ loose c) locs) as Hlocs1.
  { eapply Forall_impl; [exact Hlocs|]. cbn. intros a (c & Ha & Hc).
    exists c. split; [by apply lookup_app_l_Some|done]. }
  assert (List.length h1 = S root) as Hlen1 by (unfold h1; rewrite length_app; cbn; lia).
  destruct (List.length locs =? nargs).
  - destruct (set_parents locs root h1) as [h2|e] eqn:Hset; [|done]. cbn [bind].
    intros [= <- <-].
    pose proof (set_parents_root root locs h1 h2 ltac:(unfold root; lia) Hlocs1 Hset)
      as Hall.
    destruct (set_parents_steps n root locs h1 h2 ltac:(unfold root; lia) Hlocs1 Hset)
      as [[_ Hst] _].
    destruct (Hst root _ Hroot) as (rc & Hrc & Hname & _).
    eapply Forall_impl; [exact Hall|]. cbn. intros a (c' & Ha & Hp).
    exists root. split; [done|]. by exists c', rc.
  - destruct (link_recursive depth symbol nargs (take nargs locs) h1)
      as [[inner h2]|e] eqn:Hfirst; [|done]. cbn [bind].
    intros Hsecond.
    pose proof (IH (take nargs locs) h1 inner h2 ltac:(lia)
                  ltac:(by apply Forall_take) Hfirst) as Hall1.
    destruct (link_recursive_steps n symbol nargs depth (take nargs locs) h1 inner h2
                ltac:(lia) ltac:(by apply Forall_take) Hfirst)
      as (Hst2 & Hinner & (ic & Hic & Hip) & _).
    assert (Forall (λ a, ∃ c, h2 !! a = Some c ∧ loose c) (inner :: drop nargs locs))
      as Hlocs2.
    { constructor; [exists ic; split; [done|by left]|].
      eapply Forall_impl; [apply Forall_drop; exact Hlocs1|]. cbn.
      intros a (c & Ha & Hc). destruct Hst2 as [_ Hst2].
      destruct (Hst2 a c Ha) as (c' & ? & _ & _ & _ & ? & _). eauto. }
    destruct Hst2 as [Hlen2 _].
    pose proof (IH (inner :: drop nargs locs) h2 r h' ltac:(lia) Hlocs2 Hsecond) as Hall2.
    destruct (link_recursive_steps n symbol nargs depth (inner :: drop nargs locs) h2 r h'
                ltac:(lia) Hlocs2 Hsecond) as ([_ Hst3] & _).
    rewrite <-(take_drop nargs locs) at 1. apply Forall_app. split.
    + rewrite Forall_forall in Hall1, Hall2. apply Forall_forall. intros a Ha.
      destruct (decide (a ∈ inner :: drop nargs locs)) as [Hin|Hnot].
      * destruct (Hall2 a Hin) as (p & Hp & Hchild). exists p. split; [lia|done].
      * destruct (Hall1 a Ha) as (p & Hp & c & pc & Hc & Hcp & Hpc & Hnm).
        destruct (Hst3 a c Hc) as (c' & Hc' & _ & _ & Hkeep & _).
        destruct (Hst3 p pc Hpc) as (pc' & Hpc' & Hnm' & _).
        exists p. split; [lia|]. exists c', pc'.
        split_and!; [done|by rewrite Hkeep|done|congruence].
    + apply Forall_cons in Hall2 as [_ Hall2].
      eapply Forall_impl; [exact Hall2|]. cbn. intros a (p & Hp & Hchild).
      exists p. split; [lia|done].
Qed.
End NewParents.

(** *** Linking objects and linking values agree *)

Lemma tree_of_mono fuel : ∀ fuel' h l t,
  tree_of fuel h l = Some t → fuel ≤ fuel' → tree_of fuel' h l = Some t.
Proof.
  induction fuel as [|fuel IH]; intros fuel' h l t; [done|].
  intros Ht Hle. destruct fuel' as [|fuel']; [lia|]. cbn in *.
  destruct (h !! l) as [c|]; [|done].
  destruct (mapM (tree_of fuel h) (cell_children c)) as [kids|] eqn:Hkids; [|done].
  apply mapM_Some_1 in Hkids.
  rewrite (mapM_Some_2 (tree_of fuel' h) (cell_children c) kids); [done|].
  eapply Forall2_impl; [exact Hkids|]. cbn. intros a t' Ha. apply IH; [done|lia].
Qed.

Lemma tree_of_keeps fuel : ∀ h h' l t,
  (∀ l c, h !! l = Some c →
     ∃ c', h' !! l = Some c' ∧ cell_name c' = cell_name c
           ∧ cell_children c' = cell_children c) →
  tree_of fuel h l = Some t → tree_of fuel h' l = Some t.
Proof.
  induction fuel as [|fuel IH]; intros h h' l t Hkeep; [done|]. cbn.
  destruct (h !! l) as [c|] eqn:Hl; [|done].
  destruct (Hkeep l c Hl) as (c' & -> & -> & ->).
  destruct (mapM (tree_of fuel h) (cell_children c)) as [kids|] eqn:Hkids; [|done].
  apply mapM_Some_1 in Hkids.
  rewrite (mapM_Some_2 (tree_of fuel h') (cell_children c) kids); [done|].
  eapply Forall2_impl; [exact Hkids|]. cbn. intros a t' Ha. by eapply IH.
Qed.

Lemma set_parent_fresh_root a root h sc rc :
  a ≠ root →
  h !! a = Some sc → cell_parent sc = None →
  h !! root = Some rc → cell_parent rc = None →
  a ∉ cell_children rc →
  set_parent a root h
  = Ok (alter (with_parent (Some root)) a
          (alter (with_children (λ children, children ++ [a])) root h)).
Proof.
  intros Hne Ha Hpa Hroot Hpr Hnot. unfold set_parent. rewrite Ha, Hpa.
  rewrite bool_decide_false by done.
  assert (on_path (List.length h) h a root = false) as ->.
  { destruct (List.length h); cbn; rewrite ?Hroot; cbn; rewrite ?Hpr;
      rewrite (proj2 (Nat.eqb_neq root a)) by done; done. }
  cbn. unfold attach. rewrite Hroot, bool_decide_false by done. done.
Qed.

Lemma set_parents_fresh_root locs : ∀ h root rc,
  NoDup locs → root ∉ locs →
  h !! root = Some rc → cell_parent rc = None →
  (∀ a, a ∈ locs → a ∉ cell_children rc) →
  Forall (parentless h) locs →
  ∃ h', set_parents locs root h = Ok h'
        ∧ h' !! root = Some (with_children (λ children, children ++ locs) rc).
Proof.
  induction locs as [|a locs IH]; intros h root rc Hnd Hroot Hrc Hpr Hkids Hlocs.
  - exists h. split; [done|]. rewrite Hrc. unfold with_children.
    rewrite app_nil_r. by destruct rc.
  - apply NoDup_cons in Hnd as [Ha Hnd].
    apply not_elem_of_cons in Hroot as [Hra Hroot].
    apply Forall_cons in Hlocs as [(sc & Hsc & Hpa) Hlocs].
    cbn [set_parents].
    rewrite (set_parent_fresh_root a root h sc rc) by
      (done || (apply Hkids; left)). cbn [bind].
    set (h1 := alter _ a _).
    assert (h1 !! root = Some (with_children (λ children, children ++ [a]) rc)) as Hrc1.
    { unfold h1. rewrite list_lookup_alter_ne by done.
      by rewrite list_lookup_alter_eq, Hrc. }
    destruct (IH h1 root _ Hnd Hroot Hrc1) as (h' & Hset & Hroot').
    + done.
    + intros a' Ha'. cbn. rewrite not_elem_of_app, list_elem_of_singleton.
      split; [apply Hkids; by right|]. intros ->. done.
    + eapply Forall_forall. intros a' Ha'.
      rewrite Forall_forall in Hlocs. destruct (Hlocs a' Ha') as (c & Hc & Hp).
      exists c. split; [|done]. unfold h1.
      rewrite !list_lookup_alter_ne; [done| |]; intros ->; done.
    + exists h'. split; [done|]. rewrite Hroot'. unfold with_children. cbn.
      by rewrite <-(assoc_L (++)).
Qed.

Lemma steps_keeps n locs h h' :
  steps n locs h h' →
  ∀ l c, l < n → h !! l = Some c →
    ∃ c', h' !! l = Some c' ∧ cell_name c' = cell_name c
          ∧ cell_children c' = cell_children c
          ∧ (l ∉ locs → cell_parent c' = cell_parent c).
Proof.
  intros [_ Hst] l c Hl Hc. destruct (Hst l c Hc) as (c' & ? & ? & Hk & ? & _).
  exists c'. auto.
Qed.

Lemma parentless_loose n h locs :
  Forall (parentless h) locs →
  Forall (λ a, ∃ c, h !! a = Some c ∧ loose n c) locs.
Proof.
  intros H. eapply Forall_impl; [exact H|]. cbn.
  intros a (c & ? & ?). exists c. split; [done|by left].
Qed.

Lemma link_recursive_simulates symbol nargs : ∀ depth locs h ts fuel,
  NoDup locs → Forall (parentless h) locs →
  Forall2 (λ a t, tree_of fuel h a = Some t) locs ts →
  match Chromosome.link_recursive depth symbol nargs ts with
  | Ok t =>
      ∃ r h' fuel', Store.link_recursive depth symbol nargs locs h = Ok (r, h')
                    ∧ tree_of fuel' h' r = Some t
  | Raise e => Store.link_recursive depth symbol nargs locs h = Raise e
  end.
Proof.
  induction depth as [|depth IH]; intros locs h ts fuel Hnd Hlocs Hts; [done|].
  cbn [Chromosome.link_recursive Store.link_recursive new_node].
  set (root := List.length h).
  set (rc := {| cell_name := symbol; cell_parent := None; cell_children := [] |}).
  set (h1 := h ++ [rc]).
  assert (h1 !! root = Some rc) as Hroot by (unfold h1, root; by rewrite list_lookup_middle).
  assert (∀ a, a ∈ locs → a < root) as Hlt.
  { intros a Ha. rewrite Forall_forall in Hlocs.
    destruct (Hlocs a Ha) as (c & Hc & _). by eapply lookup_lt_Some. }
  assert (Forall (parentless h1) locs) as Hlocs1.
  { eapply Forall_impl; [exact Hlocs|]. intros a (c & Hc & Hp).
    exists c. split; [by apply lookup_app_l_Some|done]. }
  assert (List.length h1 = S root) as Hlen1 by (unfold h1; rewrite length_app; cbn; lia).
  rewrite <-(Forall2_length _ _ _ Hts).
  destruct (List.length locs =? nargs).
  - destruct (set_parents_fresh_root locs h1 root rc) as (h2 & Hset & Hroot2); try done.
    { intros Hin. apply Hlt in Hin. lia. }
    { intros a _. apply not_elem_of_nil. }
    rewrite Hset. cbn [bind]. exists root, h2, (S fuel). split; [done|].
    destruct (set_parents_steps root root locs h1 h2 ltac:(lia)
                (parentless_loose root h1 locs Hlocs1) Hset) as [Hst _].
    cbn [tree_of]. rewrite Hroot2. cbn.
    rewrite (mapM_Some_2 (tree_of fuel h2) locs ts); [done|].
    eapply Forall2_impl; [exact Hts|]. cbn. intros a t Ha.
    apply (tree_of_keeps fuel h h2); [|done].
    intros l c Hc.
    destruct (steps_keeps _ _ _ _ Hst l c) as (c' & ? & ? & ? & _);
      [by eapply lookup_lt_Some|by apply lookup_app_l_Some|]. eauto.
  - assert (NoDup (take nargs locs) ∧ NoDup (drop nargs locs)
            ∧ ∀ a, a ∈ drop nargs locs → a ∉ take nargs locs) as (Hnd1 & Hnd2 & Hdisj).
    { rewrite <-(take_drop nargs locs) in Hnd. apply NoDup_app in Hnd as (? & Hd & ?).
      repeat split; try done. intros a Ha Ha'. by apply (Hd a). }
    assert (∀ l c, h !! l = Some c →
              ∃ c', h1 !! l = Some c' ∧ cell_name c' = cell_name c
                    ∧ cell_children c' = cell_children c) as Hkeep1.
    { intros l c Hc. exists c. split; [by apply lookup_app_l_Some|done]. }
    specialize (IH (take nargs locs) h1 (take nargs ts) fuel Hnd1
                  ltac:(by apply Forall_take)) as IH1.
    destruct (Chromosome.link_recursive depth symbol nargs (take nargs ts)) as [t1|e].
    2:{ rewrite IH1; [done|]. apply Forall2_take.
        eapply Forall2_impl; [exact Hts|]. cbn. intros a t Ha.
        by apply (tree_of_keeps fuel h h1). }
    destruct IH1 as (inner & h2 & fuel1 & Hfirst & Hinner).
    { apply Forall2_take.
      eapply Forall2_impl; [exact Hts|]. cbn. intros a t Ha.
      by apply (tree_of_keeps fuel h h1). }
    rewrite Hfirst. cbn [bind].
    destruct (link_recursive_steps root symbol nargs depth (take nargs locs) h1 inner h2
                ltac:(lia) (parentless_loose root h1 _ ltac:(by apply Forall_take)) Hfirst)
      as (Hst & Hle & (ic & Hic & Hip) & _).
    assert (∀ l c, h !! l = Some c →
              ∃ c', h2 !! l = Some c' ∧ cell_name c' = cell_name c
                    ∧ cell_children c' = cell_children c
                    ∧ (l ∉ take nargs locs → cell_parent c' = cell_parent c)) as Hkeep2.
    { intros l c Hc.
      apply (steps_keeps _ _ _ _ Hst l c);
        [by eapply lookup_lt_Some|by apply lookup_app_l_Some]. }
    apply (IH (inner :: drop nargs locs) h2 (t1 :: drop nargs ts) (max fuel fuel1)).
    + apply NoDup_cons. split; [|done]. intros Hin.
      apply (subseteq_drop nargs locs) in Hin. apply Hlt in Hin. lia.
    + constructor; [by exists ic|].
      eapply Forall_forall. intros a Ha.
      rewrite Forall_forall in Hlocs.
      destruct (Hlocs a (subseteq_drop nargs locs a Ha)) as (c & Hc & Hp).
      destruct (Hkeep2 a c Hc) as (c' & Hc' & _ & _ & Hp').
      exists c'. split; [done|]. rewrite Hp'; [done|]. by apply Hdisj.
    + constructor.
      * apply (tree_of_mono fuel1); [done|lia].
      * apply Forall2_drop. eapply Forall2_impl; [exact Hts|]. cbn. intros a t Ha.
        apply (tree_of_mono fuel); [|lia].
        apply (tree_of_keeps fuel h h2); [|done].
        intros l c Hc. destruct (Hkeep2 l c Hc) as (c' & ? & ? & ? & _). eauto.
Qed.

(** C8 (amended).  Take the node objects below [n] to be those of the
    decoded trees, and let every argument of [link] be an object that has
    no parent, or a parent that an earlier link created.  Linking leaves the
    name of every object and the children of every object below [n]
    unchanged, so the argument trees keep their shape, and leaves the parent
    of every object that is not an argument unchanged; it does change its
    arguments: each gets as parent an object that this link created, named
    by the linking symbol.  A call of [evaluate] changes of its chromosome
    the trees (decoded once, when there were none) and the cache, and
    nothing of the genes, the fitness and the ephemeral constants. *)
Theorem link_evaluate_frame :
  (∀ n depth symbol nargs locs h r h',
     n ≤ List.length h →
     Forall (λ a, ∃ c, h !! a = Some c
                       ∧ (cell_parent c = None
                          ∨ ∃ p, cell_parent c = Some p ∧ n ≤ p)) locs →
     Store.link_recursive depth symbol nargs locs h = Ok (r, h') →
     List.length h ≤ r ∧
     (∀ l c, h !! l = Some c →
        ∃ c', h' !! l = Some c' ∧
          cell_name c' = cell_name c ∧
          (l < n → cell_children c' = cell_children c) ∧
          (l ∉ locs → cell_parent c' = cell_parent c)) ∧
     (∀ a, a ∈ locs →
        ∃ c' p pc, h' !! a = Some c' ∧ cell_parent c' = Some p ∧
          List.length h ≤ p ∧ h' !! p = Some pc ∧ cell_name pc = symbol)) ∧
  (∀ cls recursion_limit self tv r self' log,
     evaluate cls recursion_limit self tv = (r, self', log) →
     genes self' = genes self ∧
     _fitness_ self' = _fitness_ self ∧
     ephemeral_random_constants self' = ephemeral_random_constants self ∧
     (trees self' = trees self
      ∨ trees self = [] ∧ build_trees cls (genes self) = Ok (trees self'))).
Proof.
  split; [|apply evaluate_frame].
  intros n depth symbol nargs locs h r h' Hn Hlocs Hlink.
  destruct (link_recursive_steps n symbol nargs depth locs h r h' Hn Hlocs Hlink)
    as ([_ Hst] & Hr & _ & _).
  split; [done|]. split.
  - intros l c Hc. destruct (Hst l c Hc) as (c' & Hc' & Hname & Hkids & Hparent & _).
    by exists c'.
  - intros a Ha.
    pose proof (link_recursive_parents n symbol nargs depth locs h r h' Hn Hlocs Hlink)
      as Hall.
    rewrite Forall_forall in Hall.
    destruct (Hall a Ha) as (p & Hp & c' & pc & ? & ? & ? & ?). by exists c', p, pc.
Qed.

(** * Further properties *)

(** ** More on the decoder *)

Section DecoderMore.
Variable cls : Class.
Local Abbreviation args := (args cls).
Local Abbreviation level_args := (level_args cls).
Local Abbreviation assign := (assign cls).
Local Abbreviation forest := (forest cls).
Local Abbreviation enough := (enough cls).
Local Abbreviation nth_level := (nth_level cls).
Local Abbreviation used := (used cls).
Local Abbreviation names_at := (names_at cls).
Local Abbreviation filled := (filled cls).
Local Arguments Chromosome.level_args : simpl never.
Local Arguments Chromosome.args : simpl never.

Lemma list_ascii_of_string_app a b :
  list_ascii_of_string (a ++ b)%string = list_ascii_of_string a ++ list_ascii_of_string b.
Proof. induction a as [|c a IH]; [done|]. simpl. by rewrite <-IH. Qed.

Lemma assign_nil names : assign names [] = map (λ c, mkNode (chr c) []) names.
Proof.
  induction names as [|c names IH]; [done|]. cbn.
  by rewrite take_nil, drop_nil, IH.
Qed.

Lemma forest_leaves ls names :
  level_args names = 0 → forest ls names = map (λ c, mkNode (chr c) []) names.
Proof.
  destruct ls as [|l ls]; [done|]. cbn. intros ->.
  by rewrite take_0, forest_nil, assign_nil.
Qed.

Lemma forest_stable ls ex : ∀ names,
  level_args (names_at ls names (List.length ls)) = 0 →
  forest (ls ++ ex) names = forest ls names.
Proof.
  induction ls as [|l ls IH]; intros names; cbn.
  - apply forest_leaves.
  - intros H. f_equal. by apply IH.
Qed.

Lemma forest_levels_stable g m d :
  level_args (nth_level g m) = 0 →
  forest (map (nth_level g) (seq 1 (m + d))) (nth_level g 0)
  = forest (map (nth_level g) (seq 1 m)) (nth_level g 0).
Proof.
  intros Hz. rewrite seq_app, map_app. apply forest_stable.
  rewrite length_map, length_seq.
  by rewrite (names_at_levels cls g m 0 m).
Qed.

Lemma gene_level_app g x k :
  (∀ j, j ≤ k → used g j ≤ List.length g) →
  gene_level cls (g ++ x) k = gene_level cls g k.
Proof.
  induction k as [|k IH]; intros Hu.
  - specialize (Hu 0 (le_n _)). cbn in *. f_equal.
    unfold Chromosome.used in Hu. cbn in Hu.
    by rewrite take_app_le.
  - pose proof (Hu (S k) (le_n _)) as HS.
    rewrite (used_S cls) in HS.
    cbn. rewrite IH by (intros j Hj; apply Hu; lia).
    unfold Chromosome.used, Chromosome.nth_level in HS.
    destruct (gene_level cls g k) as [prev u]. cbn in HS. f_equal.
    rewrite drop_app_le by lia. rewrite take_app_le; [done|].
    rewrite length_drop. lia.
Qed.

Lemma build_tree_Ok_filled gene t :
  build_tree cls gene = Ok t → filled (list_ascii_of_string gene).
Proof.
  intros (g0 & g' & m & Hg & Hz & He & _)%build_tree_Ok_inv. rewrite Hg.
  apply (enough_iff_filled cls _ g0 g' m eq_refl); [|done].
  unfold go_on. fold (nth_level (g0 :: g') m). rewrite Hz. by rewrite andb_false_r.
Qed.

Lemma filled_used g c k : filled (c :: g) → used (c :: g) k ≤ List.length (c :: g).
Proof.
  intros Hf.
  apply (enough_levels_used cls (c :: g) k 0).
  - rewrite (filled_enough cls); done.
  - cbn. lia.
Qed.

Lemma forest_two_stops g m m' :
  level_args (nth_level g m) = 0 → level_args (nth_level g m') = 0 →
  forest (map (nth_level g) (seq 1 m)) (nth_level g 0)
  = forest (map (nth_level g) (seq 1 m')) (nth_level g 0).
Proof.
  intros Hm Hm'. destruct (decide (m ≤ m')) as [Hle|Hgt].
  - replace m' with (m + (m' - m)) by lia. by rewrite forest_levels_stable.
  - replace m with (m' + (m - m')) by lia. by rewrite forest_levels_stable.
Qed.

(** The symbols after the end of the expression do not matter. *)
Lemma build_tree_app gene extra t :
  build_tree cls gene = Ok t →
  build_tree cls (gene ++ extra)%string = Ok t.
Proof.
  intros Ht. pose proof (build_tree_Ok_filled gene t Ht) as Hf.
  destruct (build_tree_Ok_inv cls gene t Ht) as (g0 & g' & m & Hg & Hz & He & Hforest).
  cbv zeta in *. rewrite Hg in Hf.
  set (x := list_ascii_of_string extra).
  assert (∀ k, gene_level cls ((g0 :: g') ++ x) k = gene_level cls (g0 :: g') k) as Hlev.
  { intros k. apply gene_level_app. intros j _. by apply filled_used. }
  assert (∀ k, nth_level ((g0 :: g') ++ x) k = nth_level (g0 :: g') k) as HL.
  { intros k. unfold Chromosome.nth_level. by rewrite Hlev. }
  assert (list_ascii_of_string (gene ++ extra)%string = g0 :: (g' ++ x)) as Hg2.
  { by rewrite list_ascii_of_string_app, Hg. }
  assert (filled (g0 :: (g' ++ x))) as Hf2.
  { intros k. change (g0 :: g' ++ x) with ((g0 :: g') ++ x). rewrite !HL. apply Hf. }
  destruct (build_tree_filled cls _ g0 (g' ++ x) Hg2 Hf2) as [kids Ht2].
  rewrite Ht2. f_equal.
  destruct (build_tree_Ok_inv cls _ _ Ht2) as (h0 & h' & m' & Hh & Hz' & _ & Hforest').
  cbv zeta in *. rewrite Hg2 in Hh. injection Hh as <- <-.
  change (g0 :: g' ++ x) with ((g0 :: g') ++ x) in *.
  rewrite (map_ext _ (nth_level (g0 :: g')) HL), !HL in Hforest'.
  rewrite HL in Hz'.
  rewrite (forest_two_stops _ m' m Hz' Hz), <-Hforest in Hforest'.
  by injection Hforest'.
Qed.

(** A gene that begins with a symbol of arity 0 is that leaf. *)
Lemma build_tree_leaf c rest :
  args (chr c) = 0 → build_tree cls (String c rest) = Ok (mkNode (chr c) []).
Proof.
  intros Hc. change (String c rest) with (chr c ++ rest)%string.
  apply build_tree_app.
  unfold build_tree. cbn [list_ascii_of_string chr List.length build_levels].
  unfold default, last. cbn [from_option id].
  rewrite (level_args_single cls), Hc. cbn.
  rewrite andb_false_r. cbn. done.
Qed.

Lemma tree_size_assign_le names : ∀ fs,
  sum_list_with tree_size (assign names fs) ≤ List.length names + sum_list_with tree_size fs.
Proof.
  induction names as [|c names IH]; intros fs; cbn; [lia|].
  specialize (IH (drop (args (chr c)) fs)).
  rewrite <-(take_drop (args (chr c)) fs) at 3.
  rewrite sum_list_with_app. lia.
Qed.

Lemma tree_size_forest_le ls : ∀ names,
  sum_list_with tree_size (forest ls names)
  ≤ List.length names + sum_list_with (@List.length ascii) ls.
Proof.
  induction ls as [|l ls IH]; intros names; cbn.
  - induction names as [|c names IHn]; cbn; lia.
  - pose proof (tree_size_assign_le names (forest ls (take (level_args names) l))).
    specialize (IH (take (level_args names) l)).
    rewrite length_take in IH. lia.
Qed.

Lemma levels_length_le g m :
  sum_list_with (@List.length ascii) (map (nth_level g) (seq 1 m)) + 1 ≤ used g m.
Proof.
  induction m as [|m IH].
  - cbn. pose proof (used_pos cls g 0). lia.
  - rewrite seq_S, map_app, sum_list_with_app. cbn.
    rewrite (used_S cls).
    pose proof (length_nth_level_le cls g m). lia.
Qed.

(** A tree has no more nodes than its gene has symbols. *)
Lemma build_tree_size gene t :
  build_tree cls gene = Ok t → tree_size t ≤ String.length gene.
Proof.
  intros Ht. pose proof (build_tree_Ok_filled gene t Ht) as Hf.
  destruct (build_tree_Ok_inv cls gene t Ht) as (g0 & g' & m & Hg & Hz & He & Hforest).
  cbv zeta in *. rewrite Hg in Hf.
  pose proof (tree_size_forest_le (map (nth_level (g0 :: g')) (seq 1 m)) (nth_level (g0 :: g') 0)) as Hs.
  rewrite <-Hforest in Hs. cbn [sum_list_with] in Hs.
  pose proof (levels_length_le (g0 :: g') m) as Hl.
  pose proof (filled_used g' g0 m Hf) as Hu.
  assert (String.length gene = List.length (g0 :: g')) as ->.
  { rewrite <-Hg. clear. induction gene; cbn; auto. }
  change (List.length (nth_level (g0 :: g') 0)) with 1 in Hs. lia.
Qed.

(** X1.  The symbols of a gene after the end of its expression are not read:
    a tree has no more nodes than its gene has symbols, and the gene decodes
    to the same tree whatever is appended to it. *)
Theorem build_tree_tail_ignored gene t :
  build_tree cls gene = Ok t →
  tree_size t ≤ String.length gene
  ∧ ∀ extra, build_tree cls (gene ++ extra)%string = Ok t.
Proof.
  intros Ht. split.
  - by apply build_tree_size.
  - intros extra. by apply build_tree_app.
Qed.

End DecoderMore.

Section CodingRegion.
Variable cls : Class.
Local Abbreviation args := (args cls).
Local Abbreviation level_args := (level_args cls).
Local Abbreviation assign := (assign cls).
Local Abbreviation forest := (forest cls).
Local Abbreviation enough := (enough cls).
Local Abbreviation nth_level := (nth_level cls).
Local Abbreviation used := (used cls).
Local Abbreviation names_at := (names_at cls).
Local Abbreviation filled := (filled cls).
Local Arguments Chromosome.level_args : simpl never.
Local Arguments Chromosome.args : simpl never.

Lemma sum_list_with_eq {A} (f g : A → nat) ks :
  (∀ k, k ∈ ks → f k = g k) → sum_list_with f ks = sum_list_with g ks.
Proof.
  induction ks as [|k ks IH]; intros H; [done|]. cbn.
  rewrite (H k) by apply list_elem_of_here. rewrite IH; [done|].
  intros k' Hk'. apply H. by apply list_elem_of_further.
Qed.

Lemma list_ascii_of_substring n : ∀ s,
  list_ascii_of_string (substring 0 n s) = take n (list_ascii_of_string s).
Proof.
  induction n as [|n IH]; intros [|c s]; cbn; try done. by rewrite IH.
Qed.

Lemma tree_size_assign names : ∀ fs,
  level_args names ≤ List.length fs →
  sum_list_with tree_size (assign names fs)
  = List.length names + sum_list_with tree_size (take (level_args names) fs).
Proof.
  induction names as [|c names IH]; intros fs Hlen; cbn [Chromosome.assign].
  - rewrite (level_args_nil cls). by rewrite take_0.
  - rewrite (level_args_cons cls) in Hlen. rewrite (level_args_cons cls).
    cbn [sum_list_with tree_size List.length].
    rewrite IH by (rewrite length_drop; lia).
    rewrite take_add, sum_list_with_app. lia.
Qed.

(** The nodes of a forest are the symbols of its levels. *)
Lemma tree_size_forest ls : ∀ names,
  enough names ls = true →
  sum_list_with tree_size (forest ls names)
  = sum_list_with (λ k, List.length (names_at ls names k)) (seq 0 (S (List.length ls))).
Proof.
  induction ls as [|l ls IH]; intros names He.
  - cbn. induction names as [|c names IHn]; cbn; [done|]. cbn in IHn. lia.
  - cbn [Chromosome.enough] in He. apply andb_true_iff in He as [Hl%bool_decide_eq_true He].
    cbn [Chromosome.forest]. rewrite tree_size_assign.
    2:{ by rewrite (length_forest cls), length_take, Nat.min_l. }
    rewrite take_ge by (rewrite (length_forest cls), length_take; lia).
    rewrite (IH _ He). cbn [List.length].
    change (seq 0 (S (S (List.length ls)))) with (0 :: seq 1 (S (List.length ls))).
    cbn [sum_list_with]. rewrite <-seq_shift. f_equal.
    generalize (seq 0 (S (List.length ls))). intros ks.
    induction ks as [|k ks IHk]; [done|]. cbn [map sum_list_with]. by rewrite IHk.
Qed.

Lemma levels_length g c m :
  filled (c :: g) →
  sum_list_with (λ k, List.length (nth_level (c :: g) k)) (seq 0 (S m)) = used (c :: g) m.
Proof.
  intros Hf. induction m as [|m IH]; [done|].
  rewrite seq_S, sum_list_with_app, IH. cbn [sum_list_with plus].
  rewrite (used_S cls), Hf. lia.
Qed.

(** A tree has as many nodes as the symbols that its levels take. *)
Lemma build_tree_size_used gene t g0 g' m :
  build_tree cls gene = Ok t →
  list_ascii_of_string gene = g0 :: g' →
  level_args (nth_level (g0 :: g') m) = 0 →
  tree_size t = used (g0 :: g') m.
Proof.
  intros Ht Hg Hz. pose proof (build_tree_Ok_filled cls gene t Ht) as Hf. rewrite Hg in Hf.
  destruct (build_tree_Ok_inv cls gene t Ht) as (h0 & h' & m' & Hh & Hz' & He & Hforest).
  cbv zeta in *. rewrite Hg in Hh. injection Hh as <- <-.
  rewrite (forest_two_stops cls _ m' m Hz' Hz) in Hforest.
  assert (enough (nth_level (g0 :: g') 0) (map (nth_level (g0 :: g')) (seq 1 m)) = true) as He'.
  { by apply (filled_enough cls). }
  pose proof (tree_size_forest _ _ He') as Hsize. rewrite <-Hforest in Hsize.
  cbn [sum_list_with] in Hsize. rewrite length_map, length_seq in Hsize.
  rewrite <-(levels_length g' g0 m Hf).
  replace (tree_size t) with (tree_size t + 0) by lia. rewrite Hsize.
  apply sum_list_with_eq. intros k Hk%elem_of_seq.
  rewrite (names_at_levels cls (g0 :: g') m 0 k) by lia. done.
Qed.

Lemma used_mono g j k : j ≤ k → used g j ≤ used g k.
Proof.
  induction 1 as [|k _ IH]; [done|]. rewrite (used_S cls). lia.
Qed.

Lemma gene_level_prefix g u k :
  used g k ≤ u → gene_level cls (take u g) k = gene_level cls g k.
Proof.
  induction k as [|k IH]; intros Hu.
  - change (used g 0) with 1 in Hu. cbn. f_equal. rewrite take_take. f_equal. lia.
  - rewrite (used_S cls) in Hu. cbn [gene_level].
    rewrite IH by lia.
    unfold Chromosome.used, Chromosome.nth_level in Hu.
    destruct (gene_level cls g k) as [prev us]. cbn [fst snd] in Hu. f_equal.
    rewrite skipn_firstn_comm, take_take. f_equal. lia.
Qed.

Lemma nth_level_prefix g m k :
  level_args (nth_level g m) = 0 →
  nth_level (take (used g m) g) k = nth_level g k.
Proof.
  intros Hz. destruct (decide (k ≤ m)) as [Hle|Hgt].
  - unfold Chromosome.nth_level. rewrite gene_level_prefix; [done|]. by apply used_mono.
  - rewrite (gene_level_beyond cls g m k Hz) by lia.
    apply (gene_level_beyond cls _ m k); [|lia].
    unfold Chromosome.nth_level. rewrite gene_level_prefix by done. exact Hz.
Qed.

Lemma find_level g n m :
  used g 0 ≤ n → n < used g m →
  ∃ k, k < m ∧ used g k ≤ n ∧ n < used g (S k).
Proof.
  intros H0. induction m as [|m IH]; intros Hm; [lia|].
  destruct (decide (n < used g m)) as [Hlt|Hge].
  - destruct (IH Hlt) as (k & ? & ? & ?). exists k. split_and!; [lia|done|done].
  - exists m. split_and!; [lia|lia|done].
Qed.

Lemma short_prefix_unfilled g n m :
  1 ≤ n → n < used g m → used g m ≤ List.length g → ¬ filled (take n g).
Proof.
  intros H1 Hn Hlen Hf.
  destruct (find_level g n m) as (k & Hk & Hle & Hlt); [done|done|].
  specialize (Hf k). rewrite (nth_level_S cls) in Hf.
  unfold Chromosome.nth_level, Chromosome.used in Hf.
  rewrite (gene_level_prefix g n k Hle) in Hf.
  rewrite (used_S cls) in Hlt. unfold Chromosome.nth_level, Chromosome.used in Hle, Hlt.
  pose proof (used_mono g (S k) m ltac:(lia)) as Hmono. rewrite (used_S cls) in Hmono.
  unfold Chromosome.nth_level, Chromosome.used in Hmono.
  destruct (gene_level cls g k) as [prev us]. cbn [fst snd] in *.
  rewrite length_take, length_drop, length_take in Hf. lia.
Qed.

(** X2.  The coding region of a gene is its first symbols, as many as the
    tree has nodes: they decode to the same tree by themselves, and no
    shorter prefix of the gene decodes at all. *)
Theorem build_tree_coding_region gene t :
  build_tree cls gene = Ok t →
  build_tree cls (substring 0 (tree_size t) gene) = Ok t
  ∧ ∀ n, n < tree_size t → build_tree cls (substring 0 n gene) = Raise IndexError.
Proof.
  intros Ht. pose proof (build_tree_Ok_filled cls gene t Ht) as Hf.
  destruct (build_tree_Ok_inv cls gene t Ht) as (g0 & g' & m & Hg & Hz & He & Hforest).
  cbv zeta in *. rewrite Hg in Hf.
  rewrite (build_tree_size_used gene t g0 g' m Ht Hg Hz).
  set (g := g0 :: g') in *.
  pose proof (filled_used cls g' g0 m Hf) as Hlen. fold g in Hlen.
  pose proof (used_pos cls g m) as Hpos.
  split.
  - set (p := substring 0 (used g m) gene).
    assert (list_ascii_of_string p = take (used g m) g) as Hp.
    { unfold p. by rewrite list_ascii_of_substring, Hg. }
    assert (∃ p', take (used g m) g = g0 :: p') as [p' Hp'].
    { exists (take (used g m - 1) g'). replace (used g m) with (S (used g m - 1)) at 1 by lia.
      done. }
    rewrite Hp' in Hp.
    assert (∀ k, nth_level (g0 :: p') k = nth_level g k) as HL.
    { intros k. rewrite <-Hp'. by apply nth_level_prefix. }
    assert (filled (g0 :: p')) as Hfp.
    { intros k. rewrite !HL. apply Hf. }
    destruct (build_tree_filled cls p g0 p' Hp Hfp) as [kids Hk].
    rewrite Hk. f_equal.
    destruct (build_tree_Ok_inv cls _ _ Hk) as (h0 & h' & m' & Hh & Hz' & _ & Hforest').
    cbv zeta in *. rewrite Hp in Hh. injection Hh as <- <-.
    rewrite (map_ext _ (nth_level g) HL), !HL in Hforest'. rewrite HL in Hz'.
    rewrite (forest_two_stops cls _ m' m Hz' Hz), <-Hforest in Hforest'.
    by injection Hforest'.
  - intros n Hn. destruct n as [|n].
    { apply build_tree_empty. by destruct gene. }
    assert (list_ascii_of_string (substring 0 (S n) gene) = g0 :: take n g') as Hp.
    { by rewrite list_ascii_of_substring, Hg. }
    apply (build_tree_unfilled cls _ g0 (take n g') Hp).
    change (g0 :: take n g') with (take (S n) g).
    apply (short_prefix_unfilled g (S n) m); [lia|done|done].
Qed.

End CodingRegion.

(** ** More on the linker *)

Section LinkOutcome.
Variable symbol : string.
Variable nargs : nat.

Lemma link_recursive_Ok_inv depth : ∀ args t,
  Chromosome.link_recursive depth symbol nargs args = Ok t →
  ∃ j, j < depth ∧ List.length args = nargs + j * (nargs - 1)
       ∧ (j = 0 ∨ 2 ≤ nargs) ∧ t = chain j symbol nargs args.
Proof.
  induction depth as [|depth IH]; intros args t; [done|].
  cbn [Chromosome.link_recursive].
  destruct (List.length args =? nargs) eqn:Heq.
  { apply Nat.eqb_eq in Heq. intros [= <-]. exists 0. split_and!; [lia|lia|auto|done]. }
  apply Nat.eqb_neq in Heq.
  destruct (Chromosome.link_recursive depth symbol nargs (take nargs args)) as [inner|e] eqn:Hin;
    [|done].
  cbn [bind]. intros Ht.
  destruct (IH _ _ Hin) as (j1 & Hj1 & Hlen1 & Hcase1 & Hinner).
  destruct (IH _ _ Ht) as (j2 & Hj2 & Hlen2 & Hcase2 & ->).
  rewrite length_take in Hlen1. cbn [List.length] in Hlen2. rewrite length_drop in Hlen2.
  assert (nargs < List.length args ∧ j1 = 0) as [Hlt ->].
  { destruct Hcase1 as [->|H2]; [lia|]. nia. }
  cbn in Hinner. subst inner.
  exists (S j2). split_and!; [lia|nia| |done].
  right. destruct Hcase2 as [->|]; lia.
Qed.

Lemma link_recursive_outcome depth args t :
  Chromosome.link_recursive depth symbol nargs args = Ok t
  ↔ ∃ j, j < depth ∧ List.length args = nargs + j * (nargs - 1)
         ∧ (j = 0 ∨ 2 ≤ nargs) ∧ t = chain j symbol nargs args.
Proof.
  split; [apply link_recursive_Ok_inv|].
  intros (j & Hj & Hlen & Hcase & ->).
  destruct depth as [|depth]; [lia|].
  destruct Hcase as [->|H2].
  - apply link_recursive_exact. lia.
  - apply link_recursive_chain; [done|done|lia].
Qed.
End LinkOutcome.

Section LinkMore.
Variable cls : Class.

(** X3.  What [link] comes to, whatever the class, the trees and the stack:
    a [ValueError] when the linking function is not set or not registered;
    otherwise the tree of [j] rounds exactly when there are [k + j (k - 1)]
    trees for a [j] that the stack allows, with [j = 0] or [k >= 2]; and a
    [RecursionError] in every other case. *)
Theorem link_outcome depth args :
  match linking_function cls with
  | None => link cls depth args = Raise ValueError
  | Some symbol =>
      match functions cls !! symbol with
      | None => link cls depth args = Raise ValueError
      | Some e =>
          let k := fn_args e in
          (∀ t, link cls depth args = Ok t
                ↔ ∃ j, j < depth ∧ List.length args = k + j * (k - 1)
                       ∧ (j = 0 ∨ 2 ≤ k) ∧ t = chain j symbol k args)
          ∧ (¬ is_Ok (link cls depth args) → link cls depth args = Raise RecursionError)
      end
  end.
Proof.
  unfold link. destruct (linking_function cls) as [symbol|]; [|done].
  destruct (functions cls !! symbol) as [e|]; [|done].
  cbv zeta. split.
  - intros t. apply link_recursive_outcome.
  - destruct (Chromosome.link_recursive depth symbol (fn_args e) args) as [t|e'] eqn:H.
    + intros []. by eexists.
    + intros _. by apply link_recursive_raises in H as ->.
Qed.

Variable self : chromosome.
Variable tv : gmap string Q.
Local Abbreviation inorder := (inorder cls self tv).

Lemma inorder_each_applied kids :
  Forall (λ t, ∀ i, ∃ r i' new, ∀ a,
            inorder t {| erc_index := i; applied := a |}
            = (r, {| erc_index := i'; applied := a ++ new |})) kids →
  ∀ i, ∃ r i' new, ∀ a,
    inorder_each inorder kids {| erc_index := i; applied := a |}
    = (r, {| erc_index := i'; applied := a ++ new |}).
Proof.
  induction 1 as [|k kids Hk _ IH]; intros i.
  - exists (Ok []), i, []. intros a. cbn. by rewrite app_nil_r.
  - destruct (Hk i) as (r1 & i1 & new1 & H1).
    destruct r1 as [v|e].
    + destruct (IH i1) as (r2 & i2 & new2 & H2).
      destruct r2 as [vs|e].
      * exists (Ok (v :: vs)), i2, (new1 ++ new2). intros a. cbn.
        by rewrite H1, H2, app_assoc.
      * exists (Raise e), i2, (new1 ++ new2). intros a. cbn.
        by rewrite H1, H2, app_assoc.
    + exists (Raise e), i1, new1. intros a. cbn. by rewrite H1.
Qed.

(** The outcome of a traversal and where it leaves the cursor do not depend
    on the callables applied before. *)
Lemma inorder_applied t : ∀ i, ∃ r i' new, ∀ a,
  inorder t {| erc_index := i; applied := a |}
  = (r, {| erc_index := i'; applied := a ++ new |}).
Proof.
  induction t as [nm kids IH] using Node_ind. intros i. cbn.
  case_bool_decide.
  - destruct (String.eqb nm "?").
    + destruct (ephemeral_random_constants self !! (i + 1 - 1)) as [q|];
        eexists _, (i + 1), []; intros a; by rewrite app_nil_r.
    + destruct (constants cls !! nm) as [v|].
      { eexists _, i, []. intros a. by rewrite app_nil_r. }
      destruct (isdigit nm).
      { eexists _, i, []. intros a. by rewrite app_nil_r. }
      destruct (tv !! nm); eexists _, i, []; intros a; by rewrite app_nil_r.
  - destruct (functions cls !! nm) as [e|].
    2:{ eexists _, i, []. intros a. by rewrite app_nil_r. }
    destruct (inorder_each_applied kids IH i) as (r & i' & new & Heach).
    destruct r as [vs|e'].
    + exists (fn_f e vs), i', (new ++ [Applied nm vs]). intros a.
      rewrite Heach. cbn. by rewrite app_assoc.
    + exists (Raise e'), i', new. intros a. by rewrite Heach.
Qed.

Lemma inorder_each_shift kids w r w' a :
  inorder_each inorder kids w = (r, w') →
  ∃ a', inorder_each inorder kids {| erc_index := erc_index w; applied := a |}
        = (r, {| erc_index := erc_index w'; applied := a' |}).
Proof.
  destruct (inorder_each_applied kids (Forall_true _ kids (λ t, inorder_applied t))
              (erc_index w)) as (r0 & i' & new & H).
  destruct w as [i a0]. cbn in *. rewrite H. intros [= <- <-]. cbn.
  exists (a ++ new). apply H.
Qed.

Section Fold.
Variable symbol : string.
Variable e : FunctionEntry.
Hypothesis Hentry : functions cls !! symbol = Some e.
Hypothesis Hsymbol : symbol ∉ terminals cls.

Lemma inorder_link_node x b w :
  inorder (mkNode symbol [x; b]) w
  = match inorder x w with
    | (Ok vx, wx) =>
        match inorder b wx with
        | (Ok vb, wb) =>
            (fn_f e [vx; vb],
             {| erc_index := erc_index wb;
                applied := applied wb ++ [Applied symbol [vx; vb]] |})
        | (Raise e', wb) => (Raise e', wb)
        end
    | (Raise e', wx) => (Raise e', wx)
    end.
Proof.
  cbn. rewrite bool_decide_false by done. rewrite Hentry.
  destruct (inorder x w) as [[vx|e'] wx]; [|done].
  destruct (inorder b wx) as [[vb|e'] wb]; done.
Qed.

Lemma chain_fold rest : ∀ x b w rx wx vs iend,
  inorder x w = (rx, wx) →
  (∀ vx, rx = Ok vx →
     ∃ wend, inorder_each inorder (b :: rest) wx = (Ok vs, wend)
             ∧ erc_index wend = iend) →
  ∃ wfin,
    inorder (chain (List.length rest) symbol 2 (x :: b :: rest)) w
    = (vx ← rx; link_values (fn_f e) vx vs, wfin)
    ∧ (is_Ok (vx ← rx; link_values (fn_f e) vx vs) → erc_index wfin = iend).
Proof.
  induction rest as [|c rest IH]; intros x b w rx wx vs iend Hx Hrest.
  - cbn [List.length chain]. rewrite inorder_link_node, Hx.
    destruct rx as [vx|e'].
    2:{ eexists. split; [done|]. by intros [? ?]. }
    destruct (Hrest vx eq_refl) as (wend & Heach & Hend). cbn in Heach.
    destruct (inorder b wx) as [[vb|e'] wb]; [|done].
    injection Heach as <- <-. eexists. split.
    + cbn. by destruct (fn_f e [vx; vb]).
    + intros _. done.
  - cbn [List.length chain take drop].
    pose proof (inorder_link_node x b w) as Hnode. rewrite Hx in Hnode.
    destruct rx as [vx|e'].
    2:{ destruct (IH (mkNode symbol [x; b]) c w (Raise e') wx vs iend Hnode) as (wfin & Hfin & _);
          [done|].
        exists wfin. split; [done|]. by intros [? ?]. }
    destruct (Hrest vx eq_refl) as (wend & Heach & Hend). cbn in Heach.
    destruct (inorder b wx) as [[vb|e'] wb]; [|done].
    destruct (inorder c wb) as [[vc|e'] wc] eqn:Hc; [|done].
    destruct (inorder_each inorder rest wc) as [[vs'|e'] w2] eqn:Hrest'; [|done].
    injection Heach as <- <-.
    destruct (IH (mkNode symbol [x; b]) c w _ _ (vc :: vs') iend Hnode) as (wfin & Hfin & Hok).
    + intros v' _.
      destruct (inorder_each_shift (c :: rest) wb (Ok (vc :: vs')) w2
                  (applied wb ++ [Applied symbol [vx; vb]])) as (a' & Ha').
      { cbn. by rewrite Hc, Hrest'. }
      eexists. split; [exact Ha'|]. cbn. done.
    + exists wfin. split; [exact Hfin|exact Hok].
Qed.
End Fold.

(** X4.  With a linking function [f] of two arguments that is not also a
    terminal, the linked tree evaluates to [f] folded over the values of the
    trees from the left, [f(f(f(v1, v2), v3), ...)]: the trees are evaluated
    in their order, each reading the ephemeral constants it reads when the
    trees are traversed one after the other, and the first exception of [f]
    is the outcome. *)
Theorem link_left_fold symbol e depth t1 t2 rest w v1 v2 vs w' :
  linking_function cls = Some symbol →
  functions cls !! symbol = Some e →
  fn_args e = 2 →
  symbol ∉ terminals cls →
  List.length rest < depth →
  inorder_each inorder (t1 :: t2 :: rest) w = (Ok (v1 :: v2 :: vs), w') →
  ∃ t wfin,
    link cls depth (t1 :: t2 :: rest) = Ok t
    ∧ inorder t w = (link_values (fn_f e) v1 (v2 :: vs), wfin)
    ∧ (is_Ok (link_values (fn_f e) v1 (v2 :: vs)) → erc_index wfin = erc_index w').
Proof.
  intros Hs He H2 Hnt Hdepth Heach.
  exists (chain (List.length rest) symbol 2 (t1 :: t2 :: rest)).
  assert (link cls depth (t1 :: t2 :: rest)
          = Ok (chain (List.length rest) symbol 2 (t1 :: t2 :: rest))) as Hlink.
  { unfold link. rewrite Hs, He, H2.
    apply link_recursive_outcome. exists (List.length rest).
    split_and!; [done|cbn; lia|right; lia|done]. }
  cbn in Heach.
  destruct (inorder t1 w) as [[v1'|?] w1] eqn:H1; [|done].
  destruct (inorder t2 w1) as [[v2'|?] w2] eqn:Ht2; [|done].
  destruct (inorder_each inorder rest w2) as [[vs'|?] w3] eqn:Hr; [|done].
  injection Heach as <- <- <- <-.
  destruct (chain_fold symbol e He Hnt rest t1 t2 w (Ok v1') w1 (v2' :: vs') (erc_index w3) H1)
    as (wfin & Hfin & Hok).
  { intros vx _. exists w3. split; [|done]. cbn. by rewrite Ht2, Hr. }
  exists wfin. split; [done|]. split; [exact Hfin|exact Hok].
Qed.

End LinkMore.

(** ** The cache across calls *)

Lemma cache_set_fresh key v d :
  cache_get key d = None → cache_set key v d = d ++ [(key, v)].
Proof.
  induction d as [|[k v'] d IH]; cbn; [done|].
  destruct (fingerprint_eqb k key); [done|]. intros H. by rewrite IH.
Qed.

Lemma cache_set_last key v v' d :
  cache_get key d = None → cache_set key v' (d ++ [(key, v)]) = d ++ [(key, v')].
Proof.
  induction d as [|[k v0] d IH]; cbn.
  - by rewrite fingerprint_eqb_refl.
  - destruct (fingerprint_eqb k key); [done|]. intros H. by rewrite IH.
Qed.

Lemma cache_get_app key d d' v :
  cache_get key d = Some v → cache_get key (d ++ d') = Some v.
Proof.
  induction d as [|[k v0] d IH]; cbn; [done|].
  by destruct (fingerprint_eqb k key).
Qed.

Section CacheFacts.
Variable cls : Class.
Variable recursion_limit : nat.
Local Abbreviation evaluate := (evaluate cls recursion_limit).

(** A call adds at most one entry to the cache, at its end, and only when it
    returns. *)
Lemma evaluate_cache self tv r self' log :
  evaluate self tv = (r, self', log) →
  _values_ self' = _values_ self
  ∨ ∃ v, r = Ok v ∧ _values_ self' = _values_ self ++ [(sorted (map_to_list tv), v)].
Proof.
  unfold Chromosome.evaluate.
  destruct (cache_get _ (_values_ self)) as [v0|] eqn:Hget.
  { intros [= <- <- <-]. auto. }
  destruct (decoded cls self) as [[ts|e] log1]; [|intros [= <- <- <-]; auto].
  destruct (expression_tree cls recursion_limit ts) as [[t|e] log2];
    [|intros [= <- <- <-]; auto].
  destruct (inorder _ _ _ _ _) as [r0 w].
  destruct r0 as [[]|[]]; intros [= <- <- <-]; cbn; auto;
    right; eexists; (split; [reflexivity|]);
    rewrite ?(cache_set_fresh _ _ _ Hget), ?(cache_set_last _ _ _ _ Hget); done.
Qed.

(** X5.  A value that [evaluate] returned stays cached through every later
    call, whatever the bindings and the outcome of that call: asked again,
    it is returned with nothing decoded, linked or applied, and the
    chromosome is left as it is. *)
Theorem evaluate_memo_survives self tv v self1 log1 tv' r self2 log2 :
  evaluate self tv = (Ok v, self1, log1) →
  evaluate self1 tv' = (r, self2, log2) →
  evaluate self2 tv = (Ok v, self2, []).
Proof.
  intros H1 H2. apply evaluate_hit.
  apply evaluate_Ok_cached in H1.
  destruct (evaluate_cache _ _ _ _ _ H2) as [->|(v' & _ & ->)]; [done|].
  by apply cache_get_app.
Qed.

Lemma set_trees_set_trees self ts ts' : set_trees (set_trees self ts) ts' = set_trees self ts'.
Proof. done. Qed.

(** X6.  A call of [evaluate] that raises leaves the cache as it was, with
    nothing under its bindings, and raises the same exception when it is
    repeated; if it leaves the chromosome without trees, it leaves it
    unchanged. *)
Theorem evaluate_failure self tv e self' log :
  evaluate self tv = (Raise e, self', log) →
  _values_ self' = _values_ self
  ∧ cache_get (sorted (map_to_list tv)) (_values_ self') = None
  ∧ (trees self' = [] → self' = self)
  ∧ ∃ log', evaluate self' tv = (Raise e, self', log').
Proof.
  unfold Chromosome.evaluate.
  destruct (cache_get _ (_values_ self)) as [v0|] eqn:Hget; [done|].
  unfold decoded.
  destruct (trees self) as [|t0 ts0] eqn:Htrees; cbn [List.length Nat.eqb].
  - destruct (build_trees cls (genes self)) as [ts|e1] eqn:Hdec.
    2:{ intros [= <- <- <-]. split_and!; [done|done|done|].
        rewrite Hget, Htrees. cbn [List.length Nat.eqb]. rewrite Hdec. by eexists. }
    destruct (expression_tree cls recursion_limit ts) as [[t|e2] log2] eqn:Htree.
    2:{ intros [= <- <- <-]. cbn. split_and!; [done|done| |].
        { intros ->. destruct self; cbn in *; by subst. }
        rewrite Hget. destruct ts as [|t1 ts1]; cbn [List.length Nat.eqb].
        - rewrite Hdec, Htree. by eexists.
        - rewrite Htree. by eexists. }
    destruct (inorder _ _ _ _ _) as [r0 w] eqn:Hin.
    destruct r0 as [[]|[]]; intros [= <- <- <-]; cbn; (split_and!; [done|done| |]);
      try (intros ->; destruct self; cbn in *; by subst);
      rewrite Hget; (destruct ts as [|t1 ts1]; cbn [List.length Nat.eqb];
        [rewrite Hdec|]; rewrite Htree, set_trees_set_trees, Hin; by eexists).
  - destruct (expression_tree cls recursion_limit (t0 :: ts0)) as [[t|e2] log2] eqn:Htree.
    2:{ intros [= <- <- <-]. cbn. split_and!; [done|done|done|].
        rewrite Hget. cbn [List.length Nat.eqb]. rewrite Htree. by eexists. }
    destruct (inorder _ _ _ _ _) as [r0 w] eqn:Hin.
    destruct r0 as [[]|[]]; intros [= <- <- <-]; cbn; (split_and!; [done|done|done|]);
      rewrite Hget; cbn [List.length Nat.eqb];
      rewrite Htree, set_trees_set_trees, Hin; by eexists.
Qed.

End CacheFacts.

(** ** More on evaluation *)

Section TraversalFacts.
Variable cls : Class.
Variable recursion_limit : nat.
Local Abbreviation evaluate := (evaluate cls recursion_limit).
Local Abbreviation arity_ok := (arity_ok cls).

Lemma inorder_each_erc (f g : Node → walk → result value * walk) kids :
  Forall (λ t, ∀ w, f t w = g t w) kids →
  ∀ w, inorder_each f kids w = inorder_each g kids w.
Proof.
  induction 1 as [|k kids Hk _ IH]; intros w; cbn; [done|].
  rewrite Hk. destruct (g k w) as [[v|e] w1]; [|done]. by rewrite IH.
Qed.

(** The traversal reads nothing of the chromosome but its constants. *)
Lemma inorder_erc self1 self2 tv t :
  ephemeral_random_constants self1 = ephemeral_random_constants self2 →
  ∀ w, inorder cls self1 tv t w = inorder cls self2 tv t w.
Proof.
  intros Herc. induction t as [nm kids IH] using Node_ind. intros w. cbn.
  rewrite Herc. case_bool_decide; [done|].
  destruct (functions cls !! nm) as [e|]; [|done].
  by rewrite (inorder_each_erc _ _ kids IH).
Qed.

Lemma inorder_each_length (f : Node → walk → result value * walk) kids :
  ∀ w vs w', inorder_each f kids w = (Ok vs, w') → List.length vs = List.length kids.
Proof.
  induction kids as [|k kids IH]; intros w vs w'; cbn.
  - by intros [= <- _].
  - destruct (f k w) as [[v|e] w1]; [|done].
    destruct (inorder_each f kids w1) as [[vs'|e] w2] eqn:Hrest; [|done].
    intros [= <- _]. cbn. f_equal. by eapply IH.
Qed.

(** What a traversal adds to the log, given what each node adds. *)
Lemma inorder_each_log (P : event → Prop) (f : Node → walk → result value * walk) kids :
  Forall (λ t, ∀ w r w', f t w = (r, w') →
                ∃ new, applied w' = applied w ++ new ∧ Forall P new) kids →
  ∀ w r w', inorder_each f kids w = (r, w') →
    ∃ new, applied w' = applied w ++ new ∧ Forall P new.
Proof.
  induction 1 as [|k kids Hk _ IH]; intros w r w'; cbn.
  - intros [= <- <-]. exists []. by rewrite app_nil_r.
  - destruct (f k w) as [[v|e] w1] eqn:Hkw.
    + destruct (Hk _ _ _ Hkw) as (new1 & Heq1 & HP1).
      destruct (inorder_each f kids w1) as [[vs|e] w2] eqn:Hrest;
        destruct (IH _ _ _ Hrest) as (new2 & Heq2 & HP2);
        intros [= <- <-]; exists (new1 ++ new2);
        (split; [by rewrite Heq2, Heq1, app_assoc|by apply Forall_app]).
    + intros [= <- <-]. by apply (Hk _ _ _ Hkw).
Qed.

Lemma inorder_log self tv t : ∀ w r w',
  inorder cls self tv t w = (r, w') →
  ∃ new, applied w' = applied w ++ new
         ∧ Forall (λ ev, ∀ gene, ev ≠ Decoded gene) new.
Proof.
  induction t as [nm kids IH] using Node_ind. intros w r w'. cbn.
  assert (∀ a : list event, ∃ new, a = a ++ new
            ∧ Forall (λ ev, ∀ gene, ev ≠ Decoded gene) new) as Hnil.
  { intros a. exists []. by rewrite app_nil_r. }
  case_bool_decide.
  - destruct (String.eqb nm "?").
    + destruct (_ !! _); intros [= <- <-]; apply Hnil.
    + destruct (constants cls !! nm); [intros [= <- <-]; apply Hnil|].
      destruct (isdigit nm); [intros [= <- <-]; apply Hnil|].
      destruct (tv !! nm); intros [= <- <-]; apply Hnil.
  - destruct (functions cls !! nm) as [e|]; [|intros [= <- <-]; apply Hnil].
    destruct (inorder_each _ kids w) as [[vs|e'] w1] eqn:Heach;
      destruct (inorder_each_log _ _ kids IH _ _ _ Heach) as (new & Heq & HP);
      intros [= <- <-]; cbn.
    + exists (new ++ [Applied nm vs]). rewrite Heq, app_assoc. split; [done|].
      apply Forall_app. split; [done|]. by repeat constructor.
    + by exists new.
Qed.

Lemma expression_tree_log ts r log :
  expression_tree cls recursion_limit ts = (r, log) → ∀ gene, Decoded gene ∉ log.
Proof.
  unfold expression_tree. destruct (1 <? num_genes cls); intros [= _ <-] gene Hin;
    apply list_elem_of_In in Hin; cbn in Hin; intuition discriminate.
Qed.

(** X7.  Once a chromosome has trees, [evaluate] does not read its genes:
    two chromosomes with the same trees, cache and constants evaluate alike
    whatever their genes are, the trees stay as they are and no gene is
    decoded. *)
Theorem evaluate_ignores_genes self1 self2 tv :
  trees self1 ≠ [] →
  trees self2 = trees self1 →
  _values_ self2 = _values_ self1 →
  ephemeral_random_constants self2 = ephemeral_random_constants self1 →
  let '(r1, self1', log1) := evaluate self1 tv in
  let '(r2, self2', log2) := evaluate self2 tv in
  r2 = r1 ∧ log2 = log1
  ∧ trees self2' = trees self1' ∧ _values_ self2' = _values_ self1'
  ∧ trees self1' = trees self1
  ∧ ∀ gene, Decoded gene ∉ log1.
Proof.
  intros Hne Ht Hv Herc. unfold Chromosome.evaluate. rewrite Hv.
  destruct (cache_get _ (_values_ self1)) as [v0|] eqn:Hget.
  { split_and!; try done. intros gene. apply not_elem_of_nil. }
  unfold decoded. rewrite Ht.
  destruct (trees self1) as [|t0 ts0] eqn:Htrees; [done|]. cbn [List.length Nat.eqb].
  assert (∀ t w, inorder cls (set_trees self2 (t0 :: ts0)) tv t w
                 = inorder cls (set_trees self1 (t0 :: ts0)) tv t w) as Hin.
  { intros t w. by apply inorder_erc. }
  destruct (expression_tree cls recursion_limit (t0 :: ts0)) as [[t|e] log2] eqn:Htree.
  2:{ split_and!; try done. intros gene. cbn. by eapply expression_tree_log. }
  rewrite Hin.
  destruct (inorder _ _ _ _ _) as [r w] eqn:Hw.
  destruct (inorder_log _ _ _ _ _ _ Hw) as (new & Hnew & HP). cbn in Hnew.
  assert (∀ gene, Decoded gene ∉ [] ++ log2 ++ applied w) as Hlog.
  { intros gene. cbn. rewrite Hnew, elem_of_app. intros [Hl|Hn].
    - by eapply expression_tree_log.
    - rewrite Forall_forall in HP. by apply (HP _ Hn gene). }
  destruct r as [[]|[]]; cbn; rewrite ?Hv; split_and!; done.
Qed.

(** What a call comes to on a fresh chromosome of one gene. *)
Lemma evaluate_single self tv gene t r w :
  num_genes cls ≤ 1 →
  genes self = [gene] → trees self = [] →
  cache_get (sorted (map_to_list tv)) (_values_ self) = None →
  build_tree cls gene = Ok t →
  inorder cls (set_trees self [t]) tv t {| erc_index := 0; applied := [] |} = (r, w) →
  ∃ self',
    evaluate self tv = (guarded r, self', Decoded gene :: applied w) ∧
    trees self' = [t] ∧
    match guarded r with
    | Ok v => cache_get (sorted (map_to_list tv)) (_values_ self') = Some v
    | Raise _ => self' = set_trees self [t]
    end.
Proof.
  intros Hn Hg Ht Hget Hbuild Hin.
  unfold Chromosome.evaluate. rewrite Hget. unfold decoded. rewrite Ht, Hg.
  cbn [List.length Nat.eqb build_trees reached]. rewrite Hbuild. cbn [bind].
  unfold expression_tree. rewrite (proj2 (Nat.ltb_ge _ _) Hn), Hin.
  destruct r as [[]|[]]; cbn; eexists; (split_and!; [reflexivity|done|]);
    cbn; try done; apply cache_get_set.
Qed.

(** X8.  A symbol that is neither a terminal nor a function is not
    rejected: a fresh chromosome of one gene that begins with such a symbol
    decodes to that leaf and evaluates to [None], which is cached; and the
    scorers then raise [TypeError] on the first fitness case. *)
Theorem evaluate_unknown_symbol self tv c rest :
  let gene := String c rest in
  chr c ∉ terminals cls → functions cls !! chr c = None →
  num_genes cls ≤ 1 →
  genes self = [gene] → trees self = [] →
  cache_get (sorted (map_to_list tv)) (_values_ self) = None →
  ∃ self',
    evaluate self tv = (Ok VNone, self', [Decoded gene])
    ∧ trees self' = [mkNode (chr c) []]
    ∧ cache_get (sorted (map_to_list tv)) (_values_ self') = Some VNone
    ∧ ∀ ar M T_j post,
        fitness_cases cls = (tv, T_j) :: post → _fitness_ self = None →
        absolute_fitness cls recursion_limit ar M [self] = (Raise TypeError, [self'])
        ∧ inv_squared_error cls recursion_limit ar [self] = (Raise TypeError, [self']).
Proof.
  intros gene Hnt Hnf Hn Hg Ht Hget.
  assert (build_tree cls gene = Ok (mkNode (chr c) [])) as Hbuild.
  { apply build_tree_leaf. unfold args. by rewrite Hnf. }
  destruct (evaluate_single self tv gene _ (Ok VNone)
              {| erc_index := 0; applied := [] |} Hn Hg Ht Hget Hbuild)
    as (self' & Hev & Htrees & Hcache).
  { cbn. rewrite bool_decide_false by done. by rewrite Hnf. }
  exists self'. split_and!; try done.
  intros ar M T_j post Hcases Hnone. cbn in Hev. split.
  - cbn [Chromosome.absolute_fitness]. unfold absolute_fitness1.
    rewrite Hnone, Hcases. cbn [absolute_cases]. by rewrite Hev.
  - cbn [Chromosome.inv_squared_error]. unfold inv_squared_error1.
    rewrite Hnone, Hcases. cbn [squared_cases]. by rewrite Hev.
Qed.

Lemma isdigit_chr c :
  isdigit (chr c) = isdigit_char c.
Proof. unfold isdigit. cbn. by rewrite andb_true_r. Qed.

(** X9.  A fresh chromosome of one gene that begins with a terminal (not
    ["?"], not a constant, not a function) evaluates to that terminal,
    whatever follows in the gene: a decimal digit is its number, whatever
    the bindings say; a superscript digit, which [isdigit] accepts and
    [int] rejects, is a [ValueError]; another symbol is what the bindings
    give it, and [KeyError] when they give nothing.  When the call raises,
    the trees are kept and nothing is cached. *)
Theorem evaluate_terminal_gene self tv c rest :
  let gene := String c rest in
  chr c ∈ terminals cls → chr c ≠ "?" →
  functions cls !! chr c = None → constants cls !! chr c = None →
  num_genes cls ≤ 1 →
  genes self = [gene] → trees self = [] →
  cache_get (sorted (map_to_list tv)) (_values_ self) = None →
  let leaf := mkNode (chr c) [] in
  match digit_value c with
  | Some d =>
      ∃ self', evaluate self tv
               = (Ok (VReal (inject_Z (Z.of_nat d))), self', [Decoded gene])
  | None =>
      if isdigit_char c
      then evaluate self tv = (Raise ValueError, set_trees self [leaf], [Decoded gene])
      else
        match tv !! chr c with
        | Some q => ∃ self', evaluate self tv = (Ok (VReal q), self', [Decoded gene])
        | None => evaluate self tv = (Raise KeyError, set_trees self [leaf], [Decoded gene])
        end
  end.
Proof.
  intros gene Hterm Hq Hnf Hnc Hn Hg Ht Hget leaf.
  assert (build_tree cls gene = Ok leaf) as Hbuild.
  { apply build_tree_leaf. unfold args. by rewrite Hnf. }
  assert (String.eqb (chr c) "?" = false) as Hq' by by apply String.eqb_neq.
  assert (∀ r, (if isdigit (chr c) then int (chr c)
                else match tv !! chr c with
                     | Some q => Ok (VReal q)
                     | None => Raise KeyError
                     end) = r →
            inorder cls (set_trees self [leaf]) tv leaf {| erc_index := 0; applied := [] |}
            = (r, {| erc_index := 0; applied := [] |})) as Hleaf.
  { intros r <-. unfold leaf. cbn [Chromosome.inorder].
    rewrite bool_decide_true by done. rewrite Hq', Hnc.
    by destruct (isdigit (chr c)), (tv !! chr c). }
  destruct (digit_value c) as [d|] eqn:Hd.
  - destruct (evaluate_single self tv gene leaf (Ok (VReal (inject_Z (Z.of_nat d))))
                {| erc_index := 0; applied := [] |} Hn Hg Ht Hget Hbuild)
      as (self' & Hev & _ & _); [|by exists self'].
    apply Hleaf. rewrite isdigit_chr.
    assert (isdigit_char c = true) as ->.
    { unfold digit_value in Hd. unfold isdigit_char.
      destruct (_ && _); [done|discriminate]. }
    unfold int. cbn. rewrite Hd. cbn. done.
  - destruct (isdigit_char c) eqn:Hnd.
    { destruct (evaluate_single self tv gene leaf (Raise ValueError)
                  {| erc_index := 0; applied := [] |} Hn Hg Ht Hget Hbuild)
        as (self' & Hev & _ & ->); [|done].
      apply Hleaf. rewrite isdigit_chr, Hnd. unfold int. cbn. by rewrite Hd. }
    destruct (tv !! chr c) as [q|] eqn:Hq2.
    + destruct (evaluate_single self tv gene leaf (Ok (VReal q))
                  {| erc_index := 0; applied := [] |} Hn Hg Ht Hget Hbuild)
        as (self' & Hev & _ & _); [|by exists self'].
      apply Hleaf. by rewrite isdigit_chr, Hnd, ?Hq2.
    + destruct (evaluate_single self tv gene leaf (Raise KeyError)
                  {| erc_index := 0; applied := [] |} Hn Hg Ht Hget Hbuild)
        as (self' & Hev & _ & ->); [|done].
      apply Hleaf. by rewrite isdigit_chr, Hnd, ?Hq2.
Qed.

End TraversalFacts.

(** ** Callables and arities *)

Section ArityFacts.
Variable cls : Class.
Variable recursion_limit : nat.
Local Abbreviation evaluate := (evaluate cls recursion_limit).
Local Abbreviation arity_ok := (arity_ok cls).
Local Abbreviation args := (args cls).
Local Abbreviation by_arity := (by_arity cls).

Lemma level_nodes_app k : ∀ a b,
  level_nodes k (a ++ b) = level_nodes k a ++ level_nodes k b.
Proof.
  induction k as [|k IH]; intros a b; [done|].
  cbn. by rewrite map_app, concat_app, IH.
Qed.

Lemma level_nodes_elem k nd kid kids :
  kid ∈ kids → nd ∈ level_nodes k [kid] → nd ∈ level_nodes k kids.
Proof.
  intros (l1 & l2 & ->)%list_elem_of_split Hnd.
  change (kid :: l2) with ([kid] ++ l2).
  rewrite !level_nodes_app, !elem_of_app. auto.
Qed.

Lemma arity_ok_levels t :
  (∀ k nd, nd ∈ level_nodes k [t] → List.length (children nd) = args (name nd)) →
  arity_ok t = true.
Proof.
  induction t as [nm kids IH] using Node_ind. intros H. cbn.
  apply andb_true_intro. split.
  - apply Nat.eqb_eq. apply (H 0 (mkNode nm kids)). cbn. apply list_elem_of_here.
  - apply forallb_forall. intros kid Hkid%list_elem_of_In.
    rewrite Forall_forall in IH. apply (IH kid Hkid).
    intros k nd Hnd. apply (H (S k)). cbn. rewrite app_nil_r.
    by eapply level_nodes_elem.
Qed.

Lemma build_tree_arity_ok gene t : build_tree cls gene = Ok t → arity_ok t = true.
Proof.
  intros (_ & _ & H)%build_tree_shape. apply arity_ok_levels.
  intros k nd (j & Hj)%list_elem_of_lookup. by destruct (H k j nd Hj).
Qed.

Lemma build_trees_arity_ok genes ts :
  build_trees cls genes = Ok ts → Forall (λ t, arity_ok t = true) ts.
Proof.
  revert ts. induction genes as [|g genes IH]; intros ts; cbn.
  - by intros [= <-].
  - destruct (build_tree cls g) as [t|] eqn:Ht; [|done]. cbn.
    destruct (build_trees cls genes) as [ts'|]; [|done]. cbn.
    intros [= <-]. constructor; [by eapply build_tree_arity_ok|by apply IH].
Qed.

Lemma arity_ok_node nm kids :
  arity_ok (mkNode nm kids) = true
  ↔ List.length kids = args nm ∧ Forall (λ t, arity_ok t = true) kids.
Proof.
  cbn. rewrite andb_true_iff, Nat.eqb_eq, forallb_forall, Forall_forall.
  split; intros [? H]; (split; [done|]); intros x Hx; apply H;
    by apply list_elem_of_In.
Qed.

Lemma link_recursive_arity_ok symbol depth : ∀ ts t,
  Chromosome.link_recursive depth symbol (args symbol) ts = Ok t →
  Forall (λ t, arity_ok t = true) ts → arity_ok t = true.
Proof.
  induction depth as [|depth IH]; intros ts t; [done|]. cbn [Chromosome.link_recursive].
  destruct (List.length ts =? args symbol) eqn:Heq.
  - apply Nat.eqb_eq in Heq. intros [= <-] Hts. by apply arity_ok_node.
  - destruct (Chromosome.link_recursive depth symbol (args symbol) (take (args symbol) ts))
      as [inner|] eqn:Hin; [|done].
    cbn [bind]. intros Ht Hts. apply (IH _ _ Ht). constructor.
    + apply (IH _ _ Hin). by apply Forall_take.
    + by apply Forall_drop.
Qed.

Lemma expression_tree_arity_ok ts t log :
  expression_tree cls recursion_limit ts = (Ok t, log) →
  Forall (λ t, arity_ok t = true) ts →
  arity_ok t = true ∧ ∀ f vs, Applied f vs ∉ log.
Proof.
  unfold expression_tree. destruct (1 <? num_genes cls).
  - intros [= Hlink <-] Hts. split.
    + unfold link in Hlink. destruct (linking_function cls) as [symbol|]; [|done].
      destruct (functions cls !! symbol) as [e|] eqn:He; [|done].
      apply (link_recursive_arity_ok symbol recursion_limit ts); [|done].
      unfold args. by rewrite He.
    + intros f vs Hin. apply list_elem_of_In in Hin. cbn in Hin. intuition discriminate.
  - destruct ts as [|t0 ts]; [done|]. intros [= <- <-] Hts. split.
    + by apply Forall_cons in Hts as [? _].
    + intros f vs. apply not_elem_of_nil.
Qed.

Lemma inorder_by_arity self tv t :
  arity_ok t = true →
  ∀ w r w', inorder cls self tv t w = (r, w') →
    ∃ new, applied w' = applied w ++ new ∧ Forall by_arity new.
Proof.
  induction t as [nm kids IH] using Node_ind.
  intros [Hlen Hkids]%arity_ok_node w r w'. cbn.
  assert (∀ a : list event, ∃ new, a = a ++ new ∧ Forall by_arity new) as Hnil.
  { intros a. exists []. by rewrite app_nil_r. }
  case_bool_decide.
  - destruct (String.eqb nm "?").
    + destruct (_ !! _); intros [= <- <-]; apply Hnil.
    + destruct (constants cls !! nm); [intros [= <- <-]; apply Hnil|].
      destruct (isdigit nm); [intros [= <- <-]; apply Hnil|].
      destruct (tv !! nm); intros [= <- <-]; apply Hnil.
  - destruct (functions cls !! nm) as [e|] eqn:He; [|intros [= <- <-]; apply Hnil].
    assert (Forall (λ t, ∀ w r w', inorder cls self tv t w = (r, w') →
                     ∃ new, applied w' = applied w ++ new ∧ Forall by_arity new) kids)
      as IH'.
    { rewrite Forall_forall in IH, Hkids. apply Forall_forall. intros kid Hkid.
      apply (IH kid Hkid). by apply Hkids. }
    destruct (inorder_each _ kids w) as [[vs|e'] w1] eqn:Heach;
      destruct (inorder_each_log by_arity _ kids IH' _ _ _ Heach) as (new & Heq & HP);
      intros [= <- <-]; cbn.
    + exists (new ++ [Applied nm vs]). rewrite Heq, app_assoc. split; [done|].
      apply Forall_app. split; [done|]. constructor; [|constructor].
      intros f vs' [= <- <-]. exists e. split; [done|].
      rewrite (inorder_each_length _ _ _ _ _ Heach), Hlen.
      unfold args. by rewrite He.
    + by exists new.
Qed.

(** X10.  [evaluate] applies callables by their arity: if the trees of the
    chromosome (none, for a new one) have at every node as many children as
    the symbol takes arguments, so have they after the call, and every
    application of the call is of a registered callable to as many
    arguments as it is registered with. *)
Theorem evaluate_applies_by_arity self tv r self' log :
  Forall (λ t, arity_ok t = true) (trees self) →
  evaluate self tv = (r, self', log) →
  Forall (λ t, arity_ok t = true) (trees self')
  ∧ ∀ f vs, Applied f vs ∈ log →
      ∃ e, functions cls !! f = Some e ∧ List.length vs = fn_args e.
Proof.
  intros Hself. unfold Chromosome.evaluate.
  destruct (cache_get _ (_values_ self)) as [v0|] eqn:Hget.
  { intros [= <- <- <-]. split; [done|]. by intros f vs ?%not_elem_of_nil. }
  destruct (decoded cls self) as [r1 log1] eqn:Hdec.
  assert (∀ f vs, Applied f vs ∉ log1) as Hlog1.
  { unfold decoded in Hdec. destruct (_ =? 0); injection Hdec as _ <-.
    - intros f vs (g & ? & _)%list_elem_of_fmap. done.
    - intros f vs. apply not_elem_of_nil. }
  destruct r1 as [ts|e].
  2:{ intros [= <- <- <-]. split; [done|]. intros f vs Hin. by apply Hlog1 in Hin. }
  assert (Forall (λ t, arity_ok t = true) ts) as Hts.
  { unfold decoded in Hdec. destruct (_ =? 0); injection Hdec as Hdec _.
    - by eapply build_trees_arity_ok.
    - by subst. }
  destruct (expression_tree cls recursion_limit ts) as [[t|e] log2] eqn:Htree.
  2:{ intros [= <- <- <-]. split; [done|]. intros f vs [Hin|Hin]%elem_of_app.
      - by apply Hlog1 in Hin.
      - unfold expression_tree in Htree.
        destruct (1 <? num_genes cls); injection Htree as _ <-;
          apply list_elem_of_In in Hin; cbn in Hin; intuition discriminate. }
  destruct (expression_tree_arity_ok ts t log2 Htree Hts) as [Ht Hlog2].
  destruct (inorder _ _ _ _ _) as [r0 w] eqn:Hin.
  destruct (inorder_by_arity _ _ _ Ht _ _ _ Hin) as (new & Hnew & HP). cbn in Hnew.
  assert (∀ f vs, Applied f vs ∈ log1 ++ log2 ++ applied w →
            ∃ e, functions cls !! f = Some e ∧ List.length vs = fn_args e) as Hlog.
  { intros f vs [Hl|[Hl|Hl]%elem_of_app]%elem_of_app.
    - by apply Hlog1 in Hl.
    - by apply Hlog2 in Hl.
    - rewrite Hnew in Hl. rewrite Forall_forall in HP. by apply (HP _ Hl f vs). }
  destruct r0 as [[]|[]]; intros [= <- <- <-]; cbn; split; done.
Qed.

End ArityFacts.

(** ** The constructor and the scorers *)

Section InitFacts.
Variable cls : Class.

Local Abbreviation ready := (ready cls).

Lemma init_ready uniform gs low high len :
  ready gs →
  ephemeral_random_constants_range cls = Some (low, high) →
  length cls = Some len →
  __init__ cls uniform gs
  = Ok {| genes := gs; trees := []; _values_ := []; _fitness_ := None;
          ephemeral_random_constants := uniform low high len |}.
Proof.
  intros (Hf & Ht & _ & [h Hh] & Hlink & Hn) Hr Hlen. unfold __init__.
  rewrite bool_decide_false by done.
  destruct (terminals cls) as [|t0 ts0]; [done|]. cbn [List.length Nat.eqb].
  rewrite Hlen, Hh, Hr, Hn, Nat.eqb_refl. cbn [negb].
  destruct (linking_function cls) as [l|].
  - by rewrite bool_decide_false.
  - rewrite bool_decide_true by done. specialize (Hlink eq_refl).
    by rewrite (proj2 (Nat.ltb_ge _ _)) by lia.
Qed.

(** X11.  What the constructor comes to: a chromosome with the given genes,
    no trees, an empty cache, no fitness and [length] constants, exactly
    when the class is ready and has a range for the constants; a
    [TypeError] exactly when the class is ready and has no range while ["?"]
    is no terminal; and a [ValueError] otherwise.  The genes themselves are
    not looked at. *)
Theorem init_outcome uniform gs :
  (∀ self,
     __init__ cls uniform gs = Ok self
     ↔ ready gs ∧ ∃ low high len,
         ephemeral_random_constants_range cls = Some (low, high)
         ∧ length cls = Some len
         ∧ self = {| genes := gs; trees := []; _values_ := []; _fitness_ := None;
                     ephemeral_random_constants := uniform low high len |})
  ∧ (__init__ cls uniform gs = Raise TypeError
     ↔ ready gs ∧ ephemeral_random_constants_range cls = None ∧ "?" ∉ terminals cls)
  ∧ (∀ e, __init__ cls uniform gs = Raise e → e = ValueError ∨ e = TypeError).
Proof.
  assert (∀ (P : chromosome → Prop) (Q : Prop), ¬ ready gs →
            (∀ self, @Raise chromosome ValueError = Ok self ↔ ready gs ∧ P self)
            ∧ (@Raise chromosome ValueError = Raise TypeError ↔ ready gs ∧ Q)
            ∧ (∀ e, @Raise chromosome ValueError = Raise e → e = ValueError ∨ e = TypeError))
    as Hfails.
  { intros P Q Hnr. split_and!.
    - intros self. split; [done|]. by intros [? _].
    - split; [done|]. by intros [? _].
    - intros e [= <-]. auto. }
  unfold __init__.
  case_bool_decide as Hf.
  { apply Hfails. by intros (? & _). }
  destruct (terminals cls) as [|t0 ts0] eqn:Hterm; cbn [List.length Nat.eqb].
  { apply Hfails. intros (_ & Ht & _). by rewrite Hterm in Ht. }
  destruct (length cls) as [len|] eqn:Hlen.
  2:{ apply Hfails. intros (_ & _ & [? Hs] & _). by rewrite Hlen in Hs. }
  destruct (head_length cls) as [h|] eqn:Hhead.
  2:{ apply Hfails. intros (_ & _ & _ & [? Hs] & _). by rewrite Hhead in Hs. }
  destruct (bool_decide (linking_function cls = None) && (1 <? List.length gs)) eqn:Hlink.
  { apply andb_true_iff in Hlink as [Hl%bool_decide_eq_true Hn%Nat.ltb_lt].
    apply Hfails. intros (_ & _ & _ & _ & Hle & _). specialize (Hle Hl). lia. }
  destruct (List.length gs =? num_genes cls) eqn:Hnum; cbn [negb].
  2:{ apply Nat.eqb_neq in Hnum. apply Hfails. by intros (_ & _ & _ & _ & _ & ?). }
  apply Nat.eqb_eq in Hnum.
  assert (ready gs) as Hready.
  { unfold Chromosome.ready. rewrite Hterm, Hlen, Hhead. split_and!; try done; try by eexists.
    intros Hl. apply andb_false_iff in Hlink as [Hb|Hn%Nat.ltb_ge]; [|done].
    by apply bool_decide_eq_false in Hb. }
  destruct (ephemeral_random_constants_range cls) as [[low high]|].
  - split_and!.
    + intros self. split.
      * intros [= <-]. split; [done|]. by exists low, high, len.
      * intros (_ & low' & high' & len' & [= <- <-] & [= <-] & ->). done.
    + split; [done|]. intros (_ & [=] & _).
    + done.
  - destruct (bool_decide ("?" ∈ t0 :: ts0)) eqn:Hq.
    + apply bool_decide_eq_true in Hq. split_and!.
      * intros self. split; [done|]. intros (_ & ? & ? & ? & [=] & _).
      * split; [done|]. intros (_ & _ & Hn). by destruct Hn.
      * intros e [= <-]. auto.
    + apply bool_decide_eq_false in Hq. split_and!.
      * intros self. split; [done|]. intros (_ & ? & ? & ? & [=] & _).
      * done.
      * intros e [= <-]. auto.
Qed.
End InitFacts.

Section ScorerMore.
Variable cls : Class.
Variable recursion_limit : nat.
Variable ar : Arithmetic.
Local Abbreviation evaluate := (evaluate cls recursion_limit).
Local Abbreviation absolute_cases := (absolute_cases cls recursion_limit ar).
Local Abbreviation squared_cases := (squared_cases cls recursion_limit ar).
Local Abbreviation absolute_fitness1 := (absolute_fitness1 cls recursion_limit ar).
Local Abbreviation inv_squared_error1 := (inv_squared_error1 cls recursion_limit ar).
Local Abbreviation absolute_fitness := (absolute_fitness cls recursion_limit ar).
Local Abbreviation inv_squared_error := (inv_squared_error cls recursion_limit ar).

Lemma absolute_fitness_stored M cs : ∀ vs cs',
  absolute_fitness M cs = (Ok vs, cs') → Forall2 (λ v c, _fitness_ c = Some v) vs cs'.
Proof.
  induction cs as [|c cs IH]; intros vs cs'; cbn.
  - intros [= <- <-]. constructor.
  - destruct (absolute_fitness1 M c) as [[v|e] c'] eqn:Hc; [|done].
    destruct (absolute_fitness M cs) as [[vs'|e] cs''] eqn:Hcs; [|done].
    intros [= <- <-]. constructor; [by eapply absolute_fitness1_scored|by apply IH].
Qed.

Lemma inv_squared_error_stored cs : ∀ vs cs',
  inv_squared_error cs = (Ok vs, cs') → Forall2 (λ v c, _fitness_ c = Some v) vs cs'.
Proof.
  induction cs as [|c cs IH]; intros vs cs'; cbn.
  - intros [= <- <-]. constructor.
  - destruct (inv_squared_error1 c) as [[v|e] c'] eqn:Hc; [|done].
    destruct (inv_squared_error cs) as [[vs'|e] cs''] eqn:Hcs; [|done].
    intros [= <- <-]. constructor; [by eapply inv_squared_error1_scored|by apply IH].
Qed.

Lemma scored_again vs cs :
  Forall2 (λ v c, _fitness_ c = Some v) vs cs →
  (∀ M, absolute_fitness M cs = (Ok vs, cs)) ∧ inv_squared_error cs = (Ok vs, cs).
Proof.
  induction 1 as [|v c vs cs Hc _ [IHa IHi]]; [done|]. split.
  - intros M. cbn. unfold Chromosome.absolute_fitness1. by rewrite Hc, IHa.
  - cbn. unfold Chromosome.inv_squared_error1. by rewrite Hc, IHi.
Qed.

(** X12.  A fitness, once computed, is what every scorer returns: after
    [absolute_fitness] or [inv_squared_error] has returned, both return the
    same fitnesses again, for every [M], and leave the chromosomes as they
    are. *)
Theorem scorers_memoised M cs vs cs' :
  absolute_fitness M cs = (Ok vs, cs') ∨ inv_squared_error cs = (Ok vs, cs') →
  (∀ M', absolute_fitness M' cs' = (Ok vs, cs'))
  ∧ inv_squared_error cs' = (Ok vs, cs').
Proof.
  intros [H%absolute_fitness_stored|H%inv_squared_error_stored]; by apply scored_again.
Qed.

(** X13.  Without fitness cases, chromosomes that have no fitness get the
    absolute fitness 0 and the inverse squared error 1, and nothing else of
    them changes: nothing is decoded or evaluated. *)
Theorem scorers_no_cases M cs :
  fitness_cases cls = [] →
  Forall (λ c, _fitness_ c = None) cs →
  absolute_fitness M cs
  = (Ok ((λ _, VReal 0) <$> cs), (λ c, set_fitness c (VReal 0)) <$> cs)
  ∧ inv_squared_error cs
    = (Ok ((λ _, VReal 1) <$> cs), (λ c, set_fitness c (VReal 1)) <$> cs).
Proof.
  intros Hcases. induction 1 as [|c cs Hc _ [IHa IHi]]; [done|]. split.
  - cbn. unfold Chromosome.absolute_fitness1. by rewrite Hc, Hcases, IHa.
  - cbn. unfold Chromosome.inv_squared_error1. rewrite Hc, Hcases.
    cbn [Chromosome.squared_cases]. by rewrite inverse_of_one_plus_0, IHi.
Qed.

Lemma absolute_fitness1_failure M self e self' :
  absolute_fitness1 M self = (Raise e, self') →
  _fitness_ self = None ∧ _fitness_ self' = None ∧ e ≠ ZeroDivisionError.
Proof.
  unfold Chromosome.absolute_fitness1.
  destruct (_fitness_ self) as [v|] eqn:Hf; [done|].
  destruct (absolute_cases M _ self (VReal 0)) as [[f|e'] c] eqn:Hc; [done|].
  intros [= <- <-].
  destruct (absolute_cases_frame cls recursion_limit ar _ _ _ _ _ _ Hc) as [Hf' He].
  split_and!; [done|congruence|by apply He].
Qed.

Lemma inv_squared_error1_failure self e self' :
  inv_squared_error1 self = (Raise e, self') →
  _fitness_ self = None ∧ _fitness_ self' = None ∧ e ≠ ZeroDivisionError.
Proof.
  unfold Chromosome.inv_squared_error1.
  destruct (_fitness_ self) as [v|] eqn:Hf; [done|].
  destruct (squared_cases _ self (VReal 0)) as [[s|e'] c] eqn:Hc.
  - destruct (squared_cases_frame cls recursion_limit ar _ _ _ _ _ Hc) as (Hf' & _ & Hs).
    destruct (inverse_of_one_plus_sign ar s) as [Hz _].
    { apply (Hs s eq_refl). cbn. lra. }
    destruct (inverse_of_one_plus ar s) as [v|e'] eqn:Hinv; [done|].
    intros [= <- <-]. split_and!; [done|congruence|]. by intros ->.
  - intros [= <- <-].
    destruct (squared_cases_frame cls recursion_limit ar _ _ _ _ _ Hc) as (Hf' & He & _).
    split_and!; [done|congruence|by apply He].
Qed.

(** X14.  A scorer that raises does not raise [ZeroDivisionError]; the
    chromosomes before the one it failed on have their fitness, that one
    still has none, and those after it are untouched. *)
Theorem scorers_failure M cs e cs' :
  absolute_fitness M cs = (Raise e, cs') ∨ inv_squared_error cs = (Raise e, cs') →
  e ≠ ZeroDivisionError
  ∧ ∃ scored c rest scored' c',
      cs = scored ++ c :: rest ∧ cs' = scored' ++ c' :: rest
      ∧ List.length scored' = List.length scored
      ∧ _fitness_ c = None ∧ _fitness_ c' = None
      ∧ Forall (λ c, is_Some (_fitness_ c)) scored'.
Proof.
  intros [H|H].
  - revert cs' H. induction cs as [|c cs IH]; intros cs'; cbn; [done|].
    destruct (absolute_fitness1 M c) as [[v|e1] c1] eqn:Hc.
    + destruct (absolute_fitness M cs) as [[vs|e2] cs2] eqn:Hcs; [done|].
      intros [= <- <-].
      destruct (IH _ eq_refl) as (He & scored & c0 & rest & scored' & c0' & -> & -> & Hlen & ? & ? & Hall).
      split; [done|].
      exists (c :: scored), c0, rest, (c1 :: scored'), c0'.
      split_and!; try done; [cbn; by rewrite Hlen|].
      constructor; [|done]. apply absolute_fitness1_scored in Hc. by rewrite Hc.
    + intros [= <- <-]. apply absolute_fitness1_failure in Hc as (? & ? & ?).
      split; [done|]. by exists [], c, cs, [], c1.
  - revert cs' H. induction cs as [|c cs IH]; intros cs'; cbn; [done|].
    destruct (inv_squared_error1 c) as [[v|e1] c1] eqn:Hc.
    + destruct (inv_squared_error cs) as [[vs|e2] cs2] eqn:Hcs; [done|].
      intros [= <- <-].
      destruct (IH _ eq_refl) as (He & scored & c0 & rest & scored' & c0' & -> & -> & Hlen & ? & ? & Hall).
      split; [done|].
      exists (c :: scored), c0, rest, (c1 :: scored'), c0'.
      split_and!; try done; [cbn; by rewrite Hlen|].
      constructor; [|done]. apply inv_squared_error1_scored in Hc. by rewrite Hc.
    + intros [= <- <-]. apply inv_squared_error1_failure in Hc as (? & ? & ?).
      split; [done|]. by exists [], c, cs, [], c1.
Qed.

(** X21.  What numpy's tests do not accept is not scored: when a fitness
    case of a chromosome without fitness evaluates to [None], or to a number
    that numpy has no type for, the cases before it having been added up,
    both scorers raise [TypeError]; the chromosome keeps what the
    evaluations have cached and gets no fitness, and the chromosomes after
    it are not touched. *)
Theorem scorers_type_error M self pre b T_j post qs self1 x self2 log rest :
  _fitness_ self = None →
  fitness_cases cls = pre ++ (b, T_j) :: post →
  evaluate_cases cls recursion_limit pre self = (Ok (VReal <$> qs), self1) →
  Forall (λ q, numpy_takes ar q = true) qs →
  evaluate self1 b = (Ok x, self2, log) →
  x = VNone ∨ (∃ q, x = VReal q ∧ numpy_takes ar q = false) →
  (is_Ok (absolute_sum ar M (VReal 0) qs pre.*2) →
   absolute_fitness M (self :: rest) = (Raise TypeError, self2 :: rest))
  ∧ (is_Ok (squared_sum ar (VReal 0) qs pre.*2) →
     inv_squared_error (self :: rest) = (Raise TypeError, self2 :: rest))
  ∧ _fitness_ self2 = None.
Proof.
  intros Hnone Hcases Hpre Hqs Hb Hx.
  assert (real_case ar x = Raise TypeError) as Hreal.
  { destruct Hx as [->|(q & -> & Hq)]; [done|]. cbn. by rewrite Hq. }
  split_and!.
  - intros Hsum. cbn [Chromosome.absolute_fitness]. unfold Chromosome.absolute_fitness1.
    rewrite Hnone, Hcases.
    by rewrite (absolute_cases_rejected cls recursion_limit ar M pre b T_j post self qs
                  self1 x self2 log (VReal 0) TypeError Hpre Hqs Hsum Hb Hreal).
  - intros Hsum. cbn [Chromosome.inv_squared_error]. unfold Chromosome.inv_squared_error1.
    rewrite Hnone, Hcases.
    by rewrite (squared_cases_rejected cls recursion_limit ar pre b T_j post self qs
                  self1 x self2 log (VReal 0) TypeError Hpre Hqs Hsum Hb Hreal).
  - pose proof (evaluate_frame cls recursion_limit _ _ _ _ _ Hb) as (_ & Hf2 & _).
    rewrite Hf2. clear Hb Hf2 Hreal Hx. revert self qs self1 Hnone Hpre Hqs. clear Hcases.
    induction pre as [|[b' T'] pre IH]; intros self qs self1 Hnone; cbn.
    + by intros [= _ <-].
    + destruct (evaluate self b') as [[[x'|e'] self'] log'] eqn:Hev; [|done].
      destruct (Chromosome.evaluate_cases cls recursion_limit pre self')
        as [[vs|e'] self''] eqn:Hrest; [|done].
      intros [= Hvs <-]. destruct qs as [|q qs]; [done|]. cbn in Hvs.
      injection Hvs as -> ->. intros [_ Hqs]%Forall_cons.
      pose proof (evaluate_frame cls recursion_limit _ _ _ _ _ Hev) as (_ & Hf & _).
      apply (IH self' qs); [congruence|done|done].
Qed.

End ScorerMore.

(** ** Random genes and individuals *)

Section GeneratorFacts.
Variable cls : Class.
Variable keys : list string.
Local Abbreviation generate_random_gene := (generate_random_gene cls keys).
Local Abbreviation generate_random_genes := (generate_random_genes cls keys).
Local Abbreviation generate_random_individual := (generate_random_individual cls keys).
Local Abbreviation args := (args cls).
Local Abbreviation symbols_ok := (symbols_ok cls keys).

Lemma pick_Ok xs s x s' : pick xs s = (Ok x, s') → x ∈ xs.
Proof.
  unfold pick. destruct (randint _ _ s) as [[i|e] s1]; [|done].
  destruct (xs !! Z.to_nat i) as [y|] eqn:Hy; [|done].
  intros [= <- _]. by eapply list_elem_of_lookup_2.
Qed.

Lemma pick_total xs s : xs ≠ [] → ∃ x, pick xs s = (Ok x, λ i, s (S i)).
Proof.
  intros Hne. unfold pick, randint.
  assert (0 < List.length xs) as Hlen by (destruct xs; [done|cbn; lia]).
  rewrite (proj2 (Z.ltb_ge _ _)) by lia.
  destruct (xs !! _) as [x|] eqn:Hx; [by exists x|].
  apply lookup_ge_None in Hx.
  pose proof (Z.mod_pos_bound (Z.of_nat (s 0)) (Z.of_nat (List.length xs) - 1 - 0 + 1)
                ltac:(lia)). lia.
Qed.

Lemma pick_empty s : pick [] s = (Raise ValueError, s).
Proof. done. Qed.

Lemma picks_Ok n xs : ∀ s l s',
  picks n xs s = (Ok l, s') → List.length l = n ∧ Forall (λ x, x ∈ xs) l.
Proof.
  induction n as [|n IH]; intros s l s'; cbn.
  - by intros [= <- _].
  - destruct (pick xs s) as [[x|e] s1] eqn:Hx; [|done].
    destruct (picks n xs s1) as [[l'|e] s2] eqn:Hl; [|done].
    intros [= <- _]. destruct (IH _ _ _ Hl) as [Hlen Hall].
    split; [cbn; by rewrite Hlen|]. constructor; [by eapply pick_Ok|done].
Qed.

Lemma picks_total n xs : xs ≠ [] → ∀ s, ∃ l s', picks n xs s = (Ok l, s').
Proof.
  intros Hne. induction n as [|n IH]; intros s; cbn.
  - by eexists _, _.
  - destruct (pick_total xs s Hne) as [x ->].
    destruct (IH (λ i, s (S i))) as (l & s' & ->). by eexists _, _.
Qed.

Lemma picks_Ok_inv n xs s l s' : picks n xs s = (Ok l, s') → n = 0 ∨ xs ≠ [].
Proof.
  destruct n as [|n]; [auto|]. destruct xs as [|x xs]; [|auto]. done.
Qed.

Lemma picks_raises n xs s e s' : picks n xs s = (Raise e, s') → e = ValueError ∧ xs = [].
Proof.
  destruct xs as [|x xs].
  - destruct n; cbn; [done|]. by intros [= <- _].
  - destruct (picks_total n (x :: xs) ltac:(done) s) as (l & s1 & ->). done.
Qed.

Lemma list_ascii_of_join parts :
  Forall (λ x, String.length x = 1) parts →
  ∃ cs, list_ascii_of_string (join parts) = cs ∧ parts = map chr cs.
Proof.
  induction 1 as [|x parts Hx _ (cs & Hcs & ->)].
  - by exists [].
  - destruct x as [|c [|]]; try done.
    exists (c :: cs). split; [|done].
    change (c :: list_ascii_of_string (join (map chr cs)) = c :: cs). by rewrite Hcs.
Qed.

Lemma generate_random_gene_total h len s :
  head_length cls = Some h → length cls = Some len → terminals cls ≠ [] →
  is_Ok (generate_random_gene s).1.
Proof.
  intros Hh Hlen Ht. unfold Chromosome.generate_random_gene. rewrite Hh, Hlen.
  destruct (picks_total h (keys ++ terminals cls)) with (s := s) as (head & s1 & ->).
  { intros [_ ?]%app_eq_nil. done. }
  destruct (picks_total (len - h) (terminals cls) Ht s1) as (tail & s2 & ->).
  by eexists.
Qed.

(** X16.  [generate_random_gene] returns a gene exactly when the head length
    and the length are set, there is a symbol to draw for the head unless
    the head is empty, and a terminal to draw for the tail unless the tail
    is empty; otherwise it raises [TypeError] or [ValueError]. *)
Theorem generate_random_gene_outcome s :
  (is_Ok (generate_random_gene s).1
   ↔ ∃ h len, head_length cls = Some h ∧ length cls = Some len
              ∧ (h = 0 ∨ keys ++ terminals cls ≠ [])
              ∧ (len ≤ h ∨ terminals cls ≠ []))
  ∧ (∀ e, (generate_random_gene s).1 = Raise e → e = TypeError ∨ e = ValueError).
Proof.
  unfold Chromosome.generate_random_gene.
  destruct (head_length cls) as [h|].
  2:{ split; [|intros e [= <-]; auto].
      split; [by intros [? ?]|by intros (? & ? & ? & _)]. }
  destruct (picks h (keys ++ terminals cls) s) as [[head|e] s1] eqn:Hhead.
  2:{ apply picks_raises in Hhead as Hr. destruct Hr as [-> Hnil].
      split; [|intros e [= <-]; auto].
      split; [by intros [? ?]|]. intros (h' & len & [= <-] & _ & [->|?] & _); done. }
  destruct (length cls) as [len|].
  2:{ split; [|intros e [= <-]; auto].
      split; [by intros [? ?]|by intros (? & ? & _ & ? & _)]. }
  destruct (picks (len - h) (terminals cls) s1) as [[tail|e] s2] eqn:Htail.
  2:{ apply picks_raises in Htail as Hr. destruct Hr as [-> Hnil].
      split; [|intros e [= <-]; auto].
      split; [by intros [? ?]|].
      intros (h' & len' & [= <-] & [= <-] & _ & [Hle|?]); [|done].
      replace (len - h) with 0 in Htail by lia. done. }
  split; [|done]. split; [|intros _; by eexists].
  intros _. exists h, len.
  apply picks_Ok_inv in Hhead, Htail. split_and!; [done|done|done|].
  destruct Htail; [left; lia|by right].
Qed.

Lemma generate_random_gene_Ok s gene s' h len :
  head_length cls = Some h → length cls = Some len →
  Forall (λ x, String.length x = 1) (keys ++ terminals cls) →
  generate_random_gene s = (Ok gene, s') →
  ∃ head tail,
    list_ascii_of_string gene = head ++ tail
    ∧ List.length head = h ∧ List.length tail = len - h
    ∧ Forall (λ c, chr c ∈ keys ++ terminals cls) head
    ∧ Forall (λ c, chr c ∈ terminals cls) tail.
Proof.
  intros Hh Hlen Hone.
  unfold Chromosome.generate_random_gene. rewrite Hh, Hlen.
  destruct (picks h _ s) as [[head|e] s1] eqn:Hhead; [|done].
  destruct (picks (len - h) _ s1) as [[tail|e] s2] eqn:Htail; [|done].
  intros [= <- _].
  apply picks_Ok in Hhead as [Hhl Hhin]. apply picks_Ok in Htail as [Htl Htin].
  destruct (list_ascii_of_join head) as (hs & Hhs & ->).
  { eapply Forall_impl; [exact Hhin|]. cbn. intros x Hx.
    rewrite Forall_forall in Hone. by apply Hone. }
  destruct (list_ascii_of_join tail) as (ts & Hts & ->).
  { eapply Forall_impl; [exact Htin|]. cbn. intros x Hx.
    rewrite Forall_forall in Hone. apply Hone. apply elem_of_app. by right. }
  exists hs, ts. rewrite list_ascii_of_string_app, Hhs, Hts.
  rewrite length_map in Hhl, Htl. rewrite Forall_map in Hhin, Htin. done.
Qed.

Lemma tail_bound h n len : h * (n - 1) + 1 ≤ len - h → h < len.
Proof. generalize (h * (n - 1)). intros k Hk. lia. Qed.

Lemma generate_random_gene_filled n h len s gene s' :
  head_length cls = Some h → length cls = Some len →
  symbols_ok n →
  h * (n - 1) + 1 ≤ len - h →
  generate_random_gene s = (Ok gene, s') →
  String.length gene = len ∧ filled cls (list_ascii_of_string gene).
Proof.
  intros Hh Hlen (Hone & Hterm & Hfun) Htail Hgene.
  destruct (generate_random_gene_Ok s gene s' h len Hh Hlen Hone Hgene)
    as (head & tail & Hg & Hhl & Htl & _ & Htin).
  assert (String.length gene = List.length (list_ascii_of_string gene)) as Hsl.
  { clear. induction gene; cbn; auto. }
  pose proof (tail_bound _ _ _ Htail) as Hlt.
  split. { rewrite Hsl, Hg, length_app. lia. }
  rewrite Hg. apply (head_tail_filled cls head tail n); [| |lia].
  - intros c'. unfold args. destruct (functions cls !! chr c') as [e|] eqn:He; [|lia].
    exact (Hfun _ _ He).
  - eapply Forall_impl; [exact Htin|]. cbn. intros c' Hc'.
    rewrite Forall_forall in Hterm. by apply Hterm.
Qed.

(** X17.  A random gene decodes: when the symbols are single characters,
    the terminals take no arguments, no function takes more than [n], and
    the tail has more than [head_length * (n - 1)] symbols, the gene has
    [length] symbols and [build_tree] returns a tree rooted at its first
    symbol. *)
Theorem generate_random_gene_decodes n h len s gene s' :
  head_length cls = Some h → length cls = Some len →
  symbols_ok n →
  h * (n - 1) + 1 ≤ len - h →
  generate_random_gene s = (Ok gene, s') →
  String.length gene = len
  ∧ ∃ c rest kids, gene = String c rest
                   ∧ build_tree cls gene = Ok (mkNode (chr c) kids).
Proof.
  intros Hh Hlen Hsym Htail Hgene.
  destruct (generate_random_gene_filled n h len s gene s' Hh Hlen Hsym Htail Hgene)
    as [Hl Hf].
  split; [done|].
  destruct gene as [|c rest].
  { apply tail_bound in Htail. cbn in Hl. lia. }
  exists c, rest.
  destruct (build_tree_filled cls (String c rest) c (list_ascii_of_string rest) eq_refl Hf)
    as [kids Hk].
  by exists kids.
Qed.

End GeneratorFacts.

Section IndividualFacts.
Variable cls : Class.
Variable keys : list string.
Local Abbreviation generate_random_gene := (generate_random_gene cls keys).
Local Abbreviation generate_random_genes := (generate_random_genes cls keys).
Local Abbreviation generate_random_individual := (generate_random_individual cls keys).
Local Abbreviation args := (args cls).

Lemma generate_random_genes_Ok n : ∀ s genes s',
  generate_random_genes n s = (Ok genes, s') →
  List.length genes = n
  ∧ Forall (λ g, ∃ s0 s1, generate_random_gene s0 = (Ok g, s1)) genes.
Proof.
  induction n as [|n IH]; intros s genes s'; cbn.
  - by intros [= <- _].
  - destruct (generate_random_gene s) as [[g|e] s1] eqn:Hg; [|done].
    destruct (generate_random_genes n s1) as [[gs|e] s2] eqn:Hgs; [|done].
    intros [= <- _]. destruct (IH _ _ _ Hgs) as [Hlen Hall].
    split; [cbn; by rewrite Hlen|]. constructor; [by eexists _, _|done].
Qed.

Lemma generate_random_genes_total n :
  (∀ s, is_Ok (generate_random_gene s).1) →
  ∀ s, ∃ genes s', generate_random_genes n s = (Ok genes, s').
Proof.
  intros Hgene. induction n as [|n IH]; intros s; cbn.
  - by eexists _, _.
  - specialize (Hgene s). destruct (generate_random_gene s) as [[g|e] s1]; [|by destruct Hgene].
    destruct (IH s1) as (gs & s2 & ->). by eexists _, _.
Qed.

Lemma build_trees_all genes :
  Forall (λ g, is_Ok (build_tree cls g)) genes →
  ∃ ts, build_trees cls genes = Ok ts ∧ List.length ts = List.length genes.
Proof.
  induction 1 as [|g genes [t Ht] _ (ts & Hts & Hlen)]; cbn.
  - by exists [].
  - rewrite Ht, Hts. cbn. exists (t :: ts). by rewrite <-Hlen.
Qed.

(** X18.  [generate_random_individual] returns a chromosome whenever the
    class has functions, terminals, a head length, a length, a range for
    the constants, and a linking function if it has more than one gene.
    The chromosome has [num_genes] genes and is fresh; under the conditions
    of X17 its genes have [length] symbols each and all decode. *)
Theorem generate_random_individual_spec uniform s :
  (functions cls ≠ ∅ → terminals cls ≠ [] →
   is_Some (head_length cls) → is_Some (length cls) →
   is_Some (ephemeral_random_constants_range cls) →
   (linking_function cls = None → num_genes cls ≤ 1) →
   is_Ok (generate_random_individual uniform s).1)
  ∧ (∀ self, (generate_random_individual uniform s).1 = Ok self →
       List.length (genes self) = num_genes cls
       ∧ trees self = [] ∧ _values_ self = [] ∧ _fitness_ self = None
       ∧ ∀ n h len,
           head_length cls = Some h → length cls = Some len →
           symbols_ok cls keys n → h * (n - 1) + 1 ≤ len - h →
           Forall (λ g, String.length g = len) (genes self)
           ∧ ∃ ts, build_trees cls (genes self) = Ok ts
                   ∧ List.length ts = num_genes cls).
Proof.
  unfold Chromosome.generate_random_individual. split.
  - intros Hf Ht [h Hh] [len Hlen] [[low high] Hr] Hlink.
    destruct (generate_random_genes_total (num_genes cls)) with (s := s)
      as (gs & s' & Hgs).
    { intros s0. by apply (generate_random_gene_total cls keys h len). }
    rewrite Hgs. cbn.
    apply generate_random_genes_Ok in Hgs as [Hn _].
    eexists. apply (init_ready cls uniform gs low high len); [|done|done].
    unfold Chromosome.ready. rewrite Hh, Hlen, Hn. split_and!; try done; by eexists.
  - intros self.
    destruct (generate_random_genes (num_genes cls) s) as [[gs|e] s1] eqn:Hgs; [|done].
    cbn. intros (low & high & len0 & _ & _ & ->)%init_Ok. cbn.
    apply generate_random_genes_Ok in Hgs as [Hn Hall].
    split_and!; try done.
    intros n h len Hh Hlen Hsym Htail.
    assert (Forall (λ g, String.length g = len ∧ is_Ok (build_tree cls g)) gs) as Hgood.
    { eapply Forall_impl; [exact Hall|]. cbn. intros g (s0 & s0' & Hg).
      destruct (generate_random_gene_filled cls keys n h len s0 g s0' Hh Hlen Hsym Htail Hg)
        as (Hl & Hf).
      split; [done|].
      destruct g as [|c rest]; [apply tail_bound in Htail; cbn in Hl; lia|].
      destruct (build_tree_filled cls (String c rest) c _ eq_refl Hf) as [kids Hk].
      by eexists. }
    apply Forall_and in Hgood as [Hl Hb]. split; [done|].
    destruct (build_trees_all gs Hb) as (ts & Hts & Hlts).
    exists ts. split; [done|lia].
Qed.

End IndividualFacts.

Section SlotFacts.
Variable cls : Class.
Variable recursion_limit : nat.
Variable self : chromosome.
Variable tv : gmap string Q.
Local Abbreviation inorder := (inorder cls self tv).
Local Abbreviation erc := (ephemeral_random_constants self).
(** No callable raises [IndexError]. *)
Hypothesis Hcall : ∀ f e vs, functions cls !! f = Some e → fn_f e vs ≠ Raise IndexError.

Lemma int_raises nm e : int nm = Raise e → e = ValueError.
Proof. unfold int. destruct (mapM _ _) as [[|]|]; by intros [= <-]. Qed.

Lemma inorder_each_slots kids :
  Forall (λ t, ∀ w r w', inorder t w = (r, w') →
                erc_index w + tree_size t ≤ List.length erc →
                r ≠ Raise IndexError ∧ erc_index w' ≤ erc_index w + tree_size t) kids →
  ∀ w r w', inorder_each inorder kids w = (r, w') →
    erc_index w + sum_list_with tree_size kids ≤ List.length erc →
    r ≠ Raise IndexError ∧ erc_index w' ≤ erc_index w + sum_list_with tree_size kids.
Proof.
  induction 1 as [|k kids Hk _ IH]; intros w r w'; cbn.
  - intros [= <- <-] _. split; [done|lia].
  - destruct (inorder k w) as [[v|e] w1] eqn:Hkw; intros Hr Hle.
    + destruct (Hk _ _ _ Hkw ltac:(lia)) as [_ Hw1].
      destruct (inorder_each inorder kids w1) as [[vs|e] w2] eqn:Hrest;
        destruct (IH _ _ _ Hrest ltac:(lia)) as [Hne Hw2];
        injection Hr as <- <-; (split; [done|lia]).
    + destruct (Hk _ _ _ Hkw ltac:(lia)) as [Hne Hw1].
      injection Hr as <- <-. split; [intros [= ->]; by apply Hne|lia].
Qed.

Lemma inorder_slots t : ∀ w r w',
  inorder t w = (r, w') →
  erc_index w + tree_size t ≤ List.length erc →
  r ≠ Raise IndexError ∧ erc_index w' ≤ erc_index w + tree_size t.
Proof.
  induction t as [nm kids IH] using Node_ind. intros w r w'. cbn.
  case_bool_decide.
  - destruct (String.eqb nm "?").
    + destruct (erc !! _) as [q|] eqn:Hq.
      * intros [= <- <-] _. cbn. split; [done|lia].
      * intros _ Hle. apply lookup_ge_None in Hq. lia.
    + destruct (constants cls !! nm); [intros [= <- <-] _; split; [done|lia]|].
      destruct (isdigit nm).
      { intros [= <- <-] _. split; [|lia]. intros ?%int_raises. done. }
      destruct (tv !! nm); intros [= <- <-] _; (split; [done|lia]).
  - destruct (functions cls !! nm) as [e|] eqn:He; [|intros [= <- <-] _; split; [done|lia]].
    destruct (inorder_each inorder kids w) as [[vs|e'] w1] eqn:Heach; intros Hr Hle;
      destruct (inorder_each_slots kids IH _ _ _ Heach ltac:(lia)) as [Hne Hw1];
      injection Hr as <- <-; cbn; (split; [|lia]);
      [by eapply Hcall|intros [= ->]; by apply Hne].
Qed.

End SlotFacts.

Section SlotsSuffice.
Variable cls : Class.
Variable recursion_limit : nat.

(** X19.  A chromosome of one gene that is no longer than its array of
    ephemeral constants never runs out of constants: if the gene decodes
    and no callable raises [IndexError], [evaluate] does not raise it. *)
Theorem evaluate_constants_suffice self tv gene r self' log :
  (∀ f e vs, functions cls !! f = Some e → fn_f e vs ≠ Raise IndexError) →
  num_genes cls ≤ 1 →
  genes self = [gene] → trees self = [] →
  String.length gene ≤ List.length (ephemeral_random_constants self) →
  is_Ok (build_tree cls gene) →
  evaluate cls recursion_limit self tv = (r, self', log) →
  r ≠ Raise IndexError.
Proof.
  intros Hcall Hn Hg Ht Hlen [t Hbuild]. unfold evaluate.
  destruct (cache_get _ _); [by intros [= <- _ _]|]. unfold decoded. rewrite Ht, Hg.
  cbn [List.length Nat.eqb build_trees]. rewrite Hbuild. cbn [bind].
  unfold expression_tree. rewrite (proj2 (Nat.ltb_ge _ _) Hn).
  destruct (inorder _ _ _ _ _) as [r0 w] eqn:Hin.
  apply build_tree_size in Hbuild.
  destruct (inorder_slots cls _ tv Hcall t _ _ _ Hin) as [Hne _].
  { cbn. lia. }
  destruct r0 as [[]|[]]; intros [= <- _ _]; done.
Qed.
End SlotsSuffice.


(** * The code at work *)

Import Examples.

Lemma build_tree_breadth_first_witness :
  ∃ t, build_tree single "*+Qx21y" = Ok t
       ∧ name t = "*"
       ∧ map name (level_nodes 1 [t]) = ["+"; "Q"]
       ∧ (∀ nd, level_nodes 1 [t] !! 1 = Some nd →
            List.length (children nd) = 1 ∧ map name (children nd) = ["1"])
       ∧ build_tree single "+ab" = Ok (mkNode "+" [mkNode "a" []; mkNode "b" []]).
Proof.
  destruct (build_tree_breadth_first single "*+Qx21y") as (_ & Hok & Hshape & Hab).
  destruct Hok as [t Ht]; [discriminate| |].
  { apply (enough_iff_filled single _ "*"%char (list_ascii_of_string "+Qx21y") 2 eq_refl).
    + vm_compute. reflexivity.
    + vm_compute. exact I. }
  destruct (Hshape t Ht) as (Hroot & Hlevels & Hkids).
  exists t. split; [exact Ht|]. split; [by injection Hroot|].
  split; [rewrite (Hlevels 1); vm_compute; reflexivity|]. split.
  - intros nd Hnd. destruct (Hkids 1 1 nd Hnd) as [Hlen Hnames].
    assert (name nd = "Q") as HQ.
    { pose proof (f_equal (λ l, l !! 1) (Hlevels 1)) as Hl.
      cbv beta in Hl. rewrite list_lookup_fmap, Hnd in Hl.
      vm_compute in Hl. by injection Hl. }
    rewrite HQ in Hlen.
    assert (functions single !! "Q" = Some {| fn_args := 1; fn_f := math_sqrt |}) as HfQ
      by (vm_compute; reflexivity).
    rewrite HfQ in Hlen. cbn in Hlen. split; [exact Hlen|].
    rewrite Hnames, Hlen. vm_compute. reflexivity.
  - apply (Hab {| fn_args := 2; fn_f := add |}); vm_compute; reflexivity.
Defined.

Lemma build_tree_nonempty_witness :
  ∃ kids, build_tree single "*+Qx21y" = Ok (mkNode "*" kids).
Proof.
  pose proof (build_tree_nonempty single "*+Qx21y") as H.
  cbn [list_ascii_of_string] in H. destruct H as (_ & _ & _ & H).
  apply (H (list_ascii_of_string "*+Q") (list_ascii_of_string "x21y") 2).
  - reflexivity.
  - intros c. unfold args. destruct (functions single !! chr c) as [e|] eqn:He; [|lia].
    assert (map_Forall (λ _ e, fn_args e ≤ 2) (functions single)) as Hall.
    { apply (bool_decide_unpack _). vm_compute. exact I. }
    exact (Hall _ _ He).
  - repeat constructor.
  - vm_compute. lia.
Defined.

Lemma build_tree_nonempty_counterexample :
  "+" ≠ "" ∧ build_tree single "+" = Raise IndexError.
Proof. split; [discriminate|vm_compute; reflexivity]. Qed.

Lemma link_spec_witness :
  link triple 6 [mkNode "x" []; mkNode "y" []]
  = Ok (mkNode "-" [mkNode "x" []; mkNode "y" []])
  ∧ link triple 6 [mkNode "x" []; mkNode "y" []; mkNode "1" []]
    = Ok (mkNode "-" [mkNode "-" [mkNode "x" []; mkNode "y" []]; mkNode "1" []])
  ∧ ∀ depth, link triple depth [mkNode "x" []] = Raise RecursionError.
Proof.
  assert (linking_function triple = Some "-") as Hs by reflexivity.
  assert (functions triple !! "-" = Some {| fn_args := 2; fn_f := sub |}) as He
    by (vm_compute; reflexivity).
  split_and!.
  - destruct (link_spec triple "-" _ Hs He 5 [mkNode "x" []; mkNode "y" []])
      as (Hexact & _). by apply Hexact.
  - destruct (link_spec triple "-" _ Hs He 5 [mkNode "x" []; mkNode "y" []; mkNode "1" []])
      as (_ & _ & Hchain & _).
    apply (Hchain 1); cbn; lia.
  - destruct (link_spec triple "-" _ Hs He 0 [mkNode "x" []]) as (_ & _ & _ & _ & Hnot).
    apply Hnot. cbn. intros (j & Hj & _). lia.
Defined.

(** Four trees under a linking function of two arguments are nested to the
    left, which is neither a fold to the right nor a fold over chunks of
    two; six trees, two chunks of three, are never linked by a linking
    function of three arguments, and two trees never by one of one
    argument. *)
Lemma link_spec_counterexample :
  (let a := mkNode "x" [] in let b := mkNode "y" [] in
   let c := mkNode "1" [] in let d := mkNode "2" [] in
   link triple 6 [a; b; c; d]
   = Ok (mkNode "-" [mkNode "-" [mkNode "-" [a; b]; c]; d])
   ∧ mkNode "-" [mkNode "-" [mkNode "-" [a; b]; c]; d]
     ≠ mkNode "-" [a; mkNode "-" [b; mkNode "-" [c; d]]]
   ∧ mkNode "-" [mkNode "-" [mkNode "-" [a; b]; c]; d]
     ≠ mkNode "-" [mkNode "-" [a; b]; mkNode "-" [c; d]])
  ∧ (∀ depth,
       link sixfold depth
         [mkNode "x" []; mkNode "y" []; mkNode "1" []; mkNode "2" []; mkNode "x" [];
          mkNode "y" []] = Raise RecursionError)
  ∧ (∀ depth,
       link (table 2 1 3 "Q") depth [mkNode "x" []; mkNode "y" []] = Raise RecursionError).
Proof.
  cbv zeta. split_and!.
  - vm_compute. reflexivity.
  - discriminate.
  - discriminate.
  - intros depth.
    rewrite (link_eq sixfold "T" {| fn_args := 3; fn_f := add3 |})
      by (vm_compute; reflexivity).
    apply link_recursive_diverges. cbn. intros (j & Hj & _). lia.
  - intros depth.
    rewrite (link_eq (table 2 1 3 "Q") "Q" {| fn_args := 1; fn_f := math_sqrt |})
      by (vm_compute; reflexivity).
    apply link_recursive_diverges. cbn. intros (j & Hj & [->|Hk]); lia.
Qed.

Lemma evaluate_memoized_witness :
  let self := fresh 7 ["+xxxxxx"] in
  let tv : gmap string Q := {[ "x" := 2%Q ]} in
  let self' := (evaluate single 100 self tv).1.2 in
  evaluate single 100 self' tv = (Ok (VReal 4), self', []).
Proof.
  cbv zeta.
  destruct (evaluate_memoized single 100 (fresh 7 ["+xxxxxx"]) {[ "x" := 2%Q ]}
              (VReal 4)
              (evaluate single 100 (fresh 7 ["+xxxxxx"]) {[ "x" := 2%Q ]}).1.2
              (evaluate single 100 (fresh 7 ["+xxxxxx"]) {[ "x" := 2%Q ]}).2)
    as (_ & _ & _ & H).
  - vm_compute. reflexivity.
  - exact H.
Defined.

Lemma ephemeral_constants_spec_witness :
  ∃ self, __init__ single eighths ["-??xxxx"] = Ok self
          ∧ List.length (ephemeral_random_constants self) = 7
          ∧ (evaluate single 100 self ∅).1.1 = Ok (VReal (-8 # 64)).
Proof.
  destruct (ephemeral_constants_spec single 100) as (Hinit & _ & _ & Hev).
  set (c := {| genes := ["-??xxxx"]; trees := []; _values_ := []; _fitness_ := None;
               ephemeral_random_constants := eighths (-1) 1 7 |}).
  exists c. split; [reflexivity|]. split.
  - destruct (Hinit eighths ["-??xxxx"] c) as (low & high & len & Hr & Hl & Hlen & _).
    + intros low high len [= <- <-] [= <-]. split; [reflexivity|].
      unfold eighths. cbn [seq fmap list_fmap Z.of_nat Pos.of_succ_nat Pos.succ].
      repeat (apply Forall_cons; split; [split; [discriminate|reflexivity]|]).
      constructor.
    + reflexivity.
    + injection Hl as <-. exact Hlen.
  - pose proof (Hev c ∅) as H.
    cbn [cache_get _values_ c] in H.
    rewrite (H [mkNode "-" [mkNode "?" []; mkNode "?" []]] [Decoded "-??xxxx"]
               (mkNode "-" [mkNode "?" []; mkNode "?" []]) [])
      by (vm_compute; reflexivity).
    vm_compute. reflexivity.
Defined.

Lemma ephemeral_constants_counterexample :
  __init__ double lowest ["+??"; "+??"] = Ok (fresh 3 ["+??"; "+??"])
  ∧ List.length (ephemeral_random_constants (fresh 3 ["+??"; "+??"])) = 3
  ∧ (evaluate double 100 (fresh 3 ["+??"; "+??"]) ∅).1.1 = Raise IndexError.
Proof. repeat split; vm_compute; reflexivity. Qed.

Lemma evaluate_numeric_failures_witness :
  ∃ self', (evaluate single 100 (fresh 7 ["/x-xxxx"]) {[ "x" := 2%Q ]}).1
           = (Ok VNaN, self').
Proof.
  destruct (evaluate_numeric_failures single 100 (fresh 7 ["/x-xxxx"]) {[ "x" := 2%Q ]})
    as (_ & H).
  destruct (H [mkNode "/" [mkNode "x" []; mkNode "-" [mkNode "x" []; mkNode "x" []]]]
              [Decoded "/x-xxxx"]
              (mkNode "/" [mkNode "x" []; mkNode "-" [mkNode "x" []; mkNode "x" []]])
              []
              (Raise ZeroDivisionError)
              {| erc_index := 0;
                 applied := [Applied "-" [VReal 2; VReal 2];
                             Applied "/" [VReal 2; VReal 0]] |})
    as ((self' & Hev & _) & _).
  - vm_compute. reflexivity.
  - vm_compute. reflexivity.
  - vm_compute. reflexivity.
  - vm_compute. reflexivity.
  - by left.
  - exists self'. by rewrite Hev.
Defined.

(** C5.  The square root of a negative number is not caught: with
    [math.sqrt] registered as ["Q"], the gene ["Q-1xxxx"] is the square root
    of [1 - x], and at [x = 2] the call raises the [ValueError] of
    [math.sqrt] where not-a-number was meant; nothing is cached. *)
Lemma evaluate_negative_root_escapes :
  functions single !! "Q" = Some {| fn_args := 1; fn_f := math_sqrt |}
  ∧ build_tree single "Q-1xxxx"
    = Ok (mkNode "Q" [mkNode "-" [mkNode "1" []; mkNode "x" []]])
  ∧ (evaluate single 100 (fresh 7 ["Q-1xxxx"]) {[ "x" := 2%Q ]}).1.1 = Raise ValueError
  ∧ _values_ (evaluate single 100 (fresh 7 ["Q-1xxxx"]) {[ "x" := 2%Q ]}).1.2 = [].
Proof. split_and!; vm_compute; reflexivity. Qed.




Lemma fitness_getter_witness :
  fitness (absolute_fitness1 single 100 exact 10 (fresh 7 ["+xxxxxx"])).2 = (VReal 10, []).
Proof.
  destruct (fitness_getter single 100 exact (fresh 7 ["+xxxxxx"])) as (_ & H & _).
  apply (H 10%Q). vm_compute. reflexivity.
Defined.

(** Linking two parentless leaves changes both: the first had no parent and
    has the new root as its parent afterwards. *)
Lemma link_modifies_arguments :
  ∃ r h', Store.link_recursive 1 "+" 2 [0; 1] two_leaves = Ok (r, h')
          ∧ cell_parent <$> two_leaves !! 0 = Some None
          ∧ cell_parent <$> h' !! 0 = Some (Some r).
Proof. eexists _, _. split; [vm_compute; reflexivity|]. split; reflexivity. Qed.

(** Linking the two leaves a second time, as the next call of [evaluate]
    does, moves them from the root of the first link to a new one. *)
Lemma link_evaluate_frame_witness :
  Store.link_recursive 1 "+" 2 [0; 1] two_leaves = Ok (2, linked_leaves)
  ∧ (∃ r h' c' p pc,
       Store.link_recursive 1 "+" 2 [0; 1] linked_leaves = Ok (r, h')
       ∧ h' !! 0 = Some c' ∧ cell_children c' = [] ∧ cell_parent c' = Some p
       ∧ 3 ≤ p ∧ h' !! p = Some pc ∧ cell_name pc = "+")
  ∧ genes (evaluate single 100 (fresh 7 ["+xxxxxx"]) {[ "x" := 2%Q ]}).1.2 = ["+xxxxxx"].
Proof.
  destruct link_evaluate_frame as [Hlink Hev]. split; [vm_compute; reflexivity|]. split.
  - destruct (Store.link_recursive 1 "+" 2 [0; 1] linked_leaves) as [[r h']|e] eqn:Hl;
      [|vm_compute in Hl; discriminate].
    destruct (Hlink 2 1 "+" 2 [0; 1] linked_leaves r h') as (_ & Hkeep & Hnew).
    + cbn. lia.
    + repeat constructor; eexists; (split; [reflexivity|right; by exists 2]).
    + exact Hl.
    + destruct (Hkeep 0 _ eq_refl) as (c' & Hc' & _ & Hkids & _).
      destruct (Hnew 0) as (c'' & p & pc & Hc'' & Hp & Hle & Hpc & Hname).
      { apply list_elem_of_here. }
      exists r, h', c', p, pc. rewrite Hc' in Hc''. injection Hc'' as <-.
      split_and!; try done. apply Hkids. lia.
  - destruct (evaluate single 100 (fresh 7 ["+xxxxxx"]) {[ "x" := 2%Q ]})
      as [[r self'] log] eqn:E.
    destruct (Hev _ _ _ _ _ _ _ E) as [Hg _]. exact Hg.
Defined.

(** ** The further properties at work *)

Lemma build_tree_tail_ignored_witness :
  build_tree single ("+xy" ++ "12yx")%string
  = Ok (mkNode "+" [mkNode "x" []; mkNode "y" []]).
Proof.
  destruct (build_tree_tail_ignored single "+xy"
              (mkNode "+" [mkNode "x" []; mkNode "y" []])) as [_ H].
  - vm_compute. reflexivity.
  - exact (H "12yx").
Defined.

Lemma build_tree_coding_region_witness :
  build_tree single "+xy" = Ok (mkNode "+" [mkNode "x" []; mkNode "y" []])
  ∧ build_tree single "+x" = Raise IndexError.
Proof.
  destruct (build_tree_coding_region single "+xy12yx"
              (mkNode "+" [mkNode "x" []; mkNode "y" []])) as [H1 H2].
  - vm_compute. reflexivity.
  - split; [exact H1|]. apply (H2 2). cbn. lia.
Defined.

Lemma link_outcome_witness :
  link triple 6 [mkNode "x" []; mkNode "y" []; mkNode "1" []]
  = Ok (mkNode "-" [mkNode "-" [mkNode "x" []; mkNode "y" []]; mkNode "1" []]).
Proof.
  pose proof (link_outcome triple 6 [mkNode "x" []; mkNode "y" []; mkNode "1" []]) as H.
  change (linking_function triple) with (Some "-") in H. cbv iota beta in H.
  assert (functions triple !! "-" = Some {| fn_args := 2; fn_f := sub |}) as He
    by (vm_compute; reflexivity).
  rewrite He in H. destruct H as [H _]. apply H.
  exists 1. split; [lia|]. split; [reflexivity|]. split; [right; cbn; lia|reflexivity].
Defined.

Lemma link_left_fold_witness :
  ∃ t wfin,
    link triple 6 [mkNode "x" []; mkNode "y" []; mkNode "1" []] = Ok t
    ∧ inorder triple (fresh 3 []) {[ "x" := 5%Q; "y" := 2%Q ]} t
        {| erc_index := 0; applied := [] |}
      = (link_values sub (VReal 5) [VReal 2; VReal 1], wfin).
Proof.
  destruct (link_left_fold triple (fresh 3 []) {[ "x" := 5%Q; "y" := 2%Q ]}
              "-" {| fn_args := 2; fn_f := sub |} 6
              (mkNode "x" []) (mkNode "y" []) [mkNode "1" []]
              {| erc_index := 0; applied := [] |}
              (VReal 5) (VReal 2) [VReal 1]
              {| erc_index := 0; applied := [] |})
    as (t & wfin & Hlink & Hin & _).
  - reflexivity.
  - vm_compute. reflexivity.
  - reflexivity.
  - apply (bool_decide_unpack _). vm_compute. exact I.
  - cbn. lia.
  - vm_compute. reflexivity.
  - exists t, wfin. split; [exact Hlink|exact Hin].
Defined.

Lemma evaluate_memo_survives_witness :
  let self := fresh 7 ["+xxxxxx"] in
  let self1 := (evaluate single 100 self {[ "x" := 2%Q ]}).1.2 in
  let self2 := (evaluate single 100 self1 {[ "x" := 3%Q ]}).1.2 in
  evaluate single 100 self2 {[ "x" := 2%Q ]} = (Ok (VReal 4), self2, []).
Proof.
  cbv zeta.
  apply (evaluate_memo_survives single 100 (fresh 7 ["+xxxxxx"]) {[ "x" := 2%Q ]}
           (VReal 4)
           (evaluate single 100 (fresh 7 ["+xxxxxx"]) {[ "x" := 2%Q ]}).1.2
           (evaluate single 100 (fresh 7 ["+xxxxxx"]) {[ "x" := 2%Q ]}).2
           {[ "x" := 3%Q ]}
           (evaluate single 100
              (evaluate single 100 (fresh 7 ["+xxxxxx"]) {[ "x" := 2%Q ]}).1.2
              {[ "x" := 3%Q ]}).1.1
           _
           (evaluate single 100
              (evaluate single 100 (fresh 7 ["+xxxxxx"]) {[ "x" := 2%Q ]}).1.2
              {[ "x" := 3%Q ]}).2).
  - vm_compute. reflexivity.
  - vm_compute. reflexivity.
Defined.

Lemma evaluate_failure_witness :
  let self' := (evaluate single 100 (fresh 7 ["Q-1xxxx"]) {[ "x" := 2%Q ]}).1.2 in
  ∃ log', evaluate single 100 self' {[ "x" := 2%Q ]} = (Raise ValueError, self', log').
Proof.
  cbv zeta.
  destruct (evaluate_failure single 100 (fresh 7 ["Q-1xxxx"]) {[ "x" := 2%Q ]} ValueError
              (evaluate single 100 (fresh 7 ["Q-1xxxx"]) {[ "x" := 2%Q ]}).1.2
              (evaluate single 100 (fresh 7 ["Q-1xxxx"]) {[ "x" := 2%Q ]}).2)
    as (_ & _ & _ & H).
  - vm_compute. reflexivity.
  - exact H.
Defined.

Lemma evaluate_ignores_genes_witness :
  let self1 := (evaluate single 100 (fresh 7 ["+xxxxxx"]) {[ "x" := 2%Q ]}).1.2 in
  let self2 := {| genes := ["*xxxxxx"]; trees := trees self1; _values_ := _values_ self1;
                  _fitness_ := None;
                  ephemeral_random_constants := ephemeral_random_constants self1 |} in
  (evaluate single 100 self2 {[ "x" := 3%Q ]}).1.1
  = (evaluate single 100 self1 {[ "x" := 3%Q ]}).1.1.
Proof.
  cbv zeta.
  pose proof (evaluate_ignores_genes single 100
                (evaluate single 100 (fresh 7 ["+xxxxxx"]) {[ "x" := 2%Q ]}).1.2
                {| genes := ["*xxxxxx"];
                   trees := trees (evaluate single 100 (fresh 7 ["+xxxxxx"])
                                     {[ "x" := 2%Q ]}).1.2;
                   _values_ := _values_ (evaluate single 100 (fresh 7 ["+xxxxxx"])
                                           {[ "x" := 2%Q ]}).1.2;
                   _fitness_ := None;
                   ephemeral_random_constants :=
                     ephemeral_random_constants
                       (evaluate single 100 (fresh 7 ["+xxxxxx"]) {[ "x" := 2%Q ]}).1.2 |}
                {[ "x" := 3%Q ]}) as H.
  destruct (evaluate single 100 _ {[ "x" := 3%Q ]}) as [[r1 s1] l1].
  destruct (evaluate single 100 _ {[ "x" := 3%Q ]}) as [[r2 s2] l2].
  destruct H as (H & _); [vm_compute; discriminate|reflexivity|reflexivity|reflexivity|].
  exact H.
Defined.

Lemma evaluate_unknown_symbol_witness :
  ∃ self', evaluate single 100 (fresh 7 ["zxxxxxx"]) ∅ = (Ok VNone, self', [Decoded "zxxxxxx"]).
Proof.
  destruct (evaluate_unknown_symbol single 100 (fresh 7 ["zxxxxxx"]) ∅ "z"%char "xxxxxx")
    as (self' & H & _).
  - apply (bool_decide_unpack _). vm_compute. exact I.
  - vm_compute. reflexivity.
  - cbn. lia.
  - reflexivity.
  - reflexivity.
  - reflexivity.
  - exists self'. exact H.
Defined.

Lemma evaluate_terminal_gene_witness :
  ∃ self', evaluate single 100 (fresh 7 ["xyyyyyy"]) {[ "x" := 5%Q ]}
           = (Ok (VReal 5), self', [Decoded "xyyyyyy"]).
Proof.
  pose proof (evaluate_terminal_gene single 100 (fresh 7 ["xyyyyyy"]) {[ "x" := 5%Q ]}
                "x"%char "yyyyyy") as H.
  cbv zeta in H.
  assert (digit_value "x"%char = None) as Hd by reflexivity.
  assert (({[ "x" := 5%Q ]} : gmap string Q) !! chr "x" = Some 5%Q) as Hx
    by (vm_compute; reflexivity).
  assert (isdigit_char "x"%char = false) as Hs by reflexivity.
  rewrite Hd, Hs, Hx in H. apply H.
  - apply (bool_decide_unpack _). vm_compute. exact I.
  - discriminate.
  - vm_compute. reflexivity.
  - vm_compute. reflexivity.
  - cbn. lia.
  - reflexivity.
  - reflexivity.
  - reflexivity.
Defined.

Lemma evaluate_applies_by_arity_witness :
  ∃ e, functions single !! "*" = Some e
       ∧ List.length [VReal 3%Q; VReal 2%Q] = fn_args e.
Proof.
  destruct (evaluate_applies_by_arity single 100 (fresh 7 ["+x*yxxx"])
              {[ "x" := 2%Q; "y" := 3%Q ]}
              (evaluate single 100 (fresh 7 ["+x*yxxx"]) {[ "x" := 2%Q; "y" := 3%Q ]}).1.1
              (evaluate single 100 (fresh 7 ["+x*yxxx"]) {[ "x" := 2%Q; "y" := 3%Q ]}).1.2
              (evaluate single 100 (fresh 7 ["+x*yxxx"]) {[ "x" := 2%Q; "y" := 3%Q ]}).2)
    as [_ H].
  - constructor.
  - vm_compute. reflexivity.
  - apply H. apply list_elem_of_In. vm_compute. right. left. reflexivity.
Defined.

Lemma init_outcome_witness :
  __init__ double lowest ["+??"; "+??"] = Ok (fresh 3 ["+??"; "+??"]).
Proof.
  destruct (init_outcome double lowest ["+??"; "+??"]) as (H & _).
  apply H. split.
  - unfold ready. split; [|split; [|split; [|split; [|split]]]].
    + apply (bool_decide_unpack _). vm_compute. exact I.
    + discriminate.
    + by eexists.
    + by eexists.
    + discriminate.
    + reflexivity.
  - exists (-1)%Q, 1%Q, 3. split; [reflexivity|]. split; reflexivity.
Defined.

Lemma scorers_memoised_witness :
  let cs' := (absolute_fitness single 100 exact 10 [fresh 7 ["+xxxxxx"]]).2 in
  inv_squared_error single 100 exact cs' = (Ok [VReal 10], cs').
Proof.
  cbv zeta.
  destruct (scorers_memoised single 100 exact 10 [fresh 7 ["+xxxxxx"]] [VReal 10]
              (absolute_fitness single 100 exact 10 [fresh 7 ["+xxxxxx"]]).2) as [_ H].
  - left. vm_compute. reflexivity.
  - exact H.
Defined.

Lemma scorers_no_cases_witness :
  absolute_fitness untrained 100 exact 10 [fresh 7 ["+xxxxxx"]]
  = (Ok [VReal 0], [set_fitness (fresh 7 ["+xxxxxx"]) (VReal 0)]).
Proof.
  destruct (scorers_no_cases untrained 100 exact 10 [fresh 7 ["+xxxxxx"]]) as [H _].
  - reflexivity.
  - repeat constructor.
  - exact H.
Defined.

Lemma scorers_failure_witness :
  ∃ c', (absolute_fitness single 100 exact 10 [fresh 7 ["Q-1xxxx"]]).2 = [c']
        ∧ _fitness_ c' = None.
Proof.
  destruct (scorers_failure single 100 exact 10 [fresh 7 ["Q-1xxxx"]] ValueError
              (absolute_fitness single 100 exact 10 [fresh 7 ["Q-1xxxx"]]).2)
    as (_ & scored & c & rest & scored' & c' & Hcs & Hcs' & Hlen & _ & Hc' & _).
  - left. vm_compute. reflexivity.
  - destruct scored as [|? [|]]; try discriminate.
    destruct scored' as [|]; [|discriminate].
    injection Hcs as _ <-. exists c'. split; [exact Hcs'|exact Hc'].
Defined.

Lemma scorers_type_error_witness :
  absolute_fitness huge 100 exact 10 [fresh 7 ["xyyyyyy"]; fresh 7 ["yxxxxxx"]]
  = (Raise TypeError,
     [(evaluate huge 100 (fresh 7 ["xyyyyyy"]) {[ "x" := (2 ^ 64)%Q ]}).1.2;
      fresh 7 ["yxxxxxx"]]).
Proof.
  destruct (scorers_type_error huge 100 exact 10 (fresh 7 ["xyyyyyy"]) []
              {[ "x" := (2 ^ 64)%Q ]} 4%Q [] [] (fresh 7 ["xyyyyyy"])
              (VReal (2 ^ 64))
              (evaluate huge 100 (fresh 7 ["xyyyyyy"]) {[ "x" := (2 ^ 64)%Q ]}).1.2
              (evaluate huge 100 (fresh 7 ["xyyyyyy"]) {[ "x" := (2 ^ 64)%Q ]}).2
              [fresh 7 ["yxxxxxx"]]) as (H & _).
  - reflexivity.
  - reflexivity.
  - reflexivity.
  - constructor.
  - vm_compute. reflexivity.
  - right. exists (2 ^ 64)%Q. split; [reflexivity|]. vm_compute. reflexivity.
  - apply H. by eexists.
Defined.

Lemma generate_random_gene_outcome_witness :
  is_Ok (generate_random_gene single arithmetic_keys counting).1.
Proof.
  destruct (generate_random_gene_outcome single arithmetic_keys counting) as [H _].
  apply H. exists 3, 7. split; [reflexivity|]. split; [reflexivity|].
  split; right; discriminate.
Defined.

Lemma symbols_ok_single : symbols_ok single arithmetic_keys 2.
Proof.
  split; [|split].
  - repeat constructor.
  - repeat constructor.
  - apply (bool_decide_unpack _). vm_compute. exact I.
Qed.

Lemma generate_random_gene_decodes_witness :
  ∃ kids, build_tree single "+-*12xy" = Ok (mkNode "+" kids).
Proof.
  destruct (generate_random_gene_decodes single arithmetic_keys 2 3 7 counting "+-*12xy"
              (generate_random_gene single arithmetic_keys counting).2)
    as (_ & c & rest & kids & Hg & Hb).
  - reflexivity.
  - reflexivity.
  - exact symbols_ok_single.
  - cbn. lia.
  - vm_compute. reflexivity.
  - injection Hg as <- <-. exists kids. exact Hb.
Defined.

Lemma generate_random_individual_spec_witness :
  is_Ok (generate_random_individual single arithmetic_keys lowest counting).1.
Proof.
  destruct (generate_random_individual_spec single arithmetic_keys lowest counting) as [H _].
  apply H.
  - apply (bool_decide_unpack _). vm_compute. exact I.
  - discriminate.
  - by eexists.
  - by eexists.
  - by eexists.
  - discriminate.
Defined.

Lemma arithmetic_no_IndexError f e vs :
  functions single !! f = Some e → fn_f e vs ≠ Raise IndexError.
Proof.
  assert (map_Forall (λ _ e, ∀ vs, fn_f e vs ≠ Raise IndexError) arithmetic) as H.
  { unfold arithmetic.
    repeat (apply map_Forall_insert_2; [|]).
    7: apply map_Forall_empty.
    all: intros [|[] [|[] [|]]]; cbn; try done.
    all: try by destruct (Qeq_bool _ _).
    all: try by destruct (Qle_bool _ _). }
  intros He. exact (H f e He vs).
Qed.

Lemma evaluate_constants_suffice_witness :
  (evaluate single 100 (fresh 7 ["+?*?xxx"]) {[ "x" := 2%Q ]}).1.1 ≠ Raise IndexError.
Proof.
  apply (evaluate_constants_suffice single 100 (fresh 7 ["+?*?xxx"]) {[ "x" := 2%Q ]}
           "+?*?xxx" _
           (evaluate single 100 (fresh 7 ["+?*?xxx"]) {[ "x" := 2%Q ]}).1.2
           (evaluate single 100 (fresh 7 ["+?*?xxx"]) {[ "x" := 2%Q ]}).2).
  - exact arithmetic_no_IndexError.
  - cbn. lia.
  - reflexivity.
  - reflexivity.
  - cbn. lia.
  - eexists. vm_compute. reflexivity.
  - vm_compute. reflexivity.
Defined.
